(** * The acyclic-graph layer of the dag package

    A shallow embedding of [AcyclicGraph] (walks, [Descendants],
    [Ancestors], [Root], [TransitiveReduction] and the rewiring loop of
    [Marshal]) over finite maps, with the theorems that relate it to its
    specification.

    Go maps are [gmap]s.  The order in which [range] enumerates a map is
    not fixed by the language; it is an explicit oracle [shuffle], indexed
    by a tick that every [range] over a map advances, so that two
    enumerations of one map may differ.  Loops that Go writes with [for]
    over a growing frontier are fuel-indexed; [None] means that the fuel
    ran out, never a result of the program. *)

From stdpp Require Import base option list sorting gmap strings fin_maps fin_sets.

Set Warnings "-clear-no-such-hyp".

(** [frontier[n-1]] and [frontier[:n-1]] of a slice. *)
Fixpoint unsnoc {A : Type} (l : list A) : option (list A * A) :=
  match l with
  | [] => None
  | x :: l' =>
      match unsnoc l' with
      | None => Some ([], x)
      | Some (r, y) => Some (x :: r, y)
      end
  end.

Section dag.
Context `{Countable Vertex}.

(** [hashcode] of the package: the identity key of a vertex.  A Go
    [interface{}] value is both a vertex and a possible key. *)
Variable hashcode : Vertex → Vertex.

(** [VertexName] of the package: the display name of a vertex. *)
Variable VertexName : Vertex → string.

(** The enumeration order of [range] over a map, at a given tick. *)
Variable shuffle : ∀ A : Type, nat → list A → list A.

(** [byVertexName.Less], on the vertices instead of their indices. *)
Definition byVertexName_Less (a b : Vertex) : bool :=
  String.ltb (VertexName a) (VertexName b).

(** [sort.Sort] of the Go library, on a slice ordered by [byVertexName]. *)
Variable sort_Sort : list Vertex → list Vertex.

(** ** Set *)

(** Go's [type Set map[interface{}]interface{}]. *)
Abbreviation VertexSet := (gmap Vertex Vertex).

(** [for _, v := range s] at tick [t]. *)
Definition range (t : nat) (s : VertexSet) : list Vertex :=
  shuffle _ t (map_to_list s).*2.

(** Modelled from the spec: [Set.Add], which stores a vertex under its
    identity key (section 4.1). *)
Definition Set_Add (s : VertexSet) (v : Vertex) : VertexSet :=
  <[hashcode v := v]> s.

(** Modelled from the spec: [Set.Delete], the inverse of [Set.Add]. *)
Definition Set_Delete (s : VertexSet) (v : Vertex) : VertexSet :=
  delete (hashcode v) s.

(** Modelled from the spec: [Set.Include], the membership test by identity
    key (section 4.1). *)
Definition Set_Include (s : VertexSet) (v : Vertex) : bool :=
  bool_decide (is_Some (s !! hashcode v)).

(** Modelled from the spec: [Set.Len]. *)
Definition Set_Len (s : VertexSet) : nat := size s.

(** Modelled from the spec: [Set.Intersection], a fresh set holding the
    members of the smaller operand that the other one includes. *)
Definition Set_Intersection (t : nat) (s other : VertexSet) : VertexSet * nat :=
  let '(s, other) :=
    if decide (Set_Len other < Set_Len s) then (other, s) else (s, other) in
  (foldl (λ result v, if Set_Include other v then Set_Add result v else result)
         ∅ (range t s),
   S t).

(** ** GraphBase *)

(** Modelled from the spec: the graph store of section 6, a set of
    vertices, a set of edges (ordered pairs) and the two adjacency maps,
    each keyed by the identity key of a vertex. *)
Record GraphBase := {
  vertices : VertexSet;
  edges : gset (Vertex * Vertex);
  downEdges : gmap Vertex VertexSet;
  upEdges : gmap Vertex VertexSet
}.

Definition BasicEdge (source target : Vertex) : Vertex * Vertex :=
  (source, target).

(** Modelled from the spec: [vertices()] of section 6. *)
Definition Vertices (t : nat) (g : GraphBase) : list Vertex * nat :=
  (range t (vertices g), S t).

(** Modelled from the spec: [Edges()], the edges as a fresh slice. *)
Definition Edges (t : nat) (g : GraphBase) : list (Vertex * Vertex) * nat :=
  (shuffle _ t (elements (edges g)), S t).

(** Modelled from the spec: [down_edges(v)] of section 6, without the
    copy: the adjacency set itself, empty for a vertex without one. *)
Definition downEdgesNoCopy (g : GraphBase) (v : Vertex) : VertexSet :=
  default ∅ (downEdges g !! hashcode v).

(** Modelled from the spec: [up_edges(v)] of section 6, without the copy. *)
Definition upEdgesNoCopy (g : GraphBase) (v : Vertex) : VertexSet :=
  default ∅ (upEdges g !! hashcode v).

(** Modelled from the spec: [Add] of the graph store. *)
Definition Add (g : GraphBase) (v : Vertex) : GraphBase :=
  {| vertices := Set_Add (vertices g) v;
     edges := edges g;
     downEdges := downEdges g;
     upEdges := upEdges g |}.

(** Modelled from the spec: [connect(edge)] of section 6; a duplicate
    edge has no additional effect (section 3). *)
Definition Connect (g : GraphBase) (e : Vertex * Vertex) : GraphBase :=
  let '(source, target) := e in
  if Set_Include (downEdgesNoCopy g source) target then g
  else
    {| vertices := vertices g;
       edges := {[e]} ∪ edges g;
       downEdges :=
         <[hashcode source := Set_Add (downEdgesNoCopy g source) target]>
           (downEdges g);
       upEdges :=
         <[hashcode target := Set_Add (upEdgesNoCopy g target) source]>
           (upEdges g) |}.

(** Modelled from the spec: [remove_edge(edge)] of section 6. *)
Definition RemoveEdge (g : GraphBase) (e : Vertex * Vertex) : GraphBase :=
  let '(source, target) := e in
  {| vertices := vertices g;
     edges := edges g ∖ {[e]};
     downEdges :=
       match downEdges g !! hashcode source with
       | Some s => <[hashcode source := Set_Delete s target]> (downEdges g)
       | None => downEdges g
       end;
     upEdges :=
       match upEdges g !! hashcode target with
       | Some s => <[hashcode target := Set_Delete s source]> (upEdges g)
       | None => upEdges g
       end |}.

(** ** Errors *)

(** The [error] values of the package: the two of [Root], and whatever a
    visitor returns. *)
Inductive error :=
| MultipleRoots (roots : list Vertex)
| NoRootsFound
| VisitorError (msg : string).

(** ** Root *)

Definition Root (t : nat) (g : GraphBase) : (Vertex + error) * nat :=
  let '(vs, t) := Vertices t g in
  let roots := filter (λ v, Set_Len (upEdgesNoCopy g v) = 0) vs in
  (if decide (1 < length roots) then inr (MultipleRoots roots)
   else
     match roots with
     | [] => inr NoRootsFound
     | r :: _ => inl r
     end,
   t).

(** ** Walks *)

Record vertexAtDepth := { vertex : Vertex; depth : nat }.

(** A machine state is the tick of the enumeration oracle and a heap [Heap]
    of whatever the visitor closes over.  The walked graph is read from
    the heap at every expansion, since a visitor may change it. *)
Definition DepthWalkFunc (Heap : Type) : Type :=
  Vertex → nat → nat * Heap → option error * (nat * Heap).

(** [frontier = append(frontier, &vertexAtDepth{v, d})] for each [v]. *)
Definition at_depth (d : nat) (vs : list Vertex) : list vertexAtDepth :=
  (λ v, {| vertex := v; depth := d |}) <$> vs.

Section walks.
Context {Heap : Type}.
Variable g : Heap → GraphBase.
Variable f : DepthWalkFunc Heap.

Fixpoint DepthFirstWalk_loop (fuel : nat) (seen : gset Vertex)
    (frontier : list vertexAtDepth) (m : nat * Heap)
    : option (option error * (nat * Heap)) :=
  match fuel with
  | 0 => None
  | S fuel =>
      match unsnoc frontier with
      | None => Some (None, m)
      | Some (frontier, current) =>
          if decide (hashcode (vertex current) ∈ seen)
          then DepthFirstWalk_loop fuel seen frontier m
          else
            let seen := {[hashcode (vertex current)]} ∪ seen in
            match f (vertex current) (depth current) m with
            | (Some err, m) => Some (Some err, m)
            | (None, (t, s)) =>
                let targets := range t (downEdgesNoCopy (g s) (vertex current)) in
                DepthFirstWalk_loop fuel seen
                  (frontier ++ at_depth (depth current + 1) targets)
                  (S t, s)
            end
      end
  end.

Definition DepthFirstWalk (fuel : nat) (start : VertexSet) (m : nat * Heap)
    : option (option error * (nat * Heap)) :=
  let '(t, s) := m in
  DepthFirstWalk_loop fuel ∅ (at_depth 0 (range t start)) (S t, s).

(** The inner [for i := 0; i < n; i++] of [BreadthFirstWalk]: [level]
    is [frontier[i:n]], [appended] is [frontier[n:]]. *)
Fixpoint BreadthFirstWalk_level (level : list vertexAtDepth)
    (seen : gset Vertex) (appended : list vertexAtDepth) (m : nat * Heap)
    : option error * gset Vertex * list vertexAtDepth * (nat * Heap) :=
  match level with
  | [] => (None, seen, appended, m)
  | current :: level =>
      if decide (hashcode (vertex current) ∈ seen)
      then BreadthFirstWalk_level level seen appended m
      else
        let seen := {[hashcode (vertex current)]} ∪ seen in
        match f (vertex current) (depth current) m with
        | (Some err, m) => (Some err, seen, appended, m)
        | (None, (t, s)) =>
            let targets := range t (downEdgesNoCopy (g s) (vertex current)) in
            BreadthFirstWalk_level level seen
              (appended ++ at_depth (depth current + 1) targets)
              (S t, s)
        end
  end.

Fixpoint BreadthFirstWalk_loop (fuel : nat) (seen : gset Vertex)
    (frontier : list vertexAtDepth) (m : nat * Heap)
    : option (option error * (nat * Heap)) :=
  match fuel with
  | 0 => None
  | S fuel =>
      match frontier with
      | [] => Some (None, m)
      | _ =>
          match BreadthFirstWalk_level frontier seen [] m with
          | (Some err, _, _, m) => Some (Some err, m)
          | (None, seen, frontier, m) =>
              BreadthFirstWalk_loop fuel seen frontier m
          end
      end
  end.

Definition BreadthFirstWalk (fuel : nat) (start : VertexSet) (m : nat * Heap)
    : option (option error * (nat * Heap)) :=
  let '(t, s) := m in
  BreadthFirstWalk_loop fuel ∅ (at_depth 0 (range t start)) (S t, s).

(** [AsVertexList] followed by [sort.Sort(byVertexName(targets))]. *)
Definition sorted_targets (t : nat) (s : VertexSet) : list Vertex :=
  sort_Sort (range t s).

Fixpoint SortedDepthFirstWalk_loop (fuel : nat) (seen : gset Vertex)
    (frontier : list vertexAtDepth) (m : nat * Heap)
    : option (option error * (nat * Heap)) :=
  match fuel with
  | 0 => None
  | S fuel =>
      match unsnoc frontier with
      | None => Some (None, m)
      | Some (frontier, current) =>
          if decide (vertex current ∈ seen)
          then SortedDepthFirstWalk_loop fuel seen frontier m
          else
            let seen := {[vertex current]} ∪ seen in
            match f (vertex current) (depth current) m with
            | (Some err, m) => Some (Some err, m)
            | (None, (t, s)) =>
                let targets :=
                  sorted_targets t (downEdgesNoCopy (g s) (vertex current)) in
                SortedDepthFirstWalk_loop fuel seen
                  (frontier ++ at_depth (depth current + 1) targets)
                  (S t, s)
            end
      end
  end.

Definition SortedDepthFirstWalk (fuel : nat) (start : list Vertex)
    (m : nat * Heap) : option (option error * (nat * Heap)) :=
  SortedDepthFirstWalk_loop fuel ∅ (at_depth 0 start) m.

Fixpoint ReverseDepthFirstWalk_loop (fuel : nat) (seen : gset Vertex)
    (frontier : list vertexAtDepth) (m : nat * Heap)
    : option (option error * (nat * Heap)) :=
  match fuel with
  | 0 => None
  | S fuel =>
      match unsnoc frontier with
      | None => Some (None, m)
      | Some (frontier, current) =>
          if decide (vertex current ∈ seen)
          then ReverseDepthFirstWalk_loop fuel seen frontier m
          else
            let seen := {[vertex current]} ∪ seen in
            let '(t, s) := m in
            let targets := range t (upEdgesNoCopy (g s) (vertex current)) in
            let frontier := frontier ++ at_depth (depth current + 1) targets in
            match f (vertex current) (depth current) (S t, s) with
            | (Some err, m) => Some (Some err, m)
            | (None, m) => ReverseDepthFirstWalk_loop fuel seen frontier m
            end
      end
  end.

Definition ReverseDepthFirstWalk (fuel : nat) (start : VertexSet)
    (m : nat * Heap) : option (option error * (nat * Heap)) :=
  let '(t, s) := m in
  ReverseDepthFirstWalk_loop fuel ∅ (at_depth 0 (range t start))
    (S t, s).

Fixpoint SortedReverseDepthFirstWalk_loop (fuel : nat) (seen : gset Vertex)
    (frontier : list vertexAtDepth) (m : nat * Heap)
    : option (option error * (nat * Heap)) :=
  match fuel with
  | 0 => None
  | S fuel =>
      match unsnoc frontier with
      | None => Some (None, m)
      | Some (frontier, current) =>
          if decide (vertex current ∈ seen)
          then SortedReverseDepthFirstWalk_loop fuel seen frontier m
          else
            let seen := {[vertex current]} ∪ seen in
            let '(t, s) := m in
            let targets :=
              sorted_targets t (upEdgesNoCopy (g s) (vertex current)) in
            let frontier := frontier ++ at_depth (depth current + 1) targets in
            match f (vertex current) (depth current) (S t, s) with
            | (Some err, m) => Some (Some err, m)
            | (None, m) => SortedReverseDepthFirstWalk_loop fuel seen frontier m
            end
      end
  end.

Definition SortedReverseDepthFirstWalk (fuel : nat) (start : list Vertex)
    (m : nat * Heap) : option (option error * (nat * Heap)) :=
  SortedReverseDepthFirstWalk_loop fuel ∅ (at_depth 0 start) m.

End walks.

(** ** Descendants and Ancestors *)

(** The visitor of [Descendants] and [Ancestors]; the heap is the set [s]
    that the closure captures. *)
Definition memoFunc : DepthWalkFunc VertexSet :=
  λ v d '(t, s), (None, (t, Set_Add s v)).

Definition Descendants (fuel t : nat) (g : GraphBase) (v : Vertex)
    : option ((VertexSet + error) * nat) :=
  match DepthFirstWalk (λ _, g) memoFunc fuel (downEdgesNoCopy g v) (t, ∅) with
  | None => None
  | Some (Some err, (t, _)) => Some (inr err, t)
  | Some (None, (t, s)) => Some (inl s, t)
  end.

Definition Ancestors (fuel t : nat) (g : GraphBase) (v : Vertex)
    : option ((VertexSet + error) * nat) :=
  match ReverseDepthFirstWalk (λ _, g) memoFunc fuel (upEdgesNoCopy g v) (t, ∅) with
  | None => None
  | Some (Some err, (t, _)) => Some (inr err, t)
  | Some (None, (t, s)) => Some (inl s, t)
  end.

(** ** TransitiveReduction *)

(** The visitor of [TransitiveReduction] for the vertex [u]; the heap is
    the graph, which [RemoveEdge] changes in place.  [uTargets] is the
    adjacency map of [u] itself, not a copy, so the visitor sees in it the
    removals of its earlier calls: it is read from the current graph. *)
Definition TransitiveReduction_visit (u : Vertex) : DepthWalkFunc GraphBase :=
  λ v d '(t, g),
    let uTargets := downEdgesNoCopy g u in
    let '(shared, t) := Set_Intersection t uTargets (downEdgesNoCopy g v) in
    (None,
     (S t, foldl (λ g vPrime, RemoveEdge g (BasicEdge u vPrime)) g (range t shared))).

(** The body of the loop over the vertices: the walk from the direct
    successors of [u].  The error of the walk is dropped, as in the source. *)
Definition TransitiveReduction_body (fuel : nat) (m : option (nat * GraphBase))
    (u : Vertex) : option (nat * GraphBase) :=
  '(t, g) ← m;
  snd <$> DepthFirstWalk id (TransitiveReduction_visit u) fuel
            (downEdgesNoCopy g u) (t, g).

Definition TransitiveReduction (fuel t : nat) (g : GraphBase)
    : option (nat * GraphBase) :=
  let '(us, t) := Vertices t g in
  foldl (TransitiveReduction_body fuel) (Some (t, g)) us.

(** ** Marshal *)

Record MarshalOpts := {
  ConnectSubgraphHeads : bool;
  ConnectSubgraphTails : bool
}.

(** The two type assertions of [Marshal], for [HasSubgraph] and for a
    pointer to an [AcyclicGraph]: the nested graph of a vertex that wraps
    one.  A nested graph is an object of its
    own, which the rewiring of the outer graph does not reach. *)
Variable Subgraph : Vertex → option GraphBase.

(** The key ["root"] of the literal [Set{"root": subgraphRoot}]. *)
Variable root_key : Vertex.

(** What ends [Marshal] early: the fuel of the model, or [log.Fatalf]. *)
Inductive halted :=
| OutOfFuel
| Fatal (err : error).

(** The visitor of the walk over a nested graph; the heap is the outer
    graph and what has halted the run, if anything has. *)
Definition Marshal_visit (fuel : nat) (acyclicSubgraph : GraphBase)
    (edge : Vertex * Vertex) : DepthWalkFunc (GraphBase * option halted) :=
  λ downWalkVertex _ '(t, (ag, h)),
    match Descendants fuel t acyclicSubgraph downWalkVertex with
    | None => (Some (VisitorError "fuel"), (t, (ag, Some OutOfFuel)))
    | Some (inr err, t) => (Some err, (t, (ag, Some (Fatal err))))
    | Some (inl descendants, t) =>
        if decide (Set_Len descendants = 0)
        then (None, (t, (RemoveEdge (Connect ag (BasicEdge downWalkVertex edge.2)) edge, h)))
        else (None, (t, (ag, h)))
    end.

(** The [ConnectSubgraphHeads] block of the loop body. *)
Definition Marshal_heads (t : nat) (ag : GraphBase) (edge : Vertex * Vertex)
    : halted + nat * GraphBase :=
  let source := edge.1 in
  let target := edge.2 in
  match Subgraph target with
  | Some acyclicSubgraph =>
      match Root t acyclicSubgraph with
      | (inr err, _) => inl (Fatal err)
      | (inl subgraphRoot, t) =>
          inr (t, RemoveEdge (Connect ag (BasicEdge source subgraphRoot)) edge)
      end
  | None => inr (t, ag)
  end.

(** The [ConnectSubgraphTails] block of the loop body. *)
Definition Marshal_tails (fuel t : nat) (ag : GraphBase)
    (edge : Vertex * Vertex) : halted + nat * GraphBase :=
  let source := edge.1 in
  match Subgraph source with
  | Some acyclicSubgraph =>
      match Root t acyclicSubgraph with
      | (inr err, _) => inl (Fatal err)
      | (inl subgraphRoot, t) =>
          match DepthFirstWalk (λ _, acyclicSubgraph)
                  (Marshal_visit fuel acyclicSubgraph edge) fuel
                  {[root_key := subgraphRoot]} (t, (ag, None)) with
          | None => inl OutOfFuel
          | Some (_, (_, (_, Some h))) => inl h
          | Some (_, (t, (ag, None))) => inr (t, ag)
          end
      end
  | None => inr (t, ag)
  end.

(** The body of the loop over the edges. *)
Definition Marshal_edge (fuel : nat) (opts : MarshalOpts)
    (m : halted + nat * GraphBase) (edge : Vertex * Vertex)
    : halted + nat * GraphBase :=
  match m with
  | inl h => inl h
  | inr (t, ag) =>
      match (if ConnectSubgraphHeads opts then Marshal_heads t ag edge
             else inr (t, ag)) with
      | inl h => inl h
      | inr (t, ag) =>
          if ConnectSubgraphTails opts then Marshal_tails fuel t ag edge
          else inr (t, ag)
      end
  end.

(** [Marshal] up to the call of [GraphBase.Marshal]: the result is the
    rewired graph that is handed to the rendering collaborator. *)
Definition Marshal (fuel t : nat) (ag : GraphBase) (opts : MarshalOpts)
    : halted + nat * GraphBase :=
  let '(es, t) := Edges t ag in
  foldl (Marshal_edge fuel opts) (inr (t, ag)) es.

(** * Properties *)

(** A [range] enumerates every entry of the map once, in some order. *)
Hypothesis shuffle_perm : ∀ (A : Type) (t : nat) (l : list A), shuffle A t l ≡ₚ l.

(** Solvers that go through the whole context are run without the
    parameters of the package that the goal does not mention. *)
Ltac tidy :=
  try clear VertexName; try clear sort_Sort; try clear Subgraph; try clear root_key.

(** ** Sets *)

Lemma elem_of_range t (s : VertexSet) v : v ∈ range t s ↔ ∃ k, s !! k = Some v.
Proof.
  unfold range. rewrite shuffle_perm, list_elem_of_fmap. split.
  - intros [[k v'] [-> Hin]]. exists k. by apply elem_of_map_to_list.
  - intros [k Hk]. exists (k, v). split; [done|]. by apply elem_of_map_to_list.
Qed.

Lemma length_range t (s : VertexSet) : length (range t s) = size s.
Proof.
  unfold range. rewrite shuffle_perm, length_fmap. apply length_map_to_list.
Qed.

Lemma elem_of_at_depth d vs c :
  c ∈ at_depth d vs ↔ ∃ v, c = {| vertex := v; depth := d |} ∧ v ∈ vs.
Proof. unfold at_depth. apply list_elem_of_fmap. Qed.

(** A set built by [Set_Add] alone stores each vertex under its key. *)
Definition keyed (s : VertexSet) : Prop :=
  ∀ k v, s !! k = Some v → k = hashcode v.

Lemma NoDup_range t (s : VertexSet) : keyed s → NoDup (range t s).
Proof.
  intros Hs. unfold range. rewrite shuffle_perm.
  apply NoDup_fmap_2_strong; [|apply NoDup_map_to_list].
  intros [k1 v1] [k2 v2] H1%elem_of_map_to_list H2%elem_of_map_to_list Heq.
  simpl in Heq. subst v2. by rewrite (Hs _ _ H1), (Hs _ _ H2).
Qed.

Lemma keyed_empty : keyed ∅.
Proof. intros k v. by rewrite lookup_empty. Qed.

Lemma keyed_Add s v : keyed s → keyed (Set_Add s v).
Proof.
  intros Hs k w. unfold Set_Add. rewrite lookup_insert. case_decide.
  - by intros [= <-].
  - apply Hs.
Qed.

Lemma keyed_Delete s v : keyed s → keyed (Set_Delete s v).
Proof.
  intros Hs k w. unfold Set_Delete. rewrite lookup_delete. case_decide; [done|].
  apply Hs.
Qed.

Lemma Set_Include_true s v : Set_Include s v = true ↔ is_Some (s !! hashcode v).
Proof. unfold Set_Include. apply bool_decide_eq_true. Qed.

(** ** Root *)

(** A root of [g]: a vertex of [g] without incoming edges. *)
Definition is_root (g : GraphBase) (v : Vertex) : Prop :=
  (∃ k, vertices g !! k = Some v) ∧ Set_Len (upEdgesNoCopy g v) = 0.

Lemma singleton_of_NoDup {A : Type} (l : list A) (r : A) :
  NoDup l → (∀ x, x ∈ l ↔ x = r) → l = [r].
Proof.
  intros Hnd Hl. destruct l as [|a l].
  - exfalso. eapply not_elem_of_nil, Hl. done.
  - assert (a = r) as -> by (apply Hl; left).
    destruct l as [|b l]; [done|].
    assert (b = r) as -> by (apply Hl; right; left).
    apply NoDup_cons in Hnd as [Hnd _]. exfalso. apply Hnd. left.
Qed.

Lemma Root_roots t g :
  let roots := filter (λ v, Set_Len (upEdgesNoCopy g v) = 0) (Vertices t g).1 in
  (keyed (vertices g) → NoDup roots) ∧ ∀ v, v ∈ roots ↔ is_root g v.
Proof.
  simpl. split.
  - intros Hk. by apply NoDup_filter, NoDup_range.
  - intros v. rewrite list_elem_of_filter, elem_of_range. unfold is_root. tidy; tauto.
Qed.

(** C2. [Root] returns the vertex without incoming edges when there is
    exactly one; it fails with [NoRootsFound] when there is none, as in the
    empty graph; and it fails with [MultipleRoots], listing each vertex
    without incoming edges once, when there are several. *)
Theorem Root_contract (t : nat) (g : GraphBase) :
  keyed (vertices g) →
  (∀ r, is_root g r → (∀ v, is_root g v → v = r) → (Root t g).1 = inl r)
  ∧ ((∀ v, ¬ is_root g v) → (Root t g).1 = inr NoRootsFound)
  ∧ (∀ v w, is_root g v → is_root g w → v ≠ w →
       ∃ roots, (Root t g).1 = inr (MultipleRoots roots)
                ∧ NoDup roots ∧ ∀ x, x ∈ roots ↔ is_root g x).
Proof.
  intros Hk. destruct (Root_roots t g) as [Hnd Hin]. specialize (Hnd Hk).
  unfold Root. simpl in *.
  set (roots := filter _ _) in *. clearbody roots.
  split; [|split].
  - intros r Hr Huniq.
    rewrite (singleton_of_NoDup roots r); [done|done|].
    intros x. rewrite Hin. split; [apply Huniq|by intros ->].
  - intros Hnone. destruct roots as [|a l]; [done|].
    exfalso. apply (Hnone a), Hin. left.
  - intros v w Hv Hw Hne. exists roots.
    apply (proj2 (Hin v)) in Hv. apply (proj2 (Hin w)) in Hw.
    destruct roots as [|a [|b l]].
    + by apply not_elem_of_nil in Hv.
    + apply list_elem_of_singleton in Hv, Hw. congruence.
    + split; [|done]. destruct (decide _) as [|Hn]; [done|].
      exfalso. apply Hn. simpl. lia.
Qed.

(** ** The shape that the stack walks share

    Each of the four stack walks pops an entry, skips it when its dedup key
    has been seen, and otherwise runs a step: the visitor and the expansion
    of the adjacency, in one order or the other. *)

Section stack_walk.
Context {Heap : Type}.
Variable g : Heap → GraphBase.
Variable f : DepthWalkFunc Heap.

Definition walk_step : Type :=
  vertexAtDepth → nat * Heap → option error * list Vertex * (nat * Heap).

(** Visit, then expand the adjacency read from the graph that the visitor
    left. *)
Definition expand_after (adj : GraphBase → Vertex → VertexSet)
    (order : list Vertex → list Vertex) : walk_step :=
  λ current m,
    match f (vertex current) (depth current) m with
    | (Some err, m) => (Some err, [], m)
    | (None, (t, s)) =>
        (None, order (range t (adj (g s) (vertex current))), (S t, s))
    end.

(** Expand, then visit. *)
Definition expand_before (adj : GraphBase → Vertex → VertexSet)
    (order : list Vertex → list Vertex) : walk_step :=
  λ current '(t, s),
    let targets := order (range t (adj (g s) (vertex current))) in
    let '(e, m) := f (vertex current) (depth current) (S t, s) in
    (e, targets, m).

Fixpoint walk_loop (key : Vertex → Vertex) (step : walk_step) (fuel : nat)
    (seen : gset Vertex) (frontier : list vertexAtDepth) (m : nat * Heap)
    : option (option error * (nat * Heap)) :=
  match fuel with
  | 0 => None
  | S fuel =>
      match unsnoc frontier with
      | None => Some (None, m)
      | Some (frontier, current) =>
          if decide (key (vertex current) ∈ seen)
          then walk_loop key step fuel seen frontier m
          else
            match step current m with
            | (Some err, _, m) => Some (Some err, m)
            | (None, targets, m) =>
                walk_loop key step fuel ({[key (vertex current)]} ∪ seen)
                  (frontier ++ at_depth (depth current + 1) targets) m
            end
      end
  end.

Lemma DepthFirstWalk_loop_walk fuel seen frontier m :
  DepthFirstWalk_loop g f fuel seen frontier m
  = walk_loop hashcode (expand_after downEdgesNoCopy id) fuel seen frontier m.
Proof.
  revert seen frontier m. induction fuel as [|fuel IH]; intros; [done|].
  simpl. destruct (unsnoc frontier) as [[fr cur]|]; [|done].
  case_decide; [apply IH|]. unfold expand_after.
  destruct (f _ _ m) as [[err|] [t s]]; [done|]. apply IH.
Qed.

Lemma SortedDepthFirstWalk_loop_walk fuel seen frontier m :
  SortedDepthFirstWalk_loop g f fuel seen frontier m
  = walk_loop id (expand_after downEdgesNoCopy sort_Sort) fuel seen frontier m.
Proof.
  revert seen frontier m. induction fuel as [|fuel IH]; intros; [done|].
  simpl. destruct (unsnoc frontier) as [[fr cur]|]; [|done].
  case_decide; [apply IH|]. unfold expand_after.
  destruct (f _ _ m) as [[err|] [t s]]; [done|]. apply IH.
Qed.

Lemma ReverseDepthFirstWalk_loop_walk fuel seen frontier m :
  ReverseDepthFirstWalk_loop g f fuel seen frontier m
  = walk_loop id (expand_before upEdgesNoCopy id) fuel seen frontier m.
Proof.
  revert seen frontier m. induction fuel as [|fuel IH]; intros; [done|].
  simpl. destruct (unsnoc frontier) as [[fr cur]|]; [|done].
  case_decide; [apply IH|]. unfold expand_before. destruct m as [t s].
  destruct (f _ _ _) as [[err|] m']; [done|]. apply IH.
Qed.

Lemma SortedReverseDepthFirstWalk_loop_walk fuel seen frontier m :
  SortedReverseDepthFirstWalk_loop g f fuel seen frontier m
  = walk_loop id (expand_before upEdgesNoCopy sort_Sort) fuel seen frontier m.
Proof.
  revert seen frontier m. induction fuel as [|fuel IH]; intros; [done|].
  simpl. destruct (unsnoc frontier) as [[fr cur]|]; [|done].
  case_decide; [apply IH|]. unfold expand_before. destruct m as [t s].
  destruct (f _ _ _) as [[err|] m']; [done|]. apply IH.
Qed.

End stack_walk.

(** ** Reasoning about a stack walk *)

Lemma unsnoc_snoc {A : Type} (r : list A) (x : A) : unsnoc (r ++ [x]) = Some (r, x).
Proof. induction r as [|a r IH]; simpl; [done|]. by rewrite IH. Qed.

Lemma unsnoc_Some {A : Type} (l r : list A) (x : A) :
  unsnoc l = Some (r, x) ↔ l = r ++ [x].
Proof.
  split; [|intros ->; apply unsnoc_snoc].
  destruct l as [|a l] using rev_ind; [done|].
  rewrite unsnoc_snoc. by intros [= -> ->].
Qed.

Lemma unsnoc_None {A : Type} (l : list A) : unsnoc l = None ↔ l = [].
Proof.
  destruct l as [|a l]; simpl; [done|].
  by destruct (unsnoc l) as [[??]|].
Qed.

Section walk_rules.
Context {Heap : Type}.
Variable key : Vertex → Vertex.
Variable step : @walk_step Heap.

(** The loop rule: an invariant [P] of the loop head gives [Q] of the
    result, whenever there is one. *)
Lemma walk_loop_rule
    (P : gset Vertex → list vertexAtDepth → nat * Heap → Prop)
    (Q : option error → nat * Heap → Prop) :
  (∀ seen m, P seen [] m → Q None m) →
  (∀ seen fr c m, P seen (fr ++ [c]) m → key (vertex c) ∈ seen → P seen fr m) →
  (∀ seen fr c m, P seen (fr ++ [c]) m → key (vertex c) ∉ seen →
     match step c m with
     | (Some err, _, m') => Q (Some err) m'
     | (None, targets, m') =>
         P ({[key (vertex c)]} ∪ seen) (fr ++ at_depth (depth c + 1) targets) m'
     end) →
  ∀ fuel seen fr m r,
    P seen fr m → walk_loop key step fuel seen fr m = Some r → Q r.1 r.2.
Proof.
  intros Hend Hskip Hstep fuel.
  induction fuel as [|fuel IH]; intros seen fr m r HP Hr; [done|].
  simpl in Hr. destruct (unsnoc fr) as [[fr' c]|] eqn:Hfr.
  - apply unsnoc_Some in Hfr as ->. case_decide as Hseen.
    + exact (IH _ _ _ _ (Hskip _ _ _ _ HP Hseen) Hr).
    + specialize (Hstep _ _ _ _ HP Hseen).
      destruct (step c m) as [[[err|] targets] m'].
      * by simplify_eq/=.
      * exact (IH _ _ _ _ Hstep Hr).
  - apply unsnoc_None in Hfr as ->. simplify_eq/=. exact (Hend _ _ HP).
Qed.

(** Termination: when the vertices that can enter the frontier satisfy
    [U], their keys lie in a finite set [K], and no expansion pushes more
    than [D] of them, the loop ends within the fuel that [walk_measure]
    gives. *)
Variable Inv : nat * Heap → Prop.
Variable U : Vertex → Prop.
Variable K : gset Vertex.
Variable D : nat.

Hypothesis key_bound : ∀ x, U x → key x ∈ K.

Hypothesis step_bound : ∀ c m,
  Inv m → U (vertex c) →
  Inv (step c m).2
  ∧ ((step c m).1.1 = None →
     (∀ x, x ∈ (step c m).1.2 → U x) ∧ length (step c m).1.2 ≤ D).

Definition walk_measure (seen : gset Vertex) (frontier : list vertexAtDepth) : nat :=
  length frontier + size (K ∖ seen) * (D + 1).

Lemma walk_loop_terminates fuel seen frontier m :
  Inv m → (∀ c, c ∈ frontier → U (vertex c)) →
  walk_measure seen frontier < fuel →
  ∃ r, walk_loop key step fuel seen frontier m = Some r ∧ Inv r.2.
Proof.
  revert seen frontier m. induction fuel as [|fuel IH]; intros seen fr m HI HU Hfuel; [lia|].
  simpl. destruct (unsnoc fr) as [[fr' c]|] eqn:Hfr; [|by eexists].
  apply unsnoc_Some in Hfr as ->.
  assert (∀ c', c' ∈ fr' → U (vertex c')) as HU'.
  { intros c' Hc'. apply HU, elem_of_app. by left. }
  assert (U (vertex c)) as Hc.
  { apply HU, elem_of_app. right. by apply list_elem_of_singleton. }
  unfold walk_measure in *. rewrite length_app in Hfuel. simpl in Hfuel.
  case_decide as Hseen.
  - apply IH; [done|done|]. lia.
  - destruct (step_bound c m HI Hc) as [HI' Hb].
    destruct (step c m) as [[[err|] targets] m'] eqn:Hs; simpl in *.
    { by eexists. }
    destruct (Hb eq_refl) as [HtU Hlen].
    apply IH; [done| |].
    + intros c' [Hc'|Hc']%elem_of_app; [by apply HU'|].
      unfold at_depth in Hc'. apply list_elem_of_fmap in Hc' as (x & -> & Hx).
      by apply HtU.
    + rewrite length_app. unfold at_depth. rewrite length_fmap.
      assert (size (K ∖ ({[key (vertex c)]} ∪ seen)) < size (K ∖ seen)) as Hsz.
      { apply subset_size. split; [(tidy; set_solver)|]. intros Hsub.
        assert (key (vertex c) ∈ K ∖ seen) as Hin.
        { apply elem_of_difference. split; [|done]. by apply key_bound. }
        apply Hsub in Hin. tidy; set_solver. }
      tidy; nia.
Qed.

End walk_rules.

(** ** Reasoning about the breadth-first walk *)

Section breadth_rules.
Context {Heap : Type}.
Variable g : Heap → GraphBase.
Variable f : DepthWalkFunc Heap.

(** The rule of the inner loop: [P] is an invariant of its head, over what
    is left of the level, the seen set, what has been appended and the
    state; [Q] holds of its result. *)
Lemma BreadthFirstWalk_level_rule
    (P : list vertexAtDepth → gset Vertex → list vertexAtDepth → nat * Heap → Prop)
    (Q : option error → gset Vertex → list vertexAtDepth → nat * Heap → Prop) :
  (∀ seen app m, P [] seen app m → Q None seen app m) →
  (∀ c lv seen app m,
     P (c :: lv) seen app m → hashcode (vertex c) ∈ seen → P lv seen app m) →
  (∀ c lv seen app m,
     P (c :: lv) seen app m → hashcode (vertex c) ∉ seen →
     match f (vertex c) (depth c) m with
     | (Some err, m') => Q (Some err) ({[hashcode (vertex c)]} ∪ seen) app m'
     | (None, (t, s)) =>
         P lv ({[hashcode (vertex c)]} ∪ seen)
           (app ++ at_depth (depth c + 1) (range t (downEdgesNoCopy (g s) (vertex c))))
           (S t, s)
     end) →
  ∀ lv seen app m,
    P lv seen app m →
    Q (BreadthFirstWalk_level g f lv seen app m).1.1.1
      (BreadthFirstWalk_level g f lv seen app m).1.1.2
      (BreadthFirstWalk_level g f lv seen app m).1.2
      (BreadthFirstWalk_level g f lv seen app m).2.
Proof.
  intros Hend Hskip Hstep lv.
  induction lv as [|c lv IH]; intros seen app m HP; simpl.
  - exact (Hend _ _ _ HP).
  - case_decide as Hc.
    + exact (IH _ _ _ (Hskip _ _ _ _ _ HP Hc)).
    + specialize (Hstep _ _ _ _ _ HP Hc).
      destruct (f (vertex c) (depth c) m) as [[err|] [t s]]; [done|].
      exact (IH _ _ _ Hstep).
Qed.

(** The rule of the outer loop: [P] is an invariant of its head. *)
Lemma BreadthFirstWalk_loop_rule
    (P : gset Vertex → list vertexAtDepth → nat * Heap → Prop)
    (Q : option error → nat * Heap → Prop) :
  (∀ seen m, P seen [] m → Q None m) →
  (∀ seen fr m,
     P seen fr m → fr ≠ [] →
     match BreadthFirstWalk_level g f fr seen [] m with
     | (Some err, _, _, m') => Q (Some err) m'
     | (None, seen', fr', m') => P seen' fr' m'
     end) →
  ∀ fuel seen fr m r,
    P seen fr m → BreadthFirstWalk_loop g f fuel seen fr m = Some r → Q r.1 r.2.
Proof.
  intros Hend Hlevel fuel.
  induction fuel as [|fuel IH]; intros seen fr m r HP Hr; [done|].
  simpl in Hr. destruct fr as [|c fr].
  - simplify_eq/=. exact (Hend _ _ HP).
  - specialize (Hlevel _ _ _ HP). 
    destruct (BreadthFirstWalk_level g f (c :: fr) seen [] m)
      as [[[[err|] seen'] fr'] m'].
    + simplify_eq/=. by apply Hlevel.
    + exact (IH _ _ _ _ (Hlevel ltac:(done)) Hr).
Qed.

End breadth_rules.

(** ** A walk over a graph that the visitor leaves alone *)

(** The visitor [f] with a record of its invocations: the heap of [f] and
    the list of the vertices and depths that it has been called with. *)
Definition traced {A : Type} (f : DepthWalkFunc A)
    : DepthWalkFunc (A * list (Vertex * nat)) :=
  λ v d '(t, (a, log)),
    let '(e, (t, a)) := f v d (t, a) in
    (e, (t, (a, log ++ [(v, d)]))).

(** The vertices stored in an adjacency map. *)
Definition adj_values (adj : gmap Vertex VertexSet) : list Vertex :=
  (map_to_list adj).*2 ≫= (λ s, (map_to_list s).*2).

Definition graph_values (g : GraphBase) : list Vertex :=
  adj_values (downEdges g) ++ adj_values (upEdges g).

(** Fuel that is enough for a walk of [g] from [n] start vertices. *)
Definition enough_fuel (g : GraphBase) (n : nat) : nat :=
  (length (graph_values g) + n + 2) * (length (graph_values g) + 2).

Lemma elem_of_adj_values adj k (s : VertexSet) k' v :
  adj !! k = Some s → s !! k' = Some v → v ∈ adj_values adj.
Proof.
  intros Hs Hv. unfold adj_values. apply list_elem_of_bind. exists s. split.
  - apply list_elem_of_fmap. exists (k', v). split; [done|].
    by apply elem_of_map_to_list.
  - apply list_elem_of_fmap. exists (k, s). split; [done|].
    by apply elem_of_map_to_list.
Qed.

Lemma length_bind_elem {A B : Type} (h : A → list B) (l : list A) (x : A) :
  x ∈ l → length (h x) ≤ length (l ≫= h).
Proof.
  induction l as [|a l IH]; [by intros ?%not_elem_of_nil|].
  rewrite bind_cons, length_app. intros [->|Hx]%elem_of_cons; [lia|].
  specialize (IH Hx). lia.
Qed.

Lemma size_adj_values adj k (s : VertexSet) :
  adj !! k = Some s → size s ≤ length (adj_values adj).
Proof.
  intros Hs. rewrite <-length_map_to_list, <-(length_fmap snd).
  unfold adj_values. apply (length_bind_elem (λ s, (map_to_list s).*2)).
  apply list_elem_of_fmap. exists (k, s). split; [done|].
  by apply elem_of_map_to_list.
Qed.

Lemma size_list_to_set_le (l : list Vertex) :
  size (list_to_set (C:=gset Vertex) l) ≤ length l.
Proof.
  induction l as [|a l IH]; simpl.
  - done.
  - rewrite size_union_alt, size_singleton.
    assert (size (list_to_set (C:=gset Vertex) l ∖ {[a]})
            ≤ size (list_to_set (C:=gset Vertex) l)).
    { apply subseteq_size. tidy; set_solver. }
    lia.
Qed.

Section fixed_graph.
Variable g0 : GraphBase.

(** The adjacency sets that a walk reads are sets of the graph. *)
Definition adj_of_graph (adj : GraphBase → Vertex → VertexSet) : Prop :=
  ∀ v, (∀ k w, adj g0 v !! k = Some w → w ∈ graph_values g0)
       ∧ size (adj g0 v) ≤ length (graph_values g0).

Lemma downEdgesNoCopy_of_graph : adj_of_graph downEdgesNoCopy.
Proof.
  intros v. unfold downEdgesNoCopy, graph_values.
  destruct (downEdges g0 !! hashcode v) as [s|] eqn:Hs; simpl.
  - split.
    + intros k w Hw. apply elem_of_app. left. by eapply elem_of_adj_values.
    + rewrite length_app. apply size_adj_values in Hs. lia.
  - split; [intros k w; by rewrite lookup_empty|]. rewrite map_size_empty. lia.
Qed.

Lemma upEdgesNoCopy_of_graph : adj_of_graph upEdgesNoCopy.
Proof.
  intros v. unfold upEdgesNoCopy, graph_values.
  destruct (upEdges g0 !! hashcode v) as [s|] eqn:Hs; simpl.
  - split.
    + intros k w Hw. apply elem_of_app. right. by eapply elem_of_adj_values.
    + rewrite length_app. apply size_adj_values in Hs. lia.
  - split; [intros k w; by rewrite lookup_empty|]. rewrite map_size_empty. lia.
Qed.

(** *** Termination, for any visitor *)

Section fixed_any.
Context {Heap : Type}.
Variable f : DepthWalkFunc Heap.

(** A step over the fixed graph [g0] pushes the adjacency of its vertex. *)
Definition fixed_targets (adj : GraphBase → Vertex → VertexSet)
    (order : list Vertex → list Vertex) (step : @walk_step Heap) : Prop :=
  ∀ c m, (step c m).1.1 = None →
         ∃ t0, (step c m).1.2 = order (range t0 (adj g0 (vertex c))).

Lemma expand_after_targets adj order :
  fixed_targets adj order (expand_after (λ _, g0) f adj order).
Proof.
  intros c m. unfold expand_after.
  destruct (f _ _ _) as [[err|] [t' a']]; simpl; [done|]. eauto.
Qed.

Lemma expand_before_targets adj order :
  fixed_targets adj order (expand_before (λ _, g0) f adj order).
Proof.
  intros c [t s]. unfold expand_before.
  destruct (f _ _ _) as [e m']; simpl. eauto.
Qed.

Lemma fixed_walk_terminates key step adj order fuel frontier m :
  fixed_targets adj order step → adj_of_graph adj → (∀ l, order l ≡ₚ l) →
  enough_fuel g0 (length frontier) ≤ fuel →
  is_Some (walk_loop key step fuel ∅ frontier m).
Proof.
  intros step_fixed adj_graph order_perm Hfuel.
  set (vs := graph_values g0 ++ (vertex <$> frontier)).
  destruct (walk_loop_terminates key step (λ _, True) (λ x, x ∈ vs)
              (list_to_set (key <$> vs)) (length (graph_values g0)))
    with (fuel := fuel) (seen := (∅ : gset Vertex)) (frontier := frontier) (m := m)
    as (r & Hr & _).
  - intros x Hx. apply elem_of_list_to_set. by apply list_elem_of_fmap_2.
  - intros c m' _ Hc. split; [done|]. intros He.
    destruct (step_fixed c m' He) as [t0 ->].
    destruct (adj_graph (vertex c)) as [Hin Hsz]. split.
    + intros x. rewrite order_perm. intros (k & Hk)%elem_of_range.
      apply elem_of_app. left. by eapply Hin.
    + by rewrite order_perm, length_range.
  - done.
  - intros c Hc. apply elem_of_app. right. by apply list_elem_of_fmap_2.
  - unfold walk_measure, enough_fuel in *.
    assert (size (list_to_set (C:=gset Vertex) (key <$> vs) ∖ ∅)
            ≤ length (graph_values g0) + length frontier) as Hsz.
    { trans (size (list_to_set (C:=gset Vertex) (key <$> vs))).
      { apply subseteq_size, subseteq_difference_l. done. }
      etrans; [apply size_list_to_set_le|].
      unfold vs. by rewrite length_fmap, length_app, length_fmap. }
    tidy; nia.
  - by rewrite Hr.
Qed.

Section fixed_breadth.
Variable frontier0 : list vertexAtDepth.

Let vs : list Vertex := graph_values g0 ++ (vertex <$> frontier0).
Let K : gset Vertex := list_to_set (hashcode <$> vs).

Lemma fixed_level_bound lv seen0 m :
  (∀ c, c ∈ lv → vertex c ∈ vs) →
  let r := BreadthFirstWalk_level (λ _, g0) f lv seen0 [] m in
  seen0 ⊆ r.1.1.2 ∧ r.1.1.2 ⊆ seen0 ∪ K
  ∧ (∀ c, c ∈ r.1.2 → vertex c ∈ vs)
  ∧ (r.1.1.2 = seen0 → r.1.2 = []).
Proof.
  intros Hlv.
  refine (BreadthFirstWalk_level_rule (λ _, g0) f
    (λ lv seen app _,
       (∀ c, c ∈ lv → vertex c ∈ vs)
       ∧ seen0 ⊆ seen ∧ seen ⊆ seen0 ∪ K
       ∧ (∀ c, c ∈ app → vertex c ∈ vs) ∧ (seen = seen0 → app = []))
    (λ _ seen app _,
       seen0 ⊆ seen ∧ seen ⊆ seen0 ∪ K
       ∧ (∀ c, c ∈ app → vertex c ∈ vs) ∧ (seen = seen0 → app = []))
    _ _ _ lv seen0 [] m _).
  - by intros seen app m' (_ & ? & ? & ? & ?).
  - intros c lv' seen app m' (Hl & ? & ? & ? & ?) _. split; [|done].
    intros c' Hc'. apply Hl. by right.
  - intros c lv' seen app m' (Hl & Hs1 & Hs2 & Happ & Hsame) Hc.
    assert (hashcode (vertex c) ∈ K) as HcK.
    { apply elem_of_list_to_set, list_elem_of_fmap_2, Hl. by left. }
    assert (seen0 ⊆ {[hashcode (vertex c)]} ∪ seen) as Hs1'.
    { clear -Hs1. tidy; set_solver. }
    assert ({[hashcode (vertex c)]} ∪ seen ⊆ seen0 ∪ K) as Hs2'.
    { clear -Hs2 HcK. clearbody K. set_solver. }
    assert ({[hashcode (vertex c)]} ∪ seen ≠ seen0) as Hne.
    { clear -Hs1 Hc. tidy; set_solver. }
    destruct (f (vertex c) (depth c) m') as [[err|] [t s]]; [done|].
    split; [intros c' Hc'; apply Hl; by right|].
    split; [done|]. split; [done|]. split; [|done].
    intros c' [Hc'|Hc']%elem_of_app; [by apply Happ|].
    unfold at_depth in Hc'. apply list_elem_of_fmap in Hc' as (x & -> & Hx).
    simpl. apply elem_of_range in Hx as [k Hk].
    apply elem_of_app. left. by eapply downEdgesNoCopy_of_graph.
  - split; [done|]. split; [done|]. split; [apply union_subseteq_l|].
    split; [|done]. by intros c ?%not_elem_of_nil.
Qed.

Lemma fixed_breadth_terminates_aux fuel seen fr m :
  (∀ c, c ∈ fr → vertex c ∈ vs) →
  2 * size (K ∖ seen) + 1 < fuel →
  is_Some (BreadthFirstWalk_loop (λ _, g0) f fuel seen fr m).
Proof.
  revert seen fr m. induction fuel as [|fuel IH]; intros seen fr m Hfr Hfuel; [lia|].
  simpl. destruct fr as [|c fr]; [done|].
  destruct (fixed_level_bound (c :: fr) seen m Hfr) as (Hs1 & Hs2 & Happ & Hsame).
  destruct (BreadthFirstWalk_level _ _ (c :: fr) seen [] m)
    as [[[[err|] seen'] fr'] m']; [done|]. simpl in *.
  destruct (decide (seen' = seen)) as [->|Hne].
  - rewrite (Hsame eq_refl). destruct fuel; [lia|]. done.
  - apply IH; [done|].
    assert (size (K ∖ seen') < size (K ∖ seen)); [|lia].
    clear -Hs1 Hs2 Hne. clearbody K.
    apply subset_size. split.
    { intros x [? ?]%elem_of_difference. apply elem_of_difference. split; auto. }
    intros Hsub. apply Hne, (anti_symm (⊆)); [|done].
    intros x Hx. destruct (decide (x ∈ seen)) as [|Hn]; [done|].
    pose proof (Hs2 x Hx) as [?|HK]%elem_of_union; [done|].
    assert (x ∈ K ∖ seen') as [_ ?]%elem_of_difference; [|done].
    apply Hsub, elem_of_difference. done.
Qed.

Lemma fixed_breadth_terminates fuel m :
  enough_fuel g0 (length frontier0) ≤ fuel →
  is_Some (BreadthFirstWalk_loop (λ _, g0) f fuel ∅ frontier0 m).
Proof.
  intros Hfuel. apply fixed_breadth_terminates_aux.
  - intros c Hc. apply elem_of_app. right. by apply list_elem_of_fmap_2.
  - unfold enough_fuel in Hfuel.
    assert (size (K ∖ ∅) ≤ length (graph_values g0) + length frontier0) as Hsz.
    { trans (size K); [apply subseteq_size, subseteq_difference_l; done|].
      etrans; [apply size_list_to_set_le|].
      unfold vs. by rewrite length_fmap, length_app, length_fmap. }
    tidy; nia.
Qed.

End fixed_breadth.

(** A visitor that never fails gives a walk that never fails. *)
Lemma walk_loop_no_error key step fuel seen frontier m r :
  (∀ c m, (step c m).1.1 = None) →
  walk_loop (Heap:=Heap) key step fuel seen frontier m = Some r → r.1 = None.
Proof.
  intros Hstep Hr.
  refine (walk_loop_rule key step (λ _ _ _, True) (λ e _, e = None)
            _ _ _ fuel seen frontier m r I Hr); [done..|].
  intros seen' fr c m' _ _. specialize (Hstep c m').
  by destruct (step c m') as [[[err|] targets] m''].
Qed.

End fixed_any.

(** *** The record of a traced visitor *)

Section fixed_traced.
Context {A : Type}.
Variable f : DepthWalkFunc A.

Definition log_of (m : nat * (A * list (Vertex * nat))) : list (Vertex * nat) :=
  m.2.2.

Lemma traced_log v d (m : nat * (A * list (Vertex * nat))) :
  log_of (traced f v d m).2 = log_of m ++ [(v, d)].
Proof.
  destruct m as [t [a log]]. unfold traced, log_of.
  by destruct (f v d (t, a)) as [e [t' a']].
Qed.

(** A step that runs the traced visitor records the vertex it is run on. *)
Definition logging (step : @walk_step (A * list (Vertex * nat))) : Prop :=
  ∀ c m, log_of (step c m).2 = log_of m ++ [(vertex c, depth c)].

Lemma expand_after_logging g adj order :
  logging (expand_after g (traced f) adj order).
Proof.
  intros c m. unfold expand_after.
  pose proof (traced_log (vertex c) (depth c) m) as Hl.
  by destruct (traced f _ _ m) as [[err|] [t' a']].
Qed.

Lemma expand_before_logging g adj order :
  logging (expand_before g (traced f) adj order).
Proof.
  intros c [t s]. unfold expand_before.
  pose proof (traced_log (vertex c) (depth c) (S t, s)) as Hl.
  by destruct (traced f _ _ _) as [e m'].
Qed.

Section fixed_walk.
Variable key : Vertex → Vertex.
Variable step : @walk_step (A * list (Vertex * nat)).
Hypothesis step_logging : logging step.

(** No dedup key is visited twice. *)
Lemma fixed_walk_NoDup fuel frontier m r :
  log_of m = [] →
  walk_loop key step fuel ∅ frontier m = Some r →
  NoDup (key <$> (log_of r.2).*1).
Proof.
  intros Hlog Hr.
  refine (walk_loop_rule key step
    (λ seen _ m, NoDup (key <$> (log_of m).*1)
                 ∧ ∀ x, x ∈ key <$> (log_of m).*1 → x ∈ seen)
    (λ _ m, NoDup (key <$> (log_of m).*1)) _ _ _ fuel ∅ frontier m r _ Hr).
  - by intros seen m' [??].
  - by intros seen fr c m' [??] _.
  - intros seen fr c m' [Hnd Hin] Hc.
    pose proof (step_logging c m') as Hl.
    assert (NoDup (key <$> (log_of (step c m').2).*1)
            ∧ ∀ x, x ∈ key <$> (log_of (step c m').2).*1
                   → x ∈ {[key (vertex c)]} ∪ seen) as [??].
    { rewrite Hl, !fmap_app. simpl. split.
      - apply NoDup_app. split; [done|]. split; [|apply NoDup_singleton].
        intros x Hx ->%list_elem_of_singleton. by apply Hc, Hin.
      - intros x [Hx|Hx%list_elem_of_singleton]%elem_of_app; tidy; set_solver. }
    by destruct (step c m') as [[[err|] targets] m''].
  - rewrite Hlog. split; [constructor|]. by intros x ?%not_elem_of_nil.
Qed.

(** A walk that ends without an error has visited the key of every start
    vertex. *)
Lemma fixed_walk_visits_start fuel frontier m r :
  walk_loop key step fuel ∅ frontier m = Some r →
  r.1 = None →
  ∀ c, c ∈ frontier → key (vertex c) ∈ key <$> (log_of r.2).*1.
Proof.
  intros Hr.
  refine (walk_loop_rule key step
    (λ seen fr m, (∀ x, x ∈ seen → x ∈ key <$> (log_of m).*1)
                  ∧ ∀ c, c ∈ frontier → key (vertex c) ∈ seen ∨ c ∈ fr)
    (λ e m, e = None →
            ∀ c, c ∈ frontier → key (vertex c) ∈ key <$> (log_of m).*1)
    _ _ _ fuel ∅ frontier m r _ Hr).
  - intros seen m' [Hseen Hfr] _ c Hc. apply Hseen.
    destruct (Hfr c Hc) as [|?%not_elem_of_nil]; done.
  - intros seen fr c m' [Hseen Hfr] Hc. split; [done|]. intros c' Hc'.
    destruct (Hfr c' Hc') as [|[|Heq%list_elem_of_singleton]%elem_of_app];
      subst; auto.
  - intros seen fr c m' [Hseen Hfr] Hc.
    pose proof (step_logging c m') as Hl.
    destruct (step c m') as [[[err|] targets] m'']; [done|]. simpl in *. split.
    + intros x Hx. rewrite Hl, !fmap_app. apply elem_of_app.
      apply elem_of_union in Hx as [Hx%elem_of_singleton|Hx]; subst.
      * right. by apply list_elem_of_singleton.
      * left. by apply Hseen.
    + intros c' Hc'.
      destruct (Hfr c' Hc') as [|[|Heq%list_elem_of_singleton]%elem_of_app];
        subst.
      * left. tidy; set_solver.
      * right. apply elem_of_app. by left.
      * left. tidy; set_solver.
  - split; [by intros x ?%not_elem_of_empty|]. auto.
Qed.

End fixed_walk.

Lemma breadth_NoDup g fuel frontier m r :
  log_of m = [] →
  BreadthFirstWalk_loop g (traced f) fuel ∅ frontier m = Some r →
  NoDup (hashcode <$> (log_of r.2).*1).
Proof.
  intros Hlog Hr.
  set (P := λ (seen : gset Vertex) (m : nat * (A * list (Vertex * nat))),
         NoDup (hashcode <$> (log_of m).*1)
         ∧ ∀ x, x ∈ hashcode <$> (log_of m).*1 → x ∈ seen).
  refine (BreadthFirstWalk_loop_rule g (traced f)
    (λ seen _ m, P seen m) (λ _ m, NoDup (hashcode <$> (log_of m).*1))
    _ _ fuel ∅ frontier m r _ Hr).
  - by intros seen m' [??].
  - intros seen fr m' HP _.
    pose proof (BreadthFirstWalk_level_rule g (traced f)
      (λ _ seen _ m, P seen m) (λ _ seen _ m, P seen m)) as Hrule.
    specialize (Hrule ltac:(done) ltac:(done)).
    lapply Hrule.
    + intros Hlv. specialize (Hlv fr seen [] m' HP).
      destruct (BreadthFirstWalk_level _ _ fr seen [] m')
        as [[[[err|] seen'] fr'] m'']; [apply Hlv|done].
    + clear. intros c lv seen app m [Hnd Hin] Hc.
      pose proof (traced_log (vertex c) (depth c) m) as Hl.
      assert (P ({[hashcode (vertex c)]} ∪ seen) (traced f (vertex c) (depth c) m).2)
        as HP.
      { unfold P. rewrite Hl, !fmap_app. simpl. split.
        - apply NoDup_app. split; [done|]. split; [|apply NoDup_singleton].
          intros x Hx ->%list_elem_of_singleton. by apply Hc, Hin.
        - intros x [Hx|Hx%list_elem_of_singleton]%elem_of_app; tidy; set_solver. }
      destruct (traced f (vertex c) (depth c) m) as [[err|] [t s]]; [done|].
      split; [apply HP|]. intros x Hx. by apply HP.
  - unfold P. rewrite Hlog. split; [constructor|]. by intros x ?%not_elem_of_nil.
Qed.

End fixed_traced.

End fixed_graph.

(** ** Termination and single visits *)

Lemma length_at_depth d vs : length (at_depth d vs) = length vs.
Proof. unfold at_depth. apply length_fmap. Qed.

Lemma enough_fuel_mono g n n' : n ≤ n' → enough_fuel g n ≤ enough_fuel g n'.
Proof. unfold enough_fuel. tidy; nia. Qed.

Lemma memoFunc_no_error v d m : (memoFunc v d m).1 = None.
Proof. by destruct m. Qed.

Lemma Descendants_fuel_bound (g : GraphBase) (v : Vertex) t :
  enough_fuel g (length (at_depth 0 (range t (downEdgesNoCopy g v))))
  ≤ enough_fuel g (length (graph_values g)).
Proof.
  apply enough_fuel_mono. rewrite length_at_depth, length_range.
  apply downEdgesNoCopy_of_graph.
Qed.

Lemma Ancestors_fuel_bound (g : GraphBase) (v : Vertex) t :
  enough_fuel g (length (at_depth 0 (range t (upEdgesNoCopy g v))))
  ≤ enough_fuel g (length (graph_values g)).
Proof.
  apply enough_fuel_mono. rewrite length_at_depth, length_range.
  apply upEdgesNoCopy_of_graph.
Qed.

(** C10. [Descendants] and [Ancestors] return, and the error they return
    is nil: the visitor that fills the set never fails, and the walks have
    no failure of their own. *)
Theorem Descendants_Ancestors_nil_error (g : GraphBase) (v : Vertex)
    (t fuel : nat) :
  enough_fuel g (length (graph_values g)) ≤ fuel →
  (∃ s t', Descendants fuel t g v = Some (inl s, t'))
  ∧ (∃ s t', Ancestors fuel t g v = Some (inl s, t')).
Proof.
  intros Hfuel. split.
  - unfold Descendants, DepthFirstWalk. rewrite DepthFirstWalk_loop_walk.
    destruct (fixed_walk_terminates g hashcode
                (expand_after (λ _, g) memoFunc downEdgesNoCopy id)
                downEdgesNoCopy id fuel
                (at_depth 0 (range t (downEdgesNoCopy g v))) (S t, ∅)) as [r Hr];
      [apply expand_after_targets|apply downEdgesNoCopy_of_graph|done
      |etrans; [apply Descendants_fuel_bound|exact Hfuel]|].
    rewrite Hr. apply walk_loop_no_error in Hr.
    + destruct r as [[err|] [t' s]]; [done|]. eauto.
    + intros c m. unfold expand_after.
      pose proof (memoFunc_no_error (vertex c) (depth c) m) as He.
      by destruct (memoFunc _ _ m) as [[err|] [t' s]].
  - unfold Ancestors, ReverseDepthFirstWalk.
    rewrite ReverseDepthFirstWalk_loop_walk.
    destruct (fixed_walk_terminates g id
                (expand_before (λ _, g) memoFunc upEdgesNoCopy id)
                upEdgesNoCopy id fuel
                (at_depth 0 (range t (upEdgesNoCopy g v))) (S t, ∅)) as [r Hr];
      [apply expand_before_targets|apply upEdgesNoCopy_of_graph|done
      |etrans; [apply Ancestors_fuel_bound|exact Hfuel]|].
    rewrite Hr. apply walk_loop_no_error in Hr.
    + destruct r as [[err|] [t' s]]; [done|]. eauto.
    + intros c [t' s]. unfold expand_before.
      pose proof (memoFunc_no_error (vertex c) (depth c) (S t', s)) as He.
      by destruct (memoFunc _ _ _) as [e m'].
Qed.

(** ** Edges and paths *)

(** [g] has an edge from [a] to [b]: the adjacency set of [a] includes
    [b].  Like every lookup of the package, this goes by identity key. *)
Definition edge (g : GraphBase) (a b : Vertex) : Prop :=
  is_Some (downEdgesNoCopy g a !! hashcode b).

(** The sets of an adjacency map are built by [Set_Add] alone. *)
Definition adj_keyed (adj : gmap Vertex VertexSet) : Prop :=
  ∀ k s, adj !! k = Some s → keyed s.

(** No vertex reaches itself by a non-empty path. *)
Definition acyclic (g : GraphBase) : Prop := ∀ v, ¬ tc (edge g) v v.

Lemma edge_Include g a b : edge g a b ↔ Set_Include (downEdgesNoCopy g a) b = true.
Proof. unfold edge. by rewrite Set_Include_true. Qed.

Lemma keyed_downEdgesNoCopy g a :
  adj_keyed (downEdges g) → keyed (downEdgesNoCopy g a).
Proof.
  intros Hg. unfold downEdgesNoCopy.
  destruct (downEdges g !! hashcode a) as [s|] eqn:Hs; simpl.
  - by eapply Hg.
  - apply keyed_empty.
Qed.

Lemma range_edge g t a w :
  adj_keyed (downEdges g) → w ∈ range t (downEdgesNoCopy g a) → edge g a w.
Proof.
  intros Hg [k Hk]%elem_of_range. unfold edge.
  rewrite <-(keyed_downEdgesNoCopy g a Hg _ _ Hk). by eexists.
Qed.

Lemma edge_range g t a b :
  adj_keyed (downEdges g) → edge g a b →
  ∃ w, w ∈ range t (downEdgesNoCopy g a) ∧ hashcode w = hashcode b.
Proof.
  intros Hg [w Hw]. exists w. split.
  - apply elem_of_range. by eexists.
  - symmetry. by eapply keyed_downEdgesNoCopy.
Qed.

Lemma edge_key g a a' b b' :
  hashcode a = hashcode a' → hashcode b = hashcode b' → edge g a b → edge g a' b'.
Proof. unfold edge, downEdgesNoCopy. by intros -> ->. Qed.

Lemma tc_edge_key g a a' b b' :
  hashcode a = hashcode a' → hashcode b = hashcode b' →
  tc (edge g) a b → tc (edge g) a' b'.
Proof.
  intros Ha Hb Hab. destruct Hab as [a b Hab|a y b Hay Hyb].
  - apply tc_once. by apply (edge_key g a a' b b').
  - apply (tc_l _ _ y); [by apply (edge_key g a a' y y)|]. clear Hay Ha.
    induction Hyb as [y b Hyb|y z b Hyz Hzb IH].
    + apply tc_once. by apply (edge_key g y y b b').
    + apply (tc_l _ _ z); [done|]. by apply IH.
Qed.

(** ** What a depth-first walk reaches

    The walk of [DepthFirstWalk] with a visitor that never fails, over a
    graph whose adjacency, at the vertices reached from the start, is that
    of [g0] whatever the visitor does.  [J] is what the visitor maintains
    between the seen set and its heap. *)

Section dfs_reach.
Context {Heap : Type}.
Variable g : Heap → GraphBase.
Variable f : DepthWalkFunc Heap.
Variable g0 : GraphBase.
Variable starts : list Vertex.
Variable J : gset Vertex → Heap → Prop.

(** The keys of the vertices that some start vertex reaches, itself
    included. *)
Definition reached (k : Vertex) : Prop :=
  ∃ x w, x ∈ starts ∧ rtc (edge g0) x w ∧ hashcode w = k.

Hypothesis g0_keyed : adj_keyed (downEdges g0).

Hypothesis visit_ok : ∀ seen t s v d,
  J seen s → reached (hashcode v) → hashcode v ∉ seen →
  (∀ k, k ∈ seen → reached k) →
  (f v d (t, s)).1 = None
  ∧ J ({[hashcode v]} ∪ seen) (f v d (t, s)).2.2
  ∧ downEdgesNoCopy (g (f v d (t, s)).2.2) v = downEdgesNoCopy g0 v.

Lemma reached_edge a b : reached (hashcode a) → edge g0 a b → reached (hashcode b).
Proof.
  intros (x & w & Hx & Hxw & Hw) Hab. exists x, b. split; [done|]. split; [|done].
  apply (rtc_r _ w); [done|]. by apply (edge_key g0 a w b b).
Qed.

Lemma dfs_reach fuel t s r :
  J ∅ s →
  walk_loop hashcode (expand_after g f downEdgesNoCopy id) fuel ∅
    (at_depth 0 starts) (t, s) = Some r →
  r.1 = None ∧ ∃ seen, J seen r.2.2 ∧ ∀ k, k ∈ seen ↔ reached k.
Proof.
  intros HJ Hr.
  set (covered := λ (seen : gset Vertex) (fr : list vertexAtDepth) (b : Vertex),
         hashcode b ∈ seen ∨ ∃ c, c ∈ fr ∧ hashcode (vertex c) = hashcode b).
  refine (walk_loop_rule hashcode _
    (λ seen fr m,
       J seen m.2 ∧ (∀ k, k ∈ seen → reached k)
       ∧ (∀ c, c ∈ fr → reached (hashcode (vertex c)))
       ∧ (∀ a b, hashcode a ∈ seen → edge g0 a b → covered seen fr b)
       ∧ (∀ x, x ∈ starts → covered seen fr x))
    (λ e m, e = None ∧ ∃ seen, J seen m.2 ∧ ∀ k, k ∈ seen ↔ reached k)
    _ _ _ fuel ∅ (at_depth 0 starts) (t, s) r _ Hr).
  - (* the frontier is empty *)
    intros seen m (HJ' & Hsound & _ & Hclosed & Hstart). split; [done|].
    exists seen. split; [done|]. intros k. split; [apply Hsound|].
    intros (x & w & Hx & Hxw & <-).
    assert (hashcode x ∈ seen) as Hxs.
    { destruct (Hstart x Hx) as [|(c & ?%not_elem_of_nil & _)]; done. }
    clear Hx. induction Hxw as [x|x y w Hxy Hyw IH]; [done|].
    apply IH. destruct (Hclosed x y Hxs Hxy) as [|(c & ?%not_elem_of_nil & _)]; done.
  - (* the popped vertex has been seen *)
    intros seen fr c m (HJ' & Hsound & Hfr & Hclosed & Hstart) Hc.
    assert (∀ b, covered seen (fr ++ [c]) b → covered seen fr b) as Hcov.
    { intros b [?|(c' & [?|Heq%list_elem_of_singleton]%elem_of_app & Hb)].
      - by left.
      - right. by exists c'.
      - left. subst c'. by rewrite <-Hb. }
    split; [done|]. split; [done|]. split.
    { intros c' Hc'. apply Hfr, elem_of_app. by left. }
    split; [intros a b Ha Hab; by apply Hcov, (Hclosed a)|].
    intros x Hx. by apply Hcov, Hstart.
  - (* the popped vertex is visited and expanded *)
    intros seen fr c [t' s'] (HJ' & Hsound & Hfr & Hclosed & Hstart) Hc.
    simpl in HJ'.
    assert (reached (hashcode (vertex c))) as Hrc.
    { apply Hfr, elem_of_app. right. by apply list_elem_of_singleton. }
    destruct (visit_ok seen t' s' (vertex c) (depth c) HJ' Hrc Hc Hsound)
      as (He & HJ'' & Hadj).
    unfold expand_after.
    destruct (f (vertex c) (depth c) (t', s')) as [[err|] [t'' s'']];
      simpl in *; [done|].
    rewrite Hadj. clear Hadj He.
    set (targets := range t'' (downEdgesNoCopy g0 (vertex c))).
    assert (∀ b, covered seen (fr ++ [c]) b
                 → covered ({[hashcode (vertex c)]} ∪ seen)
                     (fr ++ at_depth (depth c + 1) targets) b) as Hcov.
    { intros b [?|(c' & [?|Heq%list_elem_of_singleton]%elem_of_app & Hb)].
      - left. tidy; set_solver.
      - right. exists c'. split; [|done]. apply elem_of_app. by left.
      - left. subst c'. rewrite <-Hb. tidy; set_solver. }
    split; [done|]. split.
    { intros k [Hk%elem_of_singleton|Hk]%elem_of_union; [by subst|by apply Hsound]. }
    split.
    { intros c' [Hc'|Hc']%elem_of_app.
      - apply Hfr, elem_of_app. by left.
      - unfold at_depth in Hc'. apply list_elem_of_fmap in Hc' as (w & -> & Hw).
        simpl. apply (reached_edge (vertex c)); [done|]. by eapply range_edge. }
    split; [|intros x Hx; by apply Hcov, Hstart].
    intros a b [Ha%elem_of_singleton|Ha]%elem_of_union Hab;
      [|by apply Hcov, (Hclosed a)].
    right. destruct (edge_range g0 t'' (vertex c) b g0_keyed) as (w & Hw & Hwb).
    { by apply (edge_key g0 a (vertex c) b b). }
    exists {| vertex := w; depth := depth c + 1 |}. split; [|done].
    apply elem_of_app. right. apply elem_of_at_depth. by exists w.
  - (* the loop is entered *)
    split; [done|]. split; [by intros k ?%not_elem_of_empty|]. split.
    { intros c (x & -> & Hx)%elem_of_at_depth. by exists x, x. }
    split; [by intros a b ?%not_elem_of_empty|].
    intros x Hx. right. exists {| vertex := x; depth := 0 |}. split; [|done].
    apply elem_of_at_depth. by exists x.
Qed.

End dfs_reach.

(** ** Descendants *)

Lemma reached_successors g t v w :
  adj_keyed (downEdges g) →
  reached g (range t (downEdgesNoCopy g v)) (hashcode w) ↔ tc (edge g) v w.
Proof.
  intros Hg. split.
  - intros (x & w' & Hx & Hxw & Hw).
    apply (tc_edge_key g v v w' w); [done|done|].
    eapply tc_rtc_r; [|done]. apply tc_once. by eapply range_edge.
  - intros Hvw.
    assert (∃ y, edge g v y ∧ rtc (edge g) y w) as (y & Hvy & Hyw).
    { destruct Hvw as [v w Hvw|v y w Hvy Hyw]; [by exists w|].
      exists y. split; [done|]. by apply tc_rtc. }
    destruct (edge_range g t v y Hg Hvy) as (x & Hx & Hxy).
    destruct Hyw as [y|y z w Hyz Hzw].
    + by exists x, x.
    + exists x, w. split; [done|]. split; [|done].
      eapply rtc_l; [|done]. by apply (edge_key g y x z z).
Qed.

(** C3. On an acyclic graph, [Descendants] of [v] returns a set that does
    not include [v] and that includes a vertex if and only if a non-empty
    path leads from [v] to it. *)
Theorem Descendants_reachable (g : GraphBase) (v : Vertex) (t fuel : nat) :
  adj_keyed (downEdges g) →
  acyclic g →
  enough_fuel g (length (graph_values g)) ≤ fuel →
  ∃ s t', Descendants fuel t g v = Some (inl s, t')
          ∧ Set_Include s v = false
          ∧ ∀ w, Set_Include s w = true ↔ tc (edge g) v w.
Proof.
  intros Hg Hacyclic Hfuel.
  unfold Descendants, DepthFirstWalk. rewrite DepthFirstWalk_loop_walk.
  destruct (fixed_walk_terminates g hashcode
              (expand_after (λ _, g) memoFunc downEdgesNoCopy id)
              downEdgesNoCopy id fuel
              (at_depth 0 (range t (downEdgesNoCopy g v))) (S t, ∅)) as [r Hr];
    [apply expand_after_targets|apply downEdgesNoCopy_of_graph|done
    |etrans; [apply Descendants_fuel_bound|exact Hfuel]|].
  rewrite Hr.
  apply (dfs_reach (λ _, g) memoFunc g (range t (downEdgesNoCopy g v))
           (λ seen s, ∀ k, is_Some (s !! k) ↔ k ∈ seen) Hg) in Hr
    as (He & seen & HJ & Hseen).
  - destruct r as [[err|] [t' s]]; [done|]. simpl in *. exists s, t'.
    assert (∀ w, Set_Include s w = true ↔ tc (edge g) v w) as Hs.
    { intros w. by rewrite Set_Include_true, HJ, Hseen, reached_successors. }
    split; [done|]. split; [|done].
    apply not_true_is_false. intros Hv%Hs. by apply (Hacyclic v).
  - intros seen' t' s w d HJ _ _ _. simpl. split; [done|]. split; [|done].
    intros k. unfold Set_Add. rewrite lookup_insert. case_decide as Hk.
    + subst k. split; [(tidy; set_solver)|by eexists].
    + rewrite HJ. tidy; set_solver.
  - intros k. rewrite lookup_empty. split; [by intros [? ?]|(tidy; set_solver)].
Qed.

(** ** TransitiveReduction *)

(** *** What the visitor does to the graph *)

Lemma foldl_Set_Delete_lookup (s : VertexSet) (ws : list Vertex) k :
  foldl Set_Delete s ws !! k
  = if decide (k ∈ hashcode <$> ws) then None else s !! k.
Proof.
  revert s. induction ws as [|w ws IH]; intros s.
  - done.
  - cbn [foldl]. rewrite IH, fmap_cons. unfold Set_Delete. rewrite lookup_delete.
    destruct (decide (k ∈ hashcode <$> ws)) as [Hk|Hk].
    + rewrite decide_True; [done|by right].
    + destruct (decide (hashcode w = k)) as [<-|Hw].
      * rewrite decide_True; [done|left].
      * rewrite decide_False; [done|].
        intros [?|?]%elem_of_cons; [by apply Hw|by apply Hk].
Qed.

Lemma Set_Intersection_foldl_lookup (other : VertexSet) (l : list Vertex)
    (result : VertexSet) k :
  is_Some (foldl (λ result v, if Set_Include other v then Set_Add result v else result)
             result l !! k)
  ↔ is_Some (result !! k)
    ∨ ∃ v, v ∈ l ∧ hashcode v = k ∧ is_Some (other !! hashcode v).
Proof.
  revert result. induction l as [|a l IH]; intros result; simpl.
  - split; [by left|]. intros [|(v & ?%not_elem_of_nil & _)]; done.
  - rewrite IH. destruct (Set_Include other a) eqn:Ha.
    + apply Set_Include_true in Ha. unfold Set_Add.
      rewrite lookup_insert. split.
      * intros [Hk|(v & Hv & Hk & Ho)].
        -- case_decide; [|by left]. right. exists a. split; [left|done].
        -- right. exists v. split; [by right|done].
      * intros [Hk|(v & [->|Hv]%elem_of_cons & Hk & Ho)].
        -- left. case_decide; [by eexists|done].
        -- left. rewrite decide_True; [by eexists|done].
        -- right. by exists v.
    + apply not_true_iff_false in Ha. rewrite Set_Include_true in Ha. split.
      * intros [Hk|(v & Hv & Hk & Ho)]; [by left|].
        right. exists v. split; [by right|done].
      * intros [Hk|(v & [->|Hv]%elem_of_cons & Hk & Ho)]; [by left|done|].
        right. by exists v.
Qed.

Lemma Set_Intersection_foldl_keyed (other : VertexSet) (l : list Vertex)
    (result : VertexSet) :
  keyed result →
  keyed (foldl (λ result v, if Set_Include other v then Set_Add result v else result)
           result l).
Proof.
  revert result. induction l as [|a l IH]; intros result Hr; simpl; [done|].
  apply IH. destruct (Set_Include other a); [by apply keyed_Add|done].
Qed.

(** The intersection holds the keys that both operands hold. *)
Lemma Set_Intersection_spec t (s other : VertexSet) :
  keyed s → keyed other →
  keyed (Set_Intersection t s other).1
  ∧ (Set_Intersection t s other).2 = S t
  ∧ ∀ k, is_Some ((Set_Intersection t s other).1 !! k)
         ↔ is_Some (s !! k) ∧ is_Some (other !! k).
Proof.
  intros Hs Ho.
  assert (∀ a b : VertexSet, keyed a →
            ∀ k, is_Some (foldl (λ result v,
                            if Set_Include b v then Set_Add result v else result)
                          ∅ (range t a) !! k)
                 ↔ is_Some (a !! k) ∧ is_Some (b !! k)) as Hfold.
  { intros a b Ha k. rewrite Set_Intersection_foldl_lookup, lookup_empty. split.
    - intros [[? [=]]|(v & [k' Hv]%elem_of_range & <- & Hb)].
      pose proof (Ha _ _ Hv) as ->. split; [by eexists|done].
    - intros [[v Hv] Hb]. right. exists v. pose proof (Ha _ _ Hv) as ->.
      split; [|done]. apply elem_of_range. by eexists. }
  unfold Set_Intersection. case_decide; simpl.
  - split; [by apply Set_Intersection_foldl_keyed, keyed_empty|].
    split; [done|]. intros k. rewrite Hfold by done. tidy; tauto.
  - split; [by apply Set_Intersection_foldl_keyed, keyed_empty|].
    split; [done|]. intros k. by rewrite Hfold.
Qed.

Lemma foldl_RemoveEdge_downEdges (g : GraphBase) (u : Vertex) (ws : list Vertex) :
  downEdges (foldl (λ g vPrime, RemoveEdge g (BasicEdge u vPrime)) g ws)
  = match downEdges g !! hashcode u with
    | Some s => <[hashcode u := foldl Set_Delete s ws]> (downEdges g)
    | None => downEdges g
    end.
Proof.
  revert g. induction ws as [|w ws IH]; intros g; simpl.
  - destruct (downEdges g !! hashcode u) as [s|] eqn:Hs; [|done].
    by rewrite insert_id.
  - rewrite IH. simpl.
    destruct (downEdges g !! hashcode u) as [s|] eqn:Hs.
    + by rewrite lookup_insert_eq, insert_insert_eq.
    + by rewrite Hs.
Qed.

(** The adjacency of [g'] is that of [g] with entries removed. *)
Definition sub_adj (g' g : GraphBase) : Prop :=
  ∀ k s', downEdges g' !! k = Some s' →
          ∃ s, downEdges g !! k = Some s ∧ s' ⊆ s.

Lemma sub_adj_refl g : sub_adj g g.
Proof. intros k s Hs. by exists s. Qed.

Lemma sub_adj_trans g1 g2 g3 : sub_adj g1 g2 → sub_adj g2 g3 → sub_adj g1 g3.
Proof.
  intros H12 H23 k s1 Hs1. destruct (H12 k s1 Hs1) as (s2 & Hs2 & Hsub12).
  destruct (H23 k s2 Hs2) as (s3 & Hs3 & Hsub23). exists s3. split; [done|].
  by trans s2.
Qed.

Lemma sub_adj_keyed g' g :
  sub_adj g' g → adj_keyed (downEdges g) → adj_keyed (downEdges g').
Proof.
  intros Hsub Hg k s' Hs' k' v Hv. destruct (Hsub k s' Hs') as (s & Hs & Hss).
  eapply Hg; [done|]. by eapply lookup_weaken.
Qed.

Lemma sub_adj_lookup g' g v k w :
  sub_adj g' g → downEdgesNoCopy g' v !! k = Some w →
  downEdgesNoCopy g v !! k = Some w.
Proof.
  intros Hsub. unfold downEdgesNoCopy.
  destruct (downEdges g' !! hashcode v) as [s'|] eqn:Hs'; simpl; [|done].
  destruct (Hsub _ _ Hs') as (s & -> & Hss). simpl. intros Hw.
  by eapply lookup_weaken.
Qed.

Lemma sub_adj_edge g' g a b : sub_adj g' g → edge g' a b → edge g a b.
Proof. intros Hsub [w Hw]. exists w. by eapply sub_adj_lookup. Qed.

Lemma sub_adj_size g' g v :
  sub_adj g' g → size (downEdgesNoCopy g' v) ≤ size (downEdgesNoCopy g v).
Proof.
  intros Hsub. unfold downEdgesNoCopy.
  destruct (downEdges g' !! hashcode v) as [s'|] eqn:Hs'; simpl.
  - destruct (Hsub _ _ Hs') as (s & -> & Hss). simpl. by apply map_subseteq_size.
  - rewrite map_size_empty. lia.
Qed.

Lemma foldl_RemoveEdge_sub_adj g u ws :
  sub_adj (foldl (λ g vPrime, RemoveEdge g (BasicEdge u vPrime)) g ws) g.
Proof.
  intros k s'. rewrite foldl_RemoveEdge_downEdges.
  destruct (downEdges g !! hashcode u) as [s|] eqn:Hs; [|by eexists].
  rewrite lookup_insert. case_decide as Hk; [|by eexists].
  intros [= <-]. subst k. exists s. split; [done|].
  apply map_subseteq_spec. intros k' w. rewrite foldl_Set_Delete_lookup.
  by case_decide.
Qed.

Lemma TransitiveReduction_visit_eq u v d t g :
  TransitiveReduction_visit u v d (t, g)
  = (None,
     (S (S t),
      foldl (λ g vPrime, RemoveEdge g (BasicEdge u vPrime)) g
        (range (S t)
           (Set_Intersection t (downEdgesNoCopy g u) (downEdgesNoCopy g v)).1))).
Proof.
  unfold TransitiveReduction_visit, Set_Intersection.
  by case_decide.
Qed.

(** One call of the visitor removes from the adjacency of [u] what the
    adjacency of [v] holds too, and nothing else. *)
Lemma TransitiveReduction_visit_effect u v d t g :
  keyed (downEdgesNoCopy g u) → keyed (downEdgesNoCopy g v) →
  let g' := (TransitiveReduction_visit u v d (t, g)).2.2 in
  (∀ k, k ≠ hashcode u → downEdges g' !! k = downEdges g !! k)
  ∧ (∀ k w, downEdgesNoCopy g' u !! k = Some w
            ↔ downEdgesNoCopy g u !! k = Some w
              ∧ ¬ is_Some (downEdgesNoCopy g v !! k))
  ∧ ((∀ k, ¬ (is_Some (downEdgesNoCopy g u !! k)
              ∧ is_Some (downEdgesNoCopy g v !! k))) → g' = g).
Proof.
  intros Hu Hv. rewrite TransitiveReduction_visit_eq. cbn [snd].
  destruct (Set_Intersection_spec t _ _ Hu Hv) as (Hshared & _ & Hkeys).
  set (shared := (Set_Intersection t _ _).1) in *.
  assert (∀ k, k ∈ hashcode <$> range (S t) shared
               ↔ is_Some (downEdgesNoCopy g u !! k)
                 ∧ is_Some (downEdgesNoCopy g v !! k)) as Hws.
  { intros k. rewrite <-Hkeys, list_elem_of_fmap. split.
    - intros (w & -> & [k' Hw]%elem_of_range).
      pose proof (Hshared _ _ Hw) as <-. by eexists.
    - intros [w Hw]. exists w. split; [by eapply Hshared|].
      apply elem_of_range. by eexists. }
  split; [|split].
  - intros k Hk. rewrite foldl_RemoveEdge_downEdges.
    destruct (downEdges g !! hashcode u); [|done]. by rewrite lookup_insert_ne.
  - intros k w. unfold downEdgesNoCopy at 1.
    rewrite foldl_RemoveEdge_downEdges.
    destruct (downEdges g !! hashcode u) as [s|] eqn:Hs.
    + rewrite lookup_insert_eq. simpl. rewrite foldl_Set_Delete_lookup.
      assert (downEdgesNoCopy g u = s) as Hus.
      { unfold downEdgesNoCopy. by rewrite Hs. }
      rewrite Hus in *. case_decide as Hk.
      * apply Hws in Hk as [_ Hvk]. split; [done|]. by intros [_ []].
      * split; [|by intros [? _]]. intros Hw. split; [done|].
        intros Hvk. apply Hk, Hws. split; [by eexists|done].
    + rewrite Hs. simpl. unfold downEdgesNoCopy. rewrite Hs. simpl.
      rewrite lookup_empty. split; [done|by intros [? _]].
  - intros Hdisjoint.
    assert (range (S t) shared = []) as ->; [|done].
    destruct (range (S t) shared) as [|w ws] eqn:Hl; [done|].
    exfalso. apply (Hdisjoint (hashcode w)), Hws. rewrite fmap_cons. left.
Qed.

Lemma bounded_walk_terminates {Heap : Type} (g0 : GraphBase) key
    (step : @walk_step Heap) (Inv : nat * Heap → Prop) fuel frontier m :
  (∀ c m, Inv m →
     Inv (step c m).2
     ∧ ((step c m).1.1 = None →
        (∀ x, x ∈ (step c m).1.2 → x ∈ graph_values g0)
        ∧ length (step c m).1.2 ≤ length (graph_values g0))) →
  Inv m →
  enough_fuel g0 (length frontier) ≤ fuel →
  ∃ r, walk_loop key step fuel ∅ frontier m = Some r ∧ Inv r.2.
Proof.
  intros Hstep HI Hfuel.
  set (vs := graph_values g0 ++ (vertex <$> frontier)).
  apply (walk_loop_terminates key step Inv (λ x, x ∈ vs)
           (list_to_set (key <$> vs)) (length (graph_values g0))).
  - intros x Hx. apply elem_of_list_to_set. by apply list_elem_of_fmap_2.
  - intros c m' HI' Hc. destruct (Hstep c m' HI') as [HI'' Hb].
    split; [done|]. intros He. destruct (Hb He) as [Hin Hlen]. split; [|done].
    intros x Hx. apply elem_of_app. left. by apply Hin.
  - done.
  - intros c Hc. apply elem_of_app. right. by apply list_elem_of_fmap_2.
  - unfold walk_measure, enough_fuel in *.
    assert (size (list_to_set (C:=gset Vertex) (key <$> vs) ∖ ∅)
            ≤ length (graph_values g0) + length frontier) as Hsz.
    { trans (size (list_to_set (C:=gset Vertex) (key <$> vs))).
      { apply subseteq_size, subseteq_difference_l. done. }
      etrans; [apply size_list_to_set_le|].
      unfold vs. by rewrite length_fmap, length_app, length_fmap. }
    tidy; nia.
Qed.

(** *** The walk for one vertex [u] *)

(** What the walk for [u] makes of the graph [g]: it removes the edges
    from [u] to the vertices that a longer path from [u] reaches, and no
    other edge. *)
Definition reduced_at (g : GraphBase) (u : Vertex) (g' : GraphBase) : Prop :=
  (∀ a b, edge g' a b → edge g a b)
  ∧ (∀ a b, hashcode a ≠ hashcode u → edge g a b → edge g' a b)
  ∧ (∀ b, edge g u b → edge g' u b ∨ ∃ m, tc (edge g) u m ∧ edge g m b)
  ∧ (∀ b, edge g' u b → ¬ ∃ m, tc (edge g) u m ∧ edge g m b).

Section reduce_one.
Variable g0 g : GraphBase.
Variable u : Vertex.
Hypothesis g_keyed : adj_keyed (downEdges g).
Hypothesis g_acyclic : acyclic g.
Hypothesis g_sub : sub_adj g g0.

Lemma TransitiveReduction_walk_terminates fuel t :
  enough_fuel g0 (length (graph_values g0)) ≤ fuel →
  ∃ r, DepthFirstWalk id (TransitiveReduction_visit u) fuel
         (downEdgesNoCopy g u) (t, g) = Some r
       ∧ sub_adj r.2.2 g.
Proof.
  intros Hfuel. unfold DepthFirstWalk. rewrite DepthFirstWalk_loop_walk.
  apply (bounded_walk_terminates g0 hashcode _ (λ m, sub_adj m.2 g)).
  - intros c [t' g'] Hsub. unfold expand_after.
    rewrite TransitiveReduction_visit_eq. simpl in *.
    set (g'' := foldl _ g' _).
    assert (sub_adj g'' g) as Hsub''.
    { eapply sub_adj_trans; [apply foldl_RemoveEdge_sub_adj|done]. }
    assert (sub_adj g'' g0) as Hsub0 by by eapply sub_adj_trans.
    split; [done|]. intros _. split.
    + intros x [k Hk]%elem_of_range.
      eapply (downEdgesNoCopy_of_graph g0), sub_adj_lookup; done.
    + rewrite length_range. etrans; [by apply sub_adj_size|].
      apply downEdgesNoCopy_of_graph.
  - apply sub_adj_refl.
  - etrans; [|exact Hfuel]. apply enough_fuel_mono.
    rewrite length_at_depth, length_range.
    etrans; [by apply sub_adj_size|]. apply downEdgesNoCopy_of_graph.
Qed.

(** What the visitor maintains: the adjacency of [u] is what is left of it
    after the removal of the successors of the seen vertices, the adjacency
    elsewhere is untouched, and nothing at all changes in a graph that has
    nothing to remove at [u]. *)
Definition reduce_inv (seen : gset Vertex) (g' : GraphBase) : Prop :=
  (∀ k, k ≠ hashcode u → downEdges g' !! k = downEdges g !! k)
  ∧ (∀ k w, downEdgesNoCopy g' u !! k = Some w
            ↔ downEdgesNoCopy g u !! k = Some w
              ∧ ¬ ∃ a, a ∈ seen ∧ is_Some (default ∅ (downEdges g !! a) !! k))
  ∧ ((∀ b, edge g u b → ¬ ∃ m, tc (edge g) u m ∧ edge g m b) → g' = g).

Lemma reached_not_u t v :
  reached g (range t (downEdgesNoCopy g u)) (hashcode v) → hashcode v ≠ hashcode u.
Proof.
  intros Hv%reached_successors Heq; [|done].
  apply (g_acyclic u). by apply (tc_edge_key g u u v u).
Qed.

Lemma reduce_inv_visit t seen t' g' v d :
  reduce_inv seen g' →
  reached g (range t (downEdgesNoCopy g u)) (hashcode v) →
  (TransitiveReduction_visit u v d (t', g')).1 = None
  ∧ reduce_inv ({[hashcode v]} ∪ seen) (TransitiveReduction_visit u v d (t', g')).2.2
  ∧ downEdgesNoCopy (TransitiveReduction_visit u v d (t', g')).2.2 v
    = downEdgesNoCopy g v.
Proof.
  intros (Hother & Hu & Hsame) Hv.
  pose proof (reached_not_u t v Hv) as Hvu.
  assert (downEdgesNoCopy g' v = downEdgesNoCopy g v) as Hgv.
  { unfold downEdgesNoCopy. by rewrite Hother. }
  assert (keyed (downEdgesNoCopy g' u)) as Hku.
  { intros k w [Hw _]%Hu. by eapply keyed_downEdgesNoCopy. }
  assert (keyed (downEdgesNoCopy g' v)) as Hkv.
  { rewrite Hgv. by apply keyed_downEdgesNoCopy. }
  destruct (TransitiveReduction_visit_effect u v d t' g' Hku Hkv)
    as (Hother' & Hu' & Hsame').
  split; [by rewrite TransitiveReduction_visit_eq|].
  set (g'' := (TransitiveReduction_visit u v d (t', g')).2.2) in *.
  split; [|unfold downEdgesNoCopy; by rewrite Hother', Hother].
  split; [|split].
  - intros k Hk. by rewrite Hother', Hother.
  - intros k w. rewrite Hu', Hu, Hgv. unfold downEdgesNoCopy at 2. split.
    + intros [[Hw Hseen] Hvk]. split; [done|].
      intros (a & [Ha%elem_of_singleton|Ha]%elem_of_union & Hak).
      * subst a. done.
      * apply Hseen. by exists a.
    + intros [Hw Hseen]. split; [split; [done|]|].
      * intros (a & Ha & Hak). apply Hseen. exists a. split; [(tidy; set_solver)|done].
      * intros Hvk. apply Hseen. exists (hashcode v). split; [(tidy; set_solver)|done].
  - intros Hred. specialize (Hsame Hred). subst g'. apply Hsame'.
    intros k [[w Hw] Hvk].
    pose proof (g_keyed_u := keyed_downEdgesNoCopy g u g_keyed _ _ Hw).
    subst k. apply (Hred w); [by exists w|]. exists v. split; [|done].
    by apply (reached_successors g t u v).
Qed.

Lemma TransitiveReduction_walk fuel t :
  enough_fuel g0 (length (graph_values g0)) ≤ fuel →
  ∃ r, DepthFirstWalk id (TransitiveReduction_visit u) fuel
         (downEdgesNoCopy g u) (t, g) = Some r
       ∧ sub_adj r.2.2 g
       ∧ reduced_at g u r.2.2
       ∧ ((∀ b, edge g u b → ¬ ∃ m, tc (edge g) u m ∧ edge g m b) → r.2.2 = g).
Proof.
  intros Hfuel.
  destruct (TransitiveReduction_walk_terminates fuel t Hfuel) as (r & Hr & Hsub).
  exists r. split; [done|]. split; [done|].
  unfold DepthFirstWalk in Hr. rewrite DepthFirstWalk_loop_walk in Hr.
  apply (dfs_reach id (TransitiveReduction_visit u) g
           (range t (downEdgesNoCopy g u)) reduce_inv g_keyed) in Hr
    as (_ & seen & (Hother & Hu & Hsame) & Hseen).
  - assert (∀ m, tc (edge g) u m → hashcode m ∈ seen) as Hin.
    { intros m Hm. by apply Hseen, (reached_successors g t u m). }
    assert (∀ a, a ∈ seen → ∃ m, tc (edge g) u m ∧ hashcode m = a) as Hout.
    { intros a (x & w & Hx & Hxw & Hw)%Hseen. exists w. split; [|done].
      apply (reached_successors g t u w); [done|]. by exists x, w. }
    split; [|done]. split; [intros a b; by apply sub_adj_edge|].
    split; [|split].
    + intros a b Ha [w Hw]. exists w. unfold downEdgesNoCopy in *.
      by rewrite Hother.
    + intros b [w Hw].
      destruct (decide (set_Exists
                  (λ a, is_Some (default ∅ (downEdges g !! a) !! hashcode b))
                  seen)) as [(a & Ha & Hab)|Hno].
      * right. destruct (Hout a Ha) as (m & Hm & <-). by exists m.
      * left. exists w. apply Hu. split; [done|].
        intros (a & Ha & Hab). apply Hno. by exists a.
    + intros b [w [_ Hno]%Hu] (m & Hm & Hmb). apply Hno.
      exists (hashcode m). split; [by apply Hin|done].
  - intros seen' t' s v d HJ Hv _ _. by apply (reduce_inv_visit t).
  - split; [done|]. split; [|done]. intros k w. split; [|by intros [? _]].
    intros Hw. split; [done|]. by intros (a & ?%not_elem_of_empty & _).
Qed.

End reduce_one.

(** *** Paths of an acyclic graph are short *)

(** The keys that the adjacency sets of [g] hold. *)
Definition target_keys (g : GraphBase) : gset Vertex :=
  list_to_set ((map_to_list (downEdges g)).*2 ≫= (λ s, (map_to_list s).*1)).

Lemma edge_target_key g a b : edge g a b → hashcode b ∈ target_keys g.
Proof.
  intros [w Hw]. unfold downEdgesNoCopy in Hw.
  destruct (downEdges g !! hashcode a) as [s|] eqn:Hs; simpl in Hw;
    [|by rewrite lookup_empty in Hw].
  apply elem_of_list_to_set, list_elem_of_bind. exists s. split.
  - apply list_elem_of_fmap. exists (hashcode b, w). split; [done|].
    by apply elem_of_map_to_list.
  - apply list_elem_of_fmap. exists (hashcode a, s). split; [done|].
    by apply elem_of_map_to_list.
Qed.

Lemma tc_subrel {X : Type} (R1 R2 : relation X) x y :
  (∀ a b, R1 a b → R2 a b) → tc R1 x y → tc R2 x y.
Proof.
  intros Hsub Hxy. induction Hxy as [a b Hab|a b c Hab Hbc IH].
  - by apply tc_once, Hsub.
  - eapply tc_l; [by apply Hsub|done].
Qed.

Lemma tc_inv_l {X : Type} (R : relation X) x z :
  tc R x z → ∃ y, R x y ∧ rtc R y z.
Proof.
  intros [a b Hab|a b c Hab Hbc].
  - by exists b.
  - exists b. split; [done|]. by apply tc_rtc.
Qed.

Lemma tc_inv_r {X : Type} (R : relation X) x z :
  tc R x z → ∃ y, rtc R x y ∧ R y z.
Proof.
  intros Hxz. induction Hxz as [a b Hab|a b c Hab Hbc (m & Hbm & Hmc)].
  - by exists a.
  - exists m. split; [|done]. by eapply rtc_l.
Qed.

Lemma acyclic_path_keys g n a b :
  acyclic g → nsteps (edge g) n a b →
  ∃ l, length l = n ∧ NoDup l
       ∧ ∀ k, k ∈ l → k ∈ target_keys g ∧ ∃ x, hashcode x = k ∧ tc (edge g) a x.
Proof.
  intros Hg Hab. induction Hab as [a|n a y b Hay Hyb (l & Hlen & Hnd & Hl)].
  - exists []. split; [done|]. split; [constructor|].
    by intros k ?%not_elem_of_nil.
  - exists (hashcode y :: l). split; [by rewrite <-Hlen|]. split.
    + constructor; [|done]. intros (_ & x & Hx & Hyx)%Hl.
      apply (Hg y). by apply (tc_edge_key g y y x y).
    + intros k [->|Hk]%elem_of_cons.
      * split; [by eapply edge_target_key|]. exists y. split; [done|].
        by apply tc_once.
      * destruct (Hl k Hk) as (HkT & x & Hx & Hyx). split; [done|].
        exists x. split; [done|]. by eapply tc_l.
Qed.

Lemma acyclic_path_bound g n a b :
  acyclic g → nsteps (edge g) n a b → n ≤ size (target_keys g).
Proof.
  intros Hg Hab. destruct (acyclic_path_keys g n a b Hg Hab) as (l & <- & Hnd & Hl).
  rewrite <-(size_list_to_set (C:=gset Vertex) l) by done.
  apply subseteq_size. intros k Hk%elem_of_list_to_set. by apply Hl.
Qed.

(** *** The walk for one vertex keeps every path *)

Section reduced_paths.
Variable g g' : GraphBase.
Variable u : Vertex.
Hypothesis g_acyclic : acyclic g.
Hypothesis g'_reduced : reduced_at g u g'.

Lemma reached_source_not_u x : tc (edge g) u x → hashcode x ≠ hashcode u.
Proof. intros Hux Heq. apply (g_acyclic u). by apply (tc_edge_key g u u x u). Qed.

Lemma reduced_at_below x y :
  tc (edge g) u x → rtc (edge g) x y → rtc (edge g') x y.
Proof.
  destruct g'_reduced as (_ & Hkeep & _).
  intros Hux Hxy. induction Hxy as [x|x x' y Hxx' Hx'y IH]; [done|].
  eapply rtc_l.
  - apply Hkeep; [by apply reached_source_not_u|done].
  - apply IH. by eapply tc_r.
Qed.

Lemma reduced_at_edge_tc k b y n :
  edge g u b → nsteps (edge g) n b y → size (target_keys g) < n + k →
  tc (edge g') u b.
Proof.
  destruct g'_reduced as (_ & Hkeep & Hcases & _).
  revert b y n. induction k as [|k IH]; intros b y n Hub Hby Hn.
  - apply acyclic_path_bound in Hby; [lia|done].
  - destruct (Hcases b Hub) as [?|(m & Hum & Hmb)]; [by apply tc_once|].
    destruct (tc_inv_l _ _ _ Hum) as (b1 & Hub1 & Hb1m).
    apply rtc_nsteps_1 in Hb1m as Hsteps. destruct Hsteps as [j Hj].
    assert (tc (edge g') u b1) as Hub1'.
    { apply (IH b1 y (S j + n)); [done| |lia].
      eapply nsteps_trans; [|done]. by eapply nsteps_r. }
    eapply tc_r.
    + eapply tc_rtc_r; [done|]. apply reduced_at_below; [by apply tc_once|done].
    + apply Hkeep; [by apply reached_source_not_u|done].
Qed.

Lemma reduced_at_tc a b : tc (edge g') a b ↔ tc (edge g) a b.
Proof.
  destruct g'_reduced as (Hsub & Hkeep & _). split.
  - by apply tc_subrel.
  - intros Hab. induction Hab as [a b Hab|a y b Hay Hyb IH].
    + destruct (decide (hashcode a = hashcode u)) as [Ha|Ha].
      * apply (tc_edge_key g' u a b b); [done..|].
        apply (reduced_at_edge_tc (S (size (target_keys g))) b b 0);
          [by apply (edge_key g a u b b)|constructor|lia].
      * by apply tc_once, Hkeep.
    + etrans; [|done].
      destruct (decide (hashcode a = hashcode u)) as [Ha|Ha].
      * apply (tc_edge_key g' u a y y); [done..|].
        apply (reduced_at_edge_tc (S (size (target_keys g))) y y 0);
          [by apply (edge_key g a u y y)|constructor|lia].
      * by apply tc_once, Hkeep.
Qed.

End reduced_paths.

(** *** The loop over the vertices *)

(** No edge from [u] doubles a longer path from [u]. *)
Definition reduced_from (g : GraphBase) (u : Vertex) : Prop :=
  ∀ b, edge g u b → ¬ ∃ m, tc (edge g) u m ∧ edge g m b.

Lemma acyclic_sub g' g :
  (∀ a b, edge g' a b → edge g a b) → acyclic g → acyclic g'.
Proof. intros Hsub Hg v Hv. apply (Hg v). by eapply tc_subrel. Qed.

Lemma TransitiveReduction_loop (g0 : GraphBase) fuel us :
  enough_fuel g0 (length (graph_values g0)) ≤ fuel →
  ∀ t g,
    adj_keyed (downEdges g) → acyclic g → sub_adj g g0 →
    ∃ t' g',
      foldl (TransitiveReduction_body fuel) (Some (t, g)) us = Some (t', g')
      ∧ sub_adj g' g
      ∧ (∀ a b, tc (edge g') a b ↔ tc (edge g) a b)
      ∧ (∀ u, u ∈ us → reduced_from g' u)
      ∧ ((∀ u, u ∈ us → reduced_from g u) → g' = g).
Proof.
  intros Hfuel. induction us as [|u us IH]; intros t g Hkeyed Hacyclic Hsub.
  - exists t, g. split; [done|]. split; [apply sub_adj_refl|].
    split; [done|]. split; [by intros u ?%not_elem_of_nil|done].
  - destruct (TransitiveReduction_walk g0 g u Hkeyed Hacyclic Hsub fuel t Hfuel)
      as ([e [t1 g1]] & Hwalk & Hsub1 & Hred1 & Hsame1). simpl in *.
    assert (acyclic g1) as Hacyclic1.
    { eapply acyclic_sub; [|done]. apply Hred1. }
    destruct (IH t1 g1) as (t' & g' & Hfold & Hsub' & Htc' & Hred' & Hsame');
      [by eapply sub_adj_keyed|done|by eapply sub_adj_trans|].
    exists t', g'. split; [by rewrite Hwalk|].
    split; [by eapply sub_adj_trans|].
    assert (∀ a b, tc (edge g') a b ↔ tc (edge g) a b) as Htc.
    { intros a b. rewrite Htc'. by apply (reduced_at_tc g g1 u). }
    split; [done|]. split.
    + intros u' [->|Hu']%elem_of_cons; [|by apply Hred'].
      intros b Hub (m & Hum & Hmb).
      destruct Hred1 as (_ & _ & _ & Hred1). apply (Hred1 b).
      * by eapply sub_adj_edge.
      * exists m. split; [by apply Htc|].
        eapply sub_adj_edge; [|done]. by eapply sub_adj_trans.
    + intros Hall. rewrite Hsame' , Hsame1; [done|apply Hall; left|].
      rewrite Hsame1 by (apply Hall; left).
      intros u' Hu'. apply Hall. by right.
Qed.

Lemma TransitiveReduction_unfold fuel t g :
  TransitiveReduction fuel t g
  = foldl (TransitiveReduction_body fuel) (Some (S t, g)) (range t (vertices g)).
Proof. done. Qed.

(** An edge of [g] other than the one from [u] to [w]. *)
Definition other_edge (g : GraphBase) (u w a b : Vertex) : Prop :=
  edge g a b ∧ ¬ (hashcode a = hashcode u ∧ hashcode b = hashcode w).

(** The source of every edge is a vertex of the graph. *)
Definition sources_are_vertices (g : GraphBase) : Prop :=
  ∀ a b, edge g a b → ∃ k u, vertices g !! k = Some u ∧ hashcode u = hashcode a.

Lemma reduced_from_key g u u' :
  hashcode u = hashcode u' → reduced_from g u → reduced_from g u'.
Proof.
  intros Hu Hred b Hub (m & Hum & Hmb). apply (Hred b).
  - by apply (edge_key g u' u b b).
  - exists m. split; [|done]. by apply (tc_edge_key g u' u m m).
Qed.

Lemma reduced_from_no_other_path g u w :
  acyclic g → reduced_from g u → edge g u w → ¬ tc (other_edge g u w) u w.
Proof.
  intros Hg Hred Huw Hpath.
  destruct (tc_inv_l _ _ _ Hpath) as (y & [Huy Hne] & Hyw).
  assert (rtc (edge g) y w) as Hyw'.
  { eapply rtc_subrel; [|done]. by intros a b [? _]. }
  apply rtc_tc in Hyw' as [->|Hyw']; [by apply Hne|].
  destruct (tc_inv_r _ _ _ Hyw') as (m & Hym & Hmw).
  apply (Hred w Huw). exists m. split; [|done].
  eapply tc_rtc_r; [by apply tc_once|done].
Qed.

(** C1. On an acyclic graph, [TransitiveReduction] leaves no edge from
    [u] to [w] beside another path of remaining edges from [u] to [w], and
    it leaves every vertex reachable from exactly the vertices that reached
    it before. *)
Theorem TransitiveReduction_correct (g : GraphBase) (t fuel : nat) :
  adj_keyed (downEdges g) →
  sources_are_vertices g →
  acyclic g →
  enough_fuel g (length (graph_values g)) ≤ fuel →
  ∃ t' g',
    TransitiveReduction fuel t g = Some (t', g')
    ∧ (∀ u w, edge g' u w → ¬ tc (other_edge g' u w) u w)
    ∧ (∀ u w, rtc (edge g') u w ↔ rtc (edge g) u w).
Proof.
  intros Hkeyed Hsources Hacyclic Hfuel.
  destruct (TransitiveReduction_loop g fuel (range t (vertices g)) Hfuel (S t) g)
    as (t' & g' & Hfold & Hsub & Htc & Hred & _);
    [done|done|apply sub_adj_refl|].
  exists t', g'. split; [by rewrite TransitiveReduction_unfold|]. split.
  - intros u w Huw.
    apply reduced_from_no_other_path; [|  |done].
    + eapply acyclic_sub; [|done]. intros a b. by apply sub_adj_edge.
    + destruct (Hsources u w) as (k & u' & Hu' & Hkey);
        [by eapply sub_adj_edge|].
      apply (reduced_from_key g' u'); [done|]. apply Hred.
      apply elem_of_range. by exists k.
  - intros u w. by rewrite !rtc_tc, Htc.
Qed.

Lemma RemoveEdge_vertices g e : vertices (RemoveEdge g e) = vertices g.
Proof. by destruct e. Qed.

(** C9. On an acyclic graph, a second run of [TransitiveReduction] returns
    the graph that the first run returned. *)
Theorem TransitiveReduction_idempotent (g : GraphBase) (t fuel : nat) :
  adj_keyed (downEdges g) →
  sources_are_vertices g →
  acyclic g →
  enough_fuel g (length (graph_values g)) ≤ fuel →
  ∃ t1 g1 t2,
    TransitiveReduction fuel t g = Some (t1, g1)
    ∧ TransitiveReduction fuel t1 g1 = Some (t2, g1).
Proof.
  intros Hkeyed Hsources Hacyclic Hfuel.
  destruct (TransitiveReduction_loop g fuel (range t (vertices g)) Hfuel (S t) g)
    as (t1 & g1 & Hfold & Hsub & Htc & Hred & _);
    [done|done|apply sub_adj_refl|].
  assert (∀ u, reduced_from g1 u) as Hall.
  { intros u b Hub.
    destruct (Hsources u b) as (k & u' & Hu' & Hkey); [by eapply sub_adj_edge|].
    revert b Hub. apply (reduced_from_key g1 u'); [done|]. apply Hred.
    apply elem_of_range. by exists k. }
  destruct (TransitiveReduction_loop g fuel (range t1 (vertices g1)) Hfuel
              (S t1) g1)
    as (t2 & g2 & Hfold2 & _ & _ & _ & Hsame);
    [by eapply sub_adj_keyed| |done|].
  { eapply acyclic_sub; [|done]. intros a b. by apply sub_adj_edge. }
  exists t1, g1, t2. rewrite !TransitiveReduction_unfold.
  split; [done|]. rewrite Hfold2, Hsame; [done|]. intros u _. apply Hall.
Qed.

(** ** The order of a breadth-first walk *)

(** [b] is stored in the adjacency set of [a]: the relation that the
    expansion of a walk follows. *)
Definition successor (g : GraphBase) (a b : Vertex) : Prop :=
  ∃ k, downEdgesNoCopy g a !! k = Some b.

Lemma snoc_split {X : Type} (l pre post : list X) (x y : X) :
  l ++ [x] = pre ++ y :: post →
  (post = [] ∧ pre = l ∧ y = x) ∨ ∃ post', post = post' ++ [x] ∧ l = pre ++ y :: post'.
Proof.
  destruct post as [|z post _] using rev_ind.
  - intros [-> ->]%app_inj_tail. by left.
  - rewrite app_comm_cons, app_assoc. intros [-> ->]%app_inj_tail.
    right. by exists post.
Qed.

Section breadth_order.
Context {A : Type}.
Variable f : DepthWalkFunc A.
Variable g : GraphBase.
Variable start : VertexSet.

(** The key [k] is at depth [n]: a path of [n] edges leads from a start
    vertex to a vertex of key [k]. *)
Definition at_level (n : nat) (k : Vertex) : Prop :=
  ∃ x w, (∃ k0, start !! k0 = Some x) ∧ nsteps (successor g) n x w ∧ hashcode w = k.

(** Every invocation comes after the invocations for all keys at smaller
    depths. *)
Definition level_ordered (log : list (Vertex * nat)) : Prop :=
  ∀ pre v d post, log = pre ++ (v, d) :: post →
    ∀ n k, n < d → at_level n k → k ∈ hashcode <$> pre.*1.

Definition in_frontier (fr : list vertexAtDepth) (k : Vertex) : Prop :=
  ∃ c, c ∈ fr ∧ hashcode (vertex c) = k.

Definition level_inv (L : nat) (lv : list vertexAtDepth) (seen : gset Vertex)
    (app : list vertexAtDepth) (m : nat * (A * list (Vertex * nat))) : Prop :=
  (∀ c, c ∈ lv → depth c = L)
  ∧ (∀ c, c ∈ app → depth c = L + 1)
  ∧ (∀ k, k ∈ seen → k ∈ hashcode <$> (log_of m).*1)
  ∧ (∀ n k, n < L → at_level n k → k ∈ seen)
  ∧ (∀ k, at_level L k → k ∈ seen ∨ in_frontier lv k)
  ∧ (∀ a b, hashcode a ∈ seen → successor g a b →
       hashcode b ∈ seen ∨ in_frontier lv (hashcode b) ∨ in_frontier app (hashcode b))
  ∧ level_ordered (log_of m).

Lemma level_ordered_snoc log v d (seen : gset Vertex) :
  level_ordered log →
  (∀ k, k ∈ seen → k ∈ hashcode <$> log.*1) →
  (∀ n k, n < d → at_level n k → k ∈ seen) →
  level_ordered (log ++ [(v, d)]).
Proof.
  intros Hlog Hseen Hlevels pre v' d' post
    [(-> & -> & [= -> ->])|(post' & -> & ->)]%snoc_split n k Hn Hk.
  - by eapply Hseen, Hlevels.
  - by eapply Hlog.
Qed.

Lemma in_frontier_cons c lv k (seen : gset Vertex) :
  hashcode (vertex c) ∈ seen →
  k ∈ seen ∨ in_frontier (c :: lv) k → k ∈ seen ∨ in_frontier lv k.
Proof.
  intros Hc [?|(c' & [->|Hc']%elem_of_cons & <-)]; [by left|by left|].
  right. by exists c'.
Qed.

Lemma level_inv_level L lv seen app m :
  level_inv L lv seen app m →
  let r := BreadthFirstWalk_level (λ _, g) (traced f) lv seen app m in
  level_ordered (log_of r.2)
  ∧ (r.1.1.1 = None → level_inv L [] r.1.1.2 r.1.2 r.2).
Proof.
  intros Hinv.
  refine (BreadthFirstWalk_level_rule (λ _, g) (traced f) (level_inv L)
    (λ e seen app m, level_ordered (log_of m)
                     ∧ (e = None → level_inv L [] seen app m))
    _ _ _ lv seen app m Hinv).
  - intros seen' app' m' Hinv'. split; [apply Hinv'|done].
  - intros c lv' seen' app' m' (Hlv & Happ & Hlog & Hbelow & Hhere & Hclosed & Hord) Hc.
    split; [intros c' Hc'; apply Hlv; by right|]. split; [done|].
    split; [done|]. split; [done|]. split.
    { intros k Hk. by apply (in_frontier_cons c), Hhere. }
    split; [|done]. intros a b Ha Hab.
    destruct (Hclosed a b Ha Hab) as [?|[Hb|?]]; [by left| |by right; right].
    destruct (in_frontier_cons c lv' (hashcode b) seen' Hc) as [?|?];
      [by right|by left|by right; left].
  - intros c lv' seen' app' m' (Hlv & Happ & Hlog & Hbelow & Hhere & Hclosed & Hord) Hc.
    pose proof (traced_log f (vertex c) (depth c) m') as Hl.
    assert (depth c = L) as Hd by (apply Hlv; left).
    assert (level_ordered (log_of (traced f (vertex c) (depth c) m').2)) as Hord'.
    { rewrite Hl, Hd. by eapply level_ordered_snoc. }
    destruct (traced f (vertex c) (depth c) m') as [[err|] [t s]] eqn:Hf;
      simpl in *; [done|].
    unfold level_inv. change (log_of (S t, s)) with (log_of (t, s)).
    split; [intros c' Hc'; apply Hlv; by right|]. split.
    { intros c' [Hc'|(w & -> & _)%elem_of_at_depth]%elem_of_app;
        [by apply Happ|]. simpl. by rewrite Hd. }
    split.
    { intros k [Hk%elem_of_singleton|Hk]%elem_of_union; rewrite Hl, !fmap_app;
        apply elem_of_app.
      - right. subst k. simpl. left.
      - left. by apply Hlog. }
    split; [intros n k Hn Hk; apply elem_of_union; right; by eapply Hbelow|].
    split.
    { intros k Hk. destruct (Hhere k Hk) as [?|(c' & [->|Hc']%elem_of_cons & <-)].
      - left. apply elem_of_union. by right.
      - left. apply elem_of_union. left. by apply elem_of_singleton.
      - right. by exists c'. }
    split; [|done].
    intros a b [Ha%elem_of_singleton|Ha]%elem_of_union Hab.
    + right. right. exists {| vertex := b; depth := depth c + 1 |}.
      split; [|done]. apply elem_of_app. right. apply elem_of_at_depth.
      exists b. split; [done|]. apply elem_of_range.
      destruct Hab as [k Hk]. exists k. unfold downEdgesNoCopy in *.
      by rewrite <-Ha.
    + destruct (Hclosed a b Ha Hab)
        as [?|[(c' & [->|Hc']%elem_of_cons & Hb)|(c' & Hc' & Hb)]].
      * left. apply elem_of_union. by right.
      * left. apply elem_of_union. left. by apply elem_of_singleton.
      * right. left. by exists c'.
      * right. right. exists c'. split; [|done]. apply elem_of_app. by left.
Qed.

Lemma breadth_level_ordered fuel t a r :
  BreadthFirstWalk (λ _, g) (traced f) fuel start (t, (a, [])) = Some r →
  level_ordered (log_of r.2).
Proof.
  unfold BreadthFirstWalk. intros Hr.
  refine (BreadthFirstWalk_loop_rule (λ _, g) (traced f)
    (λ seen fr m, ∃ L, level_inv L fr seen [] m)
    (λ _ m, level_ordered (log_of m))
    _ _ fuel ∅ _ _ r _ Hr).
  - intros seen m [L Hinv]. apply Hinv.
  - intros seen fr m [L Hinv] _.
    destruct (level_inv_level L fr seen [] m Hinv) as [Hord Hnext].
    destruct (BreadthFirstWalk_level _ _ fr seen [] m)
      as [[[[err|] seen'] fr'] m']; simpl in *; [done|].
    destruct (Hnext eq_refl) as (_ & Happ & Hlog & Hbelow & Hhere & Hclosed & _).
    assert (∀ k, at_level L k → k ∈ seen') as HL.
    { intros k Hk.
      destruct (Hhere k Hk) as [?|(c & ?%not_elem_of_nil & _)]; done. }
    exists (L + 1). split; [done|]. split; [by intros c ?%not_elem_of_nil|].
    split; [done|]. split.
    { intros n k Hn Hk. destruct (decide (n = L)) as [->|]; [by apply HL|].
      apply (Hbelow n); [lia|done]. }
    split.
    { intros k (x & w & Hx & Hxw & <-). rewrite Nat.add_1_r in Hxw.
      apply nsteps_inv_r in Hxw as (w' & Hxw' & Hw'w).
      destruct (Hclosed w' w) as [?|[(c & ?%not_elem_of_nil & _)|?]];
        [|done|by left|done|by right].
      apply HL. by exists x, w'. }
    split; [|done]. intros a0 b Ha Hab.
    destruct (Hclosed a0 b Ha Hab) as [?|[(c & ?%not_elem_of_nil & _)|?]];
      [by left|done|by right; left].
  - exists 0. split.
    { by intros c (w & -> & _)%elem_of_at_depth. }
    split; [by intros c ?%not_elem_of_nil|].
    split; [by intros k ?%not_elem_of_empty|].
    split; [intros n k Hn; lia|]. split.
    { intros k (x & w & [k0 Hx] & Hxw & <-). inversion Hxw; subst. right.
      exists {| vertex := w; depth := 0 |}. split; [|done].
      apply elem_of_at_depth. exists w. split; [done|].
      apply elem_of_range. by exists k0. }
    split; [by intros a0 b ?%not_elem_of_empty|].
    intros pre v d post Heq. by destruct pre.
Qed.

End breadth_order.

(** C6. [BreadthFirstWalk] ends, and when it invokes the visitor on a
    vertex at depth [d] it has invoked it for every vertex that a path of
    fewer than [d] edges reaches from the start set. *)
Theorem BreadthFirstWalk_level_order {A : Type} (f : DepthWalkFunc A)
    (g : GraphBase) (start : VertexSet) (t : nat) (a : A) (fuel : nat) :
  enough_fuel g (size start) ≤ fuel →
  ∃ r, BreadthFirstWalk (λ _, g) (traced f) fuel start (t, (a, [])) = Some r
       ∧ ∀ pre v d post, log_of r.2 = pre ++ (v, d) :: post →
           ∀ n x w, n < d → (∃ k, start !! k = Some x) →
             nsteps (successor g) n x w →
             ∃ v', v' ∈ pre.*1 ∧ hashcode v' = hashcode w.
Proof.
  intros Hfuel.
  destruct (fixed_breadth_terminates g (traced f) (at_depth 0 (range t start))
              fuel (S t, (a, []))) as [r Hr].
  { by rewrite length_at_depth, length_range. }
  exists r. split; [exact Hr|].
  intros pre v d post Hlog n x w Hn Hx Hxw.
  pose proof (breadth_level_ordered f g start fuel t a r Hr pre v d post Hlog
                n (hashcode w) Hn) as Hin.
  apply list_elem_of_fmap in Hin as (v' & Hv' & Hin); [by exists v'|].
  by exists x, w.
Qed.

(** ** The outcome of a walk *)

Lemma breadth_visits_start {A : Type} (f : DepthWalkFunc A) g fuel frontier m r :
  BreadthFirstWalk_loop g (traced f) fuel ∅ frontier m = Some r →
  r.1 = None →
  ∀ c, c ∈ frontier → hashcode (vertex c) ∈ hashcode <$> (log_of r.2).*1.
Proof.
  intros Hr.
  set (P := λ (lv : list vertexAtDepth) (seen : gset Vertex)
              (m : nat * (A * list (Vertex * nat))),
         (∀ x, x ∈ seen → x ∈ hashcode <$> (log_of m).*1)
         ∧ ∀ c, c ∈ frontier → hashcode (vertex c) ∈ seen ∨ c ∈ lv).
  refine (BreadthFirstWalk_loop_rule g (traced f)
    (λ seen fr m, P fr seen m)
    (λ e m, e = None →
            ∀ c, c ∈ frontier → hashcode (vertex c) ∈ hashcode <$> (log_of m).*1)
    _ _ fuel ∅ frontier m r _ Hr).
  - intros seen m' [Hseen Hfr] _ c Hc. apply Hseen.
    destruct (Hfr c Hc) as [|?%not_elem_of_nil]; done.
  - intros seen fr m' HP _.
    pose proof (BreadthFirstWalk_level_rule g (traced f)
      (λ lv seen _ m, P lv seen m)
      (λ e seen _ m, e = None → P [] seen m)) as Hrule.
    lapply Hrule; [clear Hrule; intros Hrule|done].
    lapply Hrule; [clear Hrule; intros Hrule|].
    lapply Hrule; [clear Hrule; intros Hrule|].
    + specialize (Hrule fr seen [] m' HP).
      destruct (BreadthFirstWalk_level _ _ fr seen [] m')
        as [[[[err|] seen'] fr'] m'']; simpl in *; [done|].
      destruct (Hrule eq_refl) as [Hseen Hfr]. split; [done|].
      intros c Hc. destruct (Hfr c Hc) as [|?%not_elem_of_nil]; [by left|done].
    + clear. intros c lv seen app m [Hseen Hfr] Hc.
      pose proof (traced_log f (vertex c) (depth c) m) as Hl.
      destruct (traced f (vertex c) (depth c) m) as [[err|] [t s]]; [done|].
      unfold P. change (log_of (S t, s)) with (log_of (t, s)).
      simpl in Hl. split.
      * intros x [Hx%elem_of_singleton|Hx]%elem_of_union;
          rewrite Hl, !fmap_app; apply elem_of_app.
        -- right. subst x. left.
        -- left. by apply Hseen.
      * intros c' Hc'. destruct (Hfr c' Hc') as [|[->|]%elem_of_cons].
        -- left. apply elem_of_union. by right.
        -- left. apply elem_of_union. left. by apply elem_of_singleton.
        -- by right.
    + clear. intros c lv seen app m [Hseen Hfr] Hc. split; [done|].
      intros c' Hc'. destruct (Hfr c' Hc') as [|[->|]%elem_of_cons]; auto.
  - split; [by intros x ?%not_elem_of_empty|]. auto.
Qed.

Lemma traced_no_error {A : Type} (f : DepthWalkFunc A) v d m :
  (∀ v d m, (f v d m).1 = None) → (traced f v d m).1 = None.
Proof.
  intros Hf. destruct m as [t [a log]]. unfold traced.
  specialize (Hf v d (t, a)). by destruct (f v d (t, a)) as [e [t' a']].
Qed.

Lemma expand_after_no_error {Heap : Type} (g : Heap → GraphBase)
    (f : DepthWalkFunc Heap) adj order c m :
  (∀ v d m, (f v d m).1 = None) → (expand_after g f adj order c m).1.1 = None.
Proof.
  intros Hf. unfold expand_after. specialize (Hf (vertex c) (depth c) m).
  by destruct (f _ _ m) as [[err|] [t s]].
Qed.

Lemma expand_before_no_error {Heap : Type} (g : Heap → GraphBase)
    (f : DepthWalkFunc Heap) adj order c m :
  (∀ v d m, (f v d m).1 = None) → (expand_before g f adj order c m).1.1 = None.
Proof.
  intros Hf. destruct m as [t s]. unfold expand_before.
  specialize (Hf (vertex c) (depth c) (S t, s)).
  by destruct (f _ _ _) as [e m'].
Qed.

Lemma breadth_no_error {Heap : Type} (g : Heap → GraphBase)
    (f : DepthWalkFunc Heap) fuel seen frontier m r :
  (∀ v d m, (f v d m).1 = None) →
  BreadthFirstWalk_loop g f fuel seen frontier m = Some r → r.1 = None.
Proof.
  intros Hf Hr.
  refine (BreadthFirstWalk_loop_rule g f (λ _ _ _, True) (λ e _, e = None)
            _ _ fuel seen frontier m r I Hr); [done|].
  intros seen' fr m' _ _.
  pose proof (BreadthFirstWalk_level_rule g f (λ _ _ _ _, True)
                (λ e _ _ _, e = None)) as Hrule.
  lapply Hrule; [clear Hrule; intros Hrule|done].
  lapply Hrule; [clear Hrule; intros Hrule|done].
  lapply Hrule; [clear Hrule; intros Hrule|].
  - specialize (Hrule fr seen' [] m' I).
    by destruct (BreadthFirstWalk_level g f fr seen' [] m')
      as [[[[err|] seen''] fr'] m''].
  - intros c lv seen'' app m'' _ _. specialize (Hf (vertex c) (depth c) m'').
    by destruct (f _ _ m'') as [[err|] [t s]].
Qed.

(** The vertices that the visitor has been invoked on, in order. *)
Definition visited {A : Type} (r : option error * (nat * (A * list (Vertex * nat))))
    : list Vertex :=
  (log_of r.2).*1.

Section walk_outcomes.
Context {A : Type}.
Variable f : DepthWalkFunc A.
Variable g : GraphBase.
Variable t : nat.
Variable a : A.
Variable fuel : nat.

Let never_fails : Prop := ∀ v d m, (f v d m).1 = None.

Lemma stack_walk_outcome key (step : @walk_step (A * list (Vertex * nat)))
    adj order frontier m :
  fixed_targets g adj order step → adj_of_graph g adj → (∀ l, order l ≡ₚ l) →
  logging step →
  ((∀ v d m, (f v d m).1 = None) → ∀ c m, (step c m).1.1 = None) →
  log_of m = [] →
  enough_fuel g (length frontier) ≤ fuel →
  ∃ r, walk_loop key step fuel ∅ frontier m = Some r
       ∧ NoDup (key <$> visited r)
       ∧ (never_fails → ∀ c, c ∈ frontier → key (vertex c) ∈ key <$> visited r).
Proof.
  intros Htargets Hadj Horder Hlogging Hstep Hlog Hfuel.
  destruct (fixed_walk_terminates g key step adj order fuel frontier m)
    as [r Hr]; [done..|].
  exists r. split; [done|]. split.
  - exact (fixed_walk_NoDup key step Hlogging fuel frontier m r Hlog Hr).
  - intros Hf. eapply fixed_walk_visits_start; [done|done|].
    eapply walk_loop_no_error; [|done]. by apply Hstep.
Qed.

Lemma DepthFirstWalk_outcome (start : VertexSet) :
  enough_fuel g (size start) ≤ fuel →
  ∃ r, DepthFirstWalk (λ _, g) (traced f) fuel start (t, (a, [])) = Some r
       ∧ NoDup (hashcode <$> visited r)
       ∧ (never_fails → ∀ x k, start !! k = Some x →
                               hashcode x ∈ hashcode <$> visited r).
Proof.
  intros Hfuel. unfold DepthFirstWalk. rewrite DepthFirstWalk_loop_walk.
  destruct (stack_walk_outcome hashcode
              (expand_after (λ _, g) (traced f) downEdgesNoCopy id)
              downEdgesNoCopy id (at_depth 0 (range t start)) (S t, (a, [])))
    as (r & Hr & Hnd & Hstart);
    [apply expand_after_targets|apply downEdgesNoCopy_of_graph|done
    |apply expand_after_logging
    |intros Hf c m; apply expand_after_no_error; intros; by apply traced_no_error
    |done|by rewrite length_at_depth, length_range|].
  exists r. split; [done|]. split; [done|]. intros Hf x k Hx.
  apply (Hstart Hf {| vertex := x; depth := 0 |}), elem_of_at_depth.
  exists x. split; [done|]. apply elem_of_range. by exists k.
Qed.

Lemma BreadthFirstWalk_outcome (start : VertexSet) :
  enough_fuel g (size start) ≤ fuel →
  ∃ r, BreadthFirstWalk (λ _, g) (traced f) fuel start (t, (a, [])) = Some r
       ∧ NoDup (hashcode <$> visited r)
       ∧ (never_fails → ∀ x k, start !! k = Some x →
                               hashcode x ∈ hashcode <$> visited r).
Proof.
  intros Hfuel. unfold BreadthFirstWalk.
  destruct (fixed_breadth_terminates g (traced f) (at_depth 0 (range t start))
              fuel (S t, (a, []))) as [r Hr].
  { by rewrite length_at_depth, length_range. }
  exists r. split; [done|].
  split; [exact (breadth_NoDup f _ _ _ (S t, (a, [])) r eq_refl Hr)|].
  intros Hf x k Hx.
  refine (breadth_visits_start f _ _ _ _ r Hr _ {| vertex := x; depth := 0 |} _).
  - eapply breadth_no_error; [|done]. intros. by apply traced_no_error.
  - apply elem_of_at_depth. exists x. split; [done|].
    apply elem_of_range. by exists k.
Qed.

Lemma id_fmap_visited (r : option error * (nat * (A * list (Vertex * nat)))) :
  id <$> visited r = visited r.
Proof. apply list_fmap_id. Qed.

Lemma ReverseDepthFirstWalk_outcome (start : VertexSet) :
  enough_fuel g (size start) ≤ fuel →
  ∃ r, ReverseDepthFirstWalk (λ _, g) (traced f) fuel start (t, (a, [])) = Some r
       ∧ NoDup (visited r)
       ∧ (never_fails → ∀ x k, start !! k = Some x → x ∈ visited r).
Proof.
  intros Hfuel. unfold ReverseDepthFirstWalk.
  rewrite ReverseDepthFirstWalk_loop_walk.
  destruct (stack_walk_outcome id
              (expand_before (λ _, g) (traced f) upEdgesNoCopy id)
              upEdgesNoCopy id (at_depth 0 (range t start)) (S t, (a, [])))
    as (r & Hr & Hnd & Hstart);
    [apply expand_before_targets|apply upEdgesNoCopy_of_graph|done
    |apply expand_before_logging
    |intros Hf c m; apply expand_before_no_error; intros; by apply traced_no_error
    |done|by rewrite length_at_depth, length_range|].
  rewrite id_fmap_visited in *.
  exists r. split; [done|]. split; [done|]. intros Hf x k Hx.
  apply (Hstart Hf {| vertex := x; depth := 0 |}), elem_of_at_depth.
  exists x. split; [done|]. apply elem_of_range. by exists k.
Qed.

Lemma SortedDepthFirstWalk_outcome (starts : list Vertex) :
  (∀ l, sort_Sort l ≡ₚ l) →
  enough_fuel g (length starts) ≤ fuel →
  ∃ r, SortedDepthFirstWalk (λ _, g) (traced f) fuel starts (t, (a, [])) = Some r
       ∧ NoDup (visited r)
       ∧ (never_fails → ∀ x, x ∈ starts → x ∈ visited r).
Proof.
  intros Hsort Hfuel. unfold SortedDepthFirstWalk.
  rewrite SortedDepthFirstWalk_loop_walk.
  destruct (stack_walk_outcome id
              (expand_after (λ _, g) (traced f) downEdgesNoCopy sort_Sort)
              downEdgesNoCopy sort_Sort (at_depth 0 starts) (t, (a, [])))
    as (r & Hr & Hnd & Hstart);
    [apply expand_after_targets|apply downEdgesNoCopy_of_graph|done
    |apply expand_after_logging
    |intros Hf c m; apply expand_after_no_error; intros; by apply traced_no_error
    |done|by rewrite length_at_depth|].
  rewrite id_fmap_visited in *.
  exists r. split; [done|]. split; [done|]. intros Hf x Hx.
  apply (Hstart Hf {| vertex := x; depth := 0 |}), elem_of_at_depth.
  by exists x.
Qed.

Lemma SortedReverseDepthFirstWalk_outcome (starts : list Vertex) :
  (∀ l, sort_Sort l ≡ₚ l) →
  enough_fuel g (length starts) ≤ fuel →
  ∃ r, SortedReverseDepthFirstWalk (λ _, g) (traced f) fuel starts (t, (a, []))
       = Some r
       ∧ NoDup (visited r)
       ∧ (never_fails → ∀ x, x ∈ starts → x ∈ visited r).
Proof.
  intros Hsort Hfuel. unfold SortedReverseDepthFirstWalk.
  rewrite SortedReverseDepthFirstWalk_loop_walk.
  destruct (stack_walk_outcome id
              (expand_before (λ _, g) (traced f) upEdgesNoCopy sort_Sort)
              upEdgesNoCopy sort_Sort (at_depth 0 starts) (t, (a, [])))
    as (r & Hr & Hnd & Hstart);
    [apply expand_before_targets|apply upEdgesNoCopy_of_graph|done
    |apply expand_before_logging
    |intros Hf c m; apply expand_before_no_error; intros; by apply traced_no_error
    |done|by rewrite length_at_depth|].
  rewrite id_fmap_visited in *.
  exists r. split; [done|]. split; [done|]. intros Hf x Hx.
  apply (Hstart Hf {| vertex := x; depth := 0 |}), elem_of_at_depth.
  by exists x.
Qed.

End walk_outcomes.

(** C7. On every graph, acyclic or not, each of the five walks ends, and
    the record of the visitor's invocations holds no dedup key twice: the
    identity key for [DepthFirstWalk] and [BreadthFirstWalk], the vertex
    itself for the other three. *)
Theorem walks_terminate_visit_once {A : Type} (f : DepthWalkFunc A)
    (g : GraphBase) (start : VertexSet) (starts : list Vertex)
    (t : nat) (a : A) (fuel : nat) :
  (∀ l, sort_Sort l ≡ₚ l) →
  enough_fuel g (size start) ≤ fuel →
  enough_fuel g (length starts) ≤ fuel →
  (∃ r, DepthFirstWalk (λ _, g) (traced f) fuel start (t, (a, [])) = Some r
        ∧ NoDup (hashcode <$> visited r))
  ∧ (∃ r, BreadthFirstWalk (λ _, g) (traced f) fuel start (t, (a, [])) = Some r
          ∧ NoDup (hashcode <$> visited r))
  ∧ (∃ r, ReverseDepthFirstWalk (λ _, g) (traced f) fuel start (t, (a, [])) = Some r
          ∧ NoDup (visited r))
  ∧ (∃ r, SortedDepthFirstWalk (λ _, g) (traced f) fuel starts (t, (a, [])) = Some r
          ∧ NoDup (visited r))
  ∧ (∃ r, SortedReverseDepthFirstWalk (λ _, g) (traced f) fuel starts (t, (a, []))
          = Some r
          ∧ NoDup (visited r)).
Proof.
  intros Hsort Hfuel Hfuels.
  destruct (DepthFirstWalk_outcome f g t a fuel start Hfuel) as (r1 & ? & ? & _).
  destruct (BreadthFirstWalk_outcome f g t a fuel start Hfuel) as (r2 & ? & ? & _).
  destruct (ReverseDepthFirstWalk_outcome f g t a fuel start Hfuel)
    as (r3 & ? & ? & _).
  destruct (SortedDepthFirstWalk_outcome f g t a fuel starts Hsort Hfuels)
    as (r4 & ? & ? & _).
  destruct (SortedReverseDepthFirstWalk_outcome f g t a fuel starts Hsort Hfuels)
    as (r5 & ? & ? & _).
  split; [by exists r1|]. split; [by exists r2|]. split; [by exists r3|].
  split; [by exists r4|by exists r5].
Qed.

Lemma NoDup_fmap_eq {X Y : Type} (h : X → Y) (l : list X) (x y : X) :
  NoDup (h <$> l) → x ∈ l → y ∈ l → h x = h y → x = y.
Proof.
  induction l as [|z l IH]; [by intros _ ?%not_elem_of_nil|].
  rewrite fmap_cons. intros [Hz Hnd]%NoDup_cons [->|Hx]%elem_of_cons
    [->|Hy]%elem_of_cons Heq; [done| | |by apply IH].
  - exfalso. apply Hz. rewrite Heq. by apply list_elem_of_fmap_2.
  - exfalso. apply Hz. rewrite <-Heq. by apply list_elem_of_fmap_2.
Qed.

(** ** Marshal *)

(** A tail of a graph: a vertex without outgoing edges. *)
Definition is_tail (g : GraphBase) (v : Vertex) : Prop :=
  Set_Len (downEdgesNoCopy g v) = 0.

(** What the visitor of [Marshal] does at a tail [l] of the nested graph:
    it connects [l] to the target of the edge, and removes the edge. *)
Definition connect_tail (edge : Vertex * Vertex) (ag : GraphBase) (l : Vertex)
    : GraphBase :=
  RemoveEdge (Connect ag (BasicEdge l edge.2)) edge.

#[local] Instance is_tail_dec g v : Decision (is_tail g v).
Proof. unfold is_tail. apply _. Defined.

Lemma is_tail_key g v v' : hashcode v = hashcode v' → is_tail g v → is_tail g v'.
Proof. unfold is_tail, downEdgesNoCopy. by intros ->. Qed.

Lemma Root_tick t g : Root t g = ((Root t g).1, S t).
Proof. done. Qed.

Lemma Root_of_unique t g r :
  keyed (vertices g) → is_root g r → (∀ v, is_root g v → v = r) →
  (Root t g).1 = inl r.
Proof.
  intros Hk Hr Huniq. destruct (Root_roots t g) as [Hnd Hin].
  specialize (Hnd Hk). unfold Root. simpl in *.
  set (roots := filter _ _) in *. clearbody roots.
  rewrite (singleton_of_NoDup roots r); [done|done|].
  intros x. rewrite Hin. split; [apply Huniq|by intros ->].
Qed.

Lemma Marshal_heads_plain t ag e :
  Subgraph e.2 = None → Marshal_heads t ag e = inr (t, ag).
Proof. intros He. unfold Marshal_heads. by rewrite He. Qed.

Lemma Marshal_tails_plain fuel t ag e :
  Subgraph e.1 = None → Marshal_tails fuel t ag e = inr (t, ag).
Proof. intros He. unfold Marshal_tails. by rewrite He. Qed.

Lemma Marshal_heads_wrapped t ag e sub r :
  Subgraph e.2 = Some sub → keyed (vertices sub) →
  is_root sub r → (∀ v, is_root sub v → v = r) →
  Marshal_heads t ag e
  = inr (S t, RemoveEdge (Connect ag (BasicEdge e.1 r)) e).
Proof.
  intros He Hk Hr Huniq. unfold Marshal_heads. rewrite He, Root_tick.
  by rewrite (Root_of_unique t sub r Hk Hr Huniq).
Qed.

(** The heads block, on an edge whose target wraps a graph with exactly
    one root: the source is connected to that root and the edge is
    removed, after one enumeration of the vertices of the wrapped graph. *)
Theorem Marshal_heads_connects_root t ag e sub r :
  Subgraph e.2 = Some sub → keyed (vertices sub) →
  is_root sub r → (∀ v, is_root sub v → v = r) →
  Marshal_heads t ag e
  = inr (S t, RemoveEdge (Connect ag (BasicEdge e.1 r)) e).
Proof. apply Marshal_heads_wrapped. Qed.

(** The keys of the set that [Descendants] returns are the keys that the
    walk reaches from the successors of [v], on any graph. *)
Lemma Descendants_keys (g : GraphBase) (v : Vertex) (t fuel : nat) :
  adj_keyed (downEdges g) →
  enough_fuel g (length (graph_values g)) ≤ fuel →
  ∃ s t', Descendants fuel t g v = Some (inl s, t')
          ∧ ∀ k, is_Some (s !! k) ↔ reached g (range t (downEdgesNoCopy g v)) k.
Proof.
  intros Hg Hfuel.
  unfold Descendants, DepthFirstWalk. rewrite DepthFirstWalk_loop_walk.
  destruct (fixed_walk_terminates g hashcode
              (expand_after (λ _, g) memoFunc downEdgesNoCopy id)
              downEdgesNoCopy id fuel
              (at_depth 0 (range t (downEdgesNoCopy g v))) (S t, ∅)) as [r Hr];
    [apply expand_after_targets|apply downEdgesNoCopy_of_graph|done
    |etrans; [apply Descendants_fuel_bound|exact Hfuel]|].
  rewrite Hr.
  apply (dfs_reach (λ _, g) memoFunc g (range t (downEdgesNoCopy g v))
           (λ seen s, ∀ k, is_Some (s !! k) ↔ k ∈ seen) Hg) in Hr
    as (He & seen & HJ & Hseen).
  - destruct r as [[err|] [t' s]]; [done|]. simpl in *. exists s, t'.
    split; [done|]. intros k. by rewrite HJ, Hseen.
  - intros seen' t' s w d HJ _ _ _. simpl. split; [done|]. split; [|done].
    intros k. unfold Set_Add. rewrite lookup_insert. case_decide as Hk.
    + subst k. split; [(tidy; set_solver)|by eexists].
    + rewrite HJ. tidy; set_solver.
  - intros k. rewrite lookup_empty. split; [by intros [? ?]|(tidy; set_solver)].
Qed.

(** [Descendants] returns the empty set exactly at the tails. *)
Lemma Descendants_tail (g : GraphBase) (v : Vertex) (t fuel : nat) :
  adj_keyed (downEdges g) →
  enough_fuel g (length (graph_values g)) ≤ fuel →
  ∃ s t', Descendants fuel t g v = Some (inl s, t')
          ∧ (Set_Len s = 0 ↔ is_tail g v).
Proof.
  intros Hg Hfuel.
  destruct (Descendants_keys g v t fuel Hg Hfuel) as (s & t' & Hd & Hs).
  exists s, t'. split; [done|]. unfold is_tail, Set_Len.
  rewrite <-(length_range t (downEdgesNoCopy g v)). split.
  - intros Hsz%map_size_empty_inv.
    destruct (range t (downEdgesNoCopy g v)) as [|x l] eqn:Hl; [done|].
    exfalso. assert (is_Some (s !! hashcode x)) as [? Hx].
    { apply Hs. exists x, x. split; [left|]. done. }
    by rewrite Hsz, lookup_empty in Hx.
  - intros Hl%nil_length_inv. apply map_size_empty_iff, map_empty. intros k.
    apply eq_None_not_Some. intros (x & w & Hx & _)%Hs.
    rewrite Hl in Hx. by apply not_elem_of_nil in Hx.
Qed.

(** On any graph, [Descendants] of [v] returns the empty set exactly when
    [v] has no outgoing edge, as when [v] is not in the graph at all. *)
Theorem Descendants_empty_iff_tail (g : GraphBase) (v : Vertex) (t fuel : nat) :
  adj_keyed (downEdges g) →
  enough_fuel g (length (graph_values g)) ≤ fuel →
  ∃ s t', Descendants fuel t g v = Some (inl s, t')
          ∧ (Set_Len s = 0 ↔ is_tail g v).
Proof. apply Descendants_tail. Qed.

Lemma Marshal_visit_effect fuel sub e v d t ag h :
  adj_keyed (downEdges sub) →
  enough_fuel sub (length (graph_values sub)) ≤ fuel →
  ∃ t', Marshal_visit fuel sub e v d (t, (ag, h))
        = (None, (t', (if decide (is_tail sub v) then connect_tail e ag v else ag, h))).
Proof.
  intros Hg Hfuel.
  destruct (Descendants_tail sub v t fuel Hg Hfuel) as (s & t' & Hd & Hs).
  exists t'. unfold Marshal_visit. rewrite Hd.
  destruct (decide (Set_Len s = 0)) as [Hz|Hz], (decide (is_tail sub v)) as [Ht|Ht];
    try done; exfalso; tidy; tauto.
Qed.

(** The tails block on an edge whose source wraps the graph [sub] with the
    single root [r]: every tail of [sub] that [r] reaches is connected to
    the target, once, in the order in which the walk meets them. *)
Lemma Marshal_tails_wrapped fuel t ag e sub r :
  Subgraph e.1 = Some sub → keyed (vertices sub) →
  is_root sub r → (∀ v, is_root sub v → v = r) →
  adj_keyed (downEdges sub) →
  enough_fuel sub (S (length (graph_values sub))) ≤ fuel →
  ∃ t' tails,
    Marshal_tails fuel t ag e = inr (t', foldl (connect_tail e) ag tails)
    ∧ NoDup (hashcode <$> tails)
    ∧ (∀ l, l ∈ tails →
         (∃ w, rtc (edge sub) r w ∧ hashcode w = hashcode l) ∧ is_tail sub l)
    ∧ (∀ w, rtc (edge sub) r w → is_tail sub w →
         ∃ l, l ∈ tails ∧ hashcode l = hashcode w).
Proof.
  intros He Hk Hr Huniq Hg Hfuel.
  assert (enough_fuel sub (length (graph_values sub)) ≤ fuel) as Hfuel'.
  { etrans; [|exact Hfuel]. apply enough_fuel_mono. lia. }
  unfold Marshal_tails. rewrite He, Root_tick.
  rewrite (Root_of_unique t sub r Hk Hr Huniq).
  unfold DepthFirstWalk. rewrite DepthFirstWalk_loop_walk.
  set (starts := range (S t) {[root_key := r]}).
  assert (∀ x, x ∈ starts ↔ x = r) as Hstarts.
  { intros x. unfold starts. rewrite elem_of_range. split.
    - by intros [k [_ ->]%lookup_singleton_Some].
    - intros ->. exists root_key. apply lookup_singleton_eq. }
  destruct (fixed_walk_terminates sub hashcode
              (expand_after (λ _, sub) (Marshal_visit fuel sub e) downEdgesNoCopy id)
              downEdgesNoCopy id fuel
              (at_depth 0 starts) (S (S t), (ag, None))) as [res Hres];
    [apply expand_after_targets|apply downEdgesNoCopy_of_graph|done| |].
  { etrans; [|exact Hfuel]. apply enough_fuel_mono.
    rewrite length_at_depth. unfold starts. rewrite length_range, map_size_singleton.
    lia. }
  rewrite Hres.
  apply (dfs_reach (λ _, sub) (Marshal_visit fuel sub e) sub starts
           (λ seen s,
              s.2 = None
              ∧ ∃ tails, s.1 = foldl (connect_tail e) ag tails
                  ∧ NoDup (hashcode <$> tails)
                  ∧ (∀ l, l ∈ tails → hashcode l ∈ seen ∧ is_tail sub l)
                  ∧ (∀ w, hashcode w ∈ seen → is_tail sub w →
                       ∃ l, l ∈ tails ∧ hashcode l = hashcode w)) Hg) in Hres
    as (Herr & seen & (Hh & tails & Hag & Hnd & Hin & Hcov) & Hseen).
  - destruct res as [[err|] [t' [ag' h]]]; [done|]. simpl in *. subst h ag'.
    exists t', tails. split; [done|]. split; [done|]. split.
    + intros l Hl. destruct (Hin l Hl) as [Hls Htail]. split; [|done].
      apply Hseen in Hls as (x & w & ->%Hstarts & Hxw & Hw). by exists w.
    + intros w Hw Htail. apply Hcov; [|done]. apply Hseen. exists r, w.
      split; [by apply Hstarts|]. done.
  - intros seen' t' [ag' h] v d (Hh & tails & Hag & Hnd & Hin & Hcov) _ Hv _.
    simpl in Hh, Hag. subst h ag'.
    destruct (Marshal_visit_effect fuel sub e v d t' (foldl (connect_tail e) ag tails)
                None Hg Hfuel') as [t'' ->].
    simpl. split; [done|]. split; [|done]. split; [done|].
    destruct (decide (is_tail sub v)) as [Ht|Ht].
    + exists (tails ++ [v]). split; [by rewrite foldl_app|]. split.
      { rewrite fmap_app. apply NoDup_app. split; [done|]. split.
        - intros k (l & -> & Hl)%list_elem_of_fmap Hkv%list_elem_of_singleton.
          destruct (Hin l Hl) as [Hls _]. by rewrite Hkv in Hls.
        - apply NoDup_singleton. }
      split.
      * intros l [Hl|Hl%list_elem_of_singleton]%elem_of_app.
        -- destruct (Hin l Hl) as [Hls Hlt]. split; [|done].
           apply elem_of_union. by right.
        -- subst l. split; [|done]. apply elem_of_union. left. by apply elem_of_singleton.
      * intros w [Hw%elem_of_singleton|Hw]%elem_of_union Hwt.
        -- exists v. split; [|done]. apply elem_of_app. right.
           by apply list_elem_of_singleton.
        -- destruct (Hcov w Hw Hwt) as (l & Hl & Hlw). exists l. split; [|done].
           apply elem_of_app. by left.
    + exists tails. split; [done|]. split; [done|]. split.
      * intros l Hl. destruct (Hin l Hl) as [Hls Hlt]. split; [|done].
        apply elem_of_union. by right.
      * intros w [Hw%elem_of_singleton|Hw]%elem_of_union Hwt; [|by apply Hcov].
        exfalso. apply Ht. by apply (is_tail_key sub w v).
  - simpl. split; [done|]. exists []. split; [done|]. split; [apply NoDup_nil_2|].
    split; [by intros l ?%not_elem_of_nil|by intros w ?%not_elem_of_empty].
Qed.

(** The tails block, on an edge whose source wraps a graph with exactly
    one root: it ends without halting, and what it has done to the outer
    graph is to connect to the target of the edge, once each, the tails
    of the wrapped graph that its root leads to, removing the edge each
    time; with no such tail the outer graph is as it was. *)
Theorem Marshal_tails_connects_tails fuel t ag e sub r :
  Subgraph e.1 = Some sub → keyed (vertices sub) →
  is_root sub r → (∀ v, is_root sub v → v = r) →
  adj_keyed (downEdges sub) →
  enough_fuel sub (S (length (graph_values sub))) ≤ fuel →
  ∃ t' tails,
    Marshal_tails fuel t ag e = inr (t', foldl (connect_tail e) ag tails)
    ∧ NoDup (hashcode <$> tails)
    ∧ (∀ l, l ∈ tails →
         (∃ w, rtc (edge sub) r w ∧ hashcode w = hashcode l) ∧ is_tail sub l)
    ∧ (∀ w, rtc (edge sub) r w → is_tail sub w →
         ∃ l, l ∈ tails ∧ hashcode l = hashcode w).
Proof. apply Marshal_tails_wrapped. Qed.

(** ** The order of a sorted walk *)

(** A visitor that neither reads nor advances the enumeration oracle. *)
Definition untimed {A : Type} (f : Vertex → nat → A → option error * A)
    : DepthWalkFunc A :=
  λ v d '(t, a), let '(e, a) := f v d a in (e, (t, a)).

(** No two vertices of one adjacency set have the same display name. *)
Definition distinct_names (adj : gmap Vertex VertexSet) : Prop :=
  ∀ k s k1 k2 v w,
    adj !! k = Some s → s !! k1 = Some v → s !! k2 = Some w →
    VertexName v = VertexName w → v = w.

(** What [sort.Sort] promises for [byVertexName]: the slice is permuted,
    and afterwards no element is less than one before it. *)
Definition sorts_by_name (sort : list Vertex → list Vertex) : Prop :=
  ∀ l, sort l ≡ₚ l
       ∧ StronglySorted (λ a b, byVertexName_Less b a = false) (sort l).

(** * Further properties *)

(** ** A failing visitor *)

(** The visitor [f] with a record of its outcomes: the vertex, the depth
    and the error, if any, of each invocation. *)
Definition audited {A : Type} (f : DepthWalkFunc A)
    : DepthWalkFunc (A * list (Vertex * nat * option error)) :=
  λ v d '(t, (a, log)),
    let '(e, (t, a)) := f v d (t, a) in
    (e, (t, (a, log ++ [(v, d, e)]))).

Definition outcomes {A : Type} (m : nat * (A * list (Vertex * nat * option error)))
    : list (Vertex * nat * option error) :=
  m.2.2.

(** The walk has returned [e] and the visitor has had the outcomes [log]:
    no invocation but the last has failed, and the last has failed exactly
    when the walk returns an error, which is then the error of the
    visitor. *)
Definition first_error (e : option error)
    (log : list (Vertex * nat * option error)) : Prop :=
  match e with
  | None => ∀ x, x ∈ log → x.2 = None
  | Some err =>
      ∃ pre v d, log = pre ++ [(v, d, Some err)] ∧ ∀ x, x ∈ pre → x.2 = None
  end.

Section audited_walks.
Context {A : Type}.
Variable f : DepthWalkFunc A.

Lemma audited_outcomes v d (m : nat * (A * list (Vertex * nat * option error))) :
  outcomes (audited f v d m).2 = outcomes m ++ [(v, d, (audited f v d m).1)].
Proof.
  destruct m as [t [a log]]. unfold audited, outcomes.
  by destruct (f v d (t, a)) as [e [t' a']].
Qed.

Lemma first_error_snoc v d e (log : list (Vertex * nat * option error)) :
  (∀ x, x ∈ log → x.2 = None) →
  match e with
  | Some err => first_error (Some err) (log ++ [(v, d, e)])
  | None => ∀ x, x ∈ log ++ [(v, d, e)] → x.2 = None
  end.
Proof.
  intros Hlog. destruct e as [err|].
  - by exists log, v, d.
  - intros x [Hx|Hx%list_elem_of_singleton]%elem_of_app; [by apply Hlog|by subst].
Qed.

(** A step that runs the audited visitor records its outcome. *)
Definition auditing (step : @walk_step (A * list (Vertex * nat * option error)))
    : Prop :=
  ∀ c m, outcomes (step c m).2
         = outcomes m ++ [(vertex c, depth c, (step c m).1.1)].

Lemma expand_after_auditing g adj order :
  auditing (expand_after g (audited f) adj order).
Proof.
  intros c m. unfold expand_after.
  pose proof (audited_outcomes (vertex c) (depth c) m) as Hl.
  by destruct (audited f _ _ m) as [[err|] [t' a']].
Qed.

Lemma expand_before_auditing g adj order :
  auditing (expand_before g (audited f) adj order).
Proof.
  intros c [t s]. unfold expand_before.
  pose proof (audited_outcomes (vertex c) (depth c) (S t, s)) as Hl.
  by destruct (audited f _ _ _) as [e m'].
Qed.

Lemma walk_loop_first_error key step fuel seen frontier m r :
  auditing step →
  outcomes m = [] →
  walk_loop key step fuel seen frontier m = Some r →
  first_error r.1 (outcomes r.2).
Proof.
  intros Hstep Hlog Hr.
  refine (walk_loop_rule key step
    (λ _ _ m, ∀ x, x ∈ outcomes m → x.2 = None)
    (λ e m, first_error e (outcomes m)) _ _ _ fuel seen frontier m r _ Hr).
  - done.
  - done.
  - intros seen' fr c m' Hnone _.
    pose proof (Hstep c m') as Hl.
    pose proof (first_error_snoc (vertex c) (depth c) (step c m').1.1 _ Hnone) as Hs.
    rewrite <-Hl in Hs.
    by destruct (step c m') as [[[err|] targets] m''].
  - rewrite Hlog. by intros x ?%not_elem_of_nil.
Qed.

Lemma breadth_first_error g fuel seen frontier m r :
  outcomes m = [] →
  BreadthFirstWalk_loop g (audited f) fuel seen frontier m = Some r →
  first_error r.1 (outcomes r.2).
Proof.
  intros Hlog Hr.
  refine (BreadthFirstWalk_loop_rule g (audited f)
    (λ _ _ m, ∀ x, x ∈ outcomes m → x.2 = None)
    (λ e m, first_error e (outcomes m)) _ _ fuel seen frontier m r _ Hr).
  - done.
  - intros seen' fr m' Hnone _.
    pose proof (BreadthFirstWalk_level_rule g (audited f)
      (λ _ _ _ m, ∀ x, x ∈ outcomes m → x.2 = None)
      (λ e _ _ m, first_error e (outcomes m))) as Hrule.
    lapply Hrule; [clear Hrule; intros Hrule|done].
    lapply Hrule; [clear Hrule; intros Hrule|done].
    lapply Hrule; [clear Hrule; intros Hrule|].
    + specialize (Hrule fr seen' [] m' Hnone).
      by destruct (BreadthFirstWalk_level g (audited f) fr seen' [] m')
        as [[[[err|] seen''] fr'] m''].
    + clear. intros c lv seen app m Hnone _.
      pose proof (audited_outcomes (vertex c) (depth c) m) as Hl.
      pose proof (first_error_snoc (vertex c) (depth c)
                    (audited f (vertex c) (depth c) m).1 _ Hnone) as Hs.
      rewrite <-Hl in Hs.
      by destruct (audited f (vertex c) (depth c) m) as [[err|] [t s]].
  - rewrite Hlog. by intros x ?%not_elem_of_nil.
Qed.

End audited_walks.

(** Each of the five walks ends, and it returns the error of the first
    invocation of the visitor that fails, after which the visitor is not
    invoked again; it returns no error when no invocation fails. *)
Theorem walks_stop_at_first_error {A : Type} (f : DepthWalkFunc A)
    (g : GraphBase) (start : VertexSet) (starts : list Vertex)
    (t : nat) (a : A) (fuel : nat) :
  (∀ l, sort_Sort l ≡ₚ l) →
  enough_fuel g (size start) ≤ fuel →
  enough_fuel g (length starts) ≤ fuel →
  (∃ r, DepthFirstWalk (λ _, g) (audited f) fuel start (t, (a, [])) = Some r
        ∧ first_error r.1 (outcomes r.2))
  ∧ (∃ r, BreadthFirstWalk (λ _, g) (audited f) fuel start (t, (a, [])) = Some r
          ∧ first_error r.1 (outcomes r.2))
  ∧ (∃ r, ReverseDepthFirstWalk (λ _, g) (audited f) fuel start (t, (a, [])) = Some r
          ∧ first_error r.1 (outcomes r.2))
  ∧ (∃ r, SortedDepthFirstWalk (λ _, g) (audited f) fuel starts (t, (a, [])) = Some r
          ∧ first_error r.1 (outcomes r.2))
  ∧ (∃ r, SortedReverseDepthFirstWalk (λ _, g) (audited f) fuel starts (t, (a, []))
          = Some r
          ∧ first_error r.1 (outcomes r.2)).
Proof.
  intros Hsort Hfuel Hfuels.
  assert (enough_fuel g (length (at_depth 0 (range t start))) ≤ fuel) as Hfuel'
    by (by rewrite length_at_depth, length_range).
  assert (enough_fuel g (length (at_depth 0 starts)) ≤ fuel) as Hfuels'
    by (by rewrite length_at_depth).
  split; [|split; [|split; [|split]]].
  - unfold DepthFirstWalk. rewrite DepthFirstWalk_loop_walk.
    destruct (fixed_walk_terminates g hashcode
                (expand_after (λ _, g) (audited f) downEdgesNoCopy id)
                downEdgesNoCopy id fuel (at_depth 0 (range t start)) (S t, (a, [])))
      as [r Hr];
      [apply expand_after_targets|apply downEdgesNoCopy_of_graph|done|done|].
    exists r. split; [done|].
    eapply walk_loop_first_error; [apply expand_after_auditing| |exact Hr]. done.
  - unfold BreadthFirstWalk.
    destruct (fixed_breadth_terminates g (audited f) (at_depth 0 (range t start))
                fuel (S t, (a, []))) as [r Hr]; [done|].
    exists r. split; [done|]. eapply breadth_first_error; [|exact Hr]. done.
  - unfold ReverseDepthFirstWalk. rewrite ReverseDepthFirstWalk_loop_walk.
    destruct (fixed_walk_terminates g id
                (expand_before (λ _, g) (audited f) upEdgesNoCopy id)
                upEdgesNoCopy id fuel (at_depth 0 (range t start)) (S t, (a, [])))
      as [r Hr];
      [apply expand_before_targets|apply upEdgesNoCopy_of_graph|done|done|].
    exists r. split; [done|].
    eapply walk_loop_first_error; [apply expand_before_auditing| |exact Hr]. done.
  - unfold SortedDepthFirstWalk. rewrite SortedDepthFirstWalk_loop_walk.
    destruct (fixed_walk_terminates g id
                (expand_after (λ _, g) (audited f) downEdgesNoCopy sort_Sort)
                downEdgesNoCopy sort_Sort fuel (at_depth 0 starts) (t, (a, [])))
      as [r Hr];
      [apply expand_after_targets|apply downEdgesNoCopy_of_graph|done|done|].
    exists r. split; [done|].
    eapply walk_loop_first_error; [apply expand_after_auditing| |exact Hr]. done.
  - unfold SortedReverseDepthFirstWalk. rewrite SortedReverseDepthFirstWalk_loop_walk.
    destruct (fixed_walk_terminates g id
                (expand_before (λ _, g) (audited f) upEdgesNoCopy sort_Sort)
                upEdgesNoCopy sort_Sort fuel (at_depth 0 starts) (t, (a, [])))
      as [r Hr];
      [apply expand_before_targets|apply upEdgesNoCopy_of_graph|done|done|].
    exists r. split; [done|].
    eapply walk_loop_first_error; [apply expand_before_auditing| |exact Hr]. done.
Qed.

(** ** What the walks reach *)

(** [b] is stored in the up-adjacency set of [a]: the relation that the
    expansion of a reverse walk follows. *)
Definition predecessor (g : GraphBase) (a b : Vertex) : Prop :=
  ∃ k, upEdgesNoCopy g a !! k = Some b.

(** A walk that dedups by the vertex itself, over the adjacency [adj] of
    a graph [g0] that the visitor leaves alone, with a step that does not
    fail.  [J] is what the step maintains between the seen set and the
    heap. *)
Section raw_reach.
Context {Heap : Type}.
Variable g0 : GraphBase.
Variable adj : GraphBase → Vertex → VertexSet.
Variable order : list Vertex → list Vertex.
Variable step : @walk_step Heap.
Variable starts : list Vertex.
Variable J : gset Vertex → Heap → Prop.

Hypothesis order_perm : ∀ l, order l ≡ₚ l.

Definition stored (a b : Vertex) : Prop := ∃ k, adj g0 a !! k = Some b.

(** The vertices that a start vertex leads to, itself included. *)
Definition met (x : Vertex) : Prop := ∃ s, s ∈ starts ∧ rtc stored s x.

Hypothesis step_ok : ∀ seen c t s,
  J seen s → vertex c ∉ seen →
  (step c (t, s)).1.1 = None
  ∧ J ({[vertex c]} ∪ seen) (step c (t, s)).2.2
  ∧ ∃ t0, (step c (t, s)).1.2 = order (range t0 (adj g0 (vertex c))).

Lemma raw_reach fuel m r :
  J ∅ m.2 →
  walk_loop id step fuel ∅ (at_depth 0 starts) m = Some r →
  r.1 = None ∧ ∃ seen, J seen r.2.2 ∧ ∀ x, x ∈ seen ↔ met x.
Proof.
  intros HJ Hr.
  set (covered := λ (seen : gset Vertex) (fr : list vertexAtDepth) (b : Vertex),
         b ∈ seen ∨ ∃ c, c ∈ fr ∧ vertex c = b).
  refine (walk_loop_rule id _
    (λ seen fr m,
       J seen m.2 ∧ (∀ x, x ∈ seen → met x)
       ∧ (∀ c, c ∈ fr → met (vertex c))
       ∧ (∀ a b, a ∈ seen → stored a b → covered seen fr b)
       ∧ (∀ x, x ∈ starts → covered seen fr x))
    (λ e m, e = None ∧ ∃ seen, J seen m.2 ∧ ∀ x, x ∈ seen ↔ met x)
    _ _ _ fuel ∅ (at_depth 0 starts) m r _ Hr).
  - intros seen m' (HJ' & Hsound & _ & Hclosed & Hstart). split; [done|].
    exists seen. split; [done|]. intros x. split; [apply Hsound|].
    intros (s & Hs & Hsx).
    assert (s ∈ seen) as Hss.
    { destruct (Hstart s Hs) as [|(c & ?%not_elem_of_nil & _)]; done. }
    clear Hs. induction Hsx as [s|s y x Hsy Hyx IH]; [done|].
    apply IH. destruct (Hclosed s y Hss Hsy) as [|(c & ?%not_elem_of_nil & _)]; done.
  - intros seen fr c m' (HJ' & Hsound & Hfr & Hclosed & Hstart) Hc.
    assert (∀ b, covered seen (fr ++ [c]) b → covered seen fr b) as Hcov.
    { intros b [?|(c' & [?|Heq%list_elem_of_singleton]%elem_of_app & Hb)].
      - by left.
      - right. by exists c'.
      - left. by subst. }
    split; [done|]. split; [done|]. split.
    { intros c' Hc'. apply Hfr, elem_of_app. by left. }
    split; [intros a b Ha Hab; by apply Hcov, (Hclosed a)|].
    intros x Hx. by apply Hcov, Hstart.
  - intros seen fr c [t' s'] (HJ' & Hsound & Hfr & Hclosed & Hstart) Hc.
    simpl in HJ', Hc.
    assert (met (vertex c)) as Hrc.
    { apply Hfr, elem_of_app. right. by apply list_elem_of_singleton. }
    destruct (step_ok seen c t' s' HJ' Hc) as (He & HJ'' & t0 & Htargets).
    destruct (step c (t', s')) as [[[err|] targets] [t'' s'']]; simpl in *; [done|].
    subst targets.
    assert (∀ b, covered seen (fr ++ [c]) b
                 → covered ({[vertex c]} ∪ seen)
                     (fr ++ at_depth (depth c + 1)
                                (order (range t0 (adj g0 (vertex c))))) b) as Hcov.
    { intros b [?|(c' & [?|Heq%list_elem_of_singleton]%elem_of_app & Hb)].
      - left. apply elem_of_union. by right.
      - right. exists c'. split; [|done]. apply elem_of_app. by left.
      - left. subst c' b. apply elem_of_union. left. by apply elem_of_singleton. }
    split; [done|]. split.
    { intros x [Hx%elem_of_singleton|Hx]%elem_of_union; [by subst|by apply Hsound]. }
    split.
    { intros c' [Hc'|Hc']%elem_of_app.
      - apply Hfr, elem_of_app. by left.
      - apply elem_of_at_depth in Hc' as (w & -> & Hw). simpl.
        rewrite order_perm in Hw. apply elem_of_range in Hw.
        destruct Hrc as (s & Hs & Hsc). exists s. split; [done|].
        by apply (rtc_r _ (vertex c)). }
    split; [|intros x Hx; by apply Hcov, Hstart].
    intros a b [Ha%elem_of_singleton|Ha]%elem_of_union Hab;
      [|by apply Hcov, (Hclosed a)].
    subst a. right. exists {| vertex := b; depth := depth c + 1 |}. split; [|done].
    apply elem_of_app. right. apply elem_of_at_depth. exists b. split; [done|].
    rewrite order_perm. by apply elem_of_range.
  - split; [done|]. split; [by intros x ?%not_elem_of_empty|]. split.
    { intros c (x & -> & Hx)%elem_of_at_depth. by exists x. }
    split; [by intros a b ?%not_elem_of_empty|].
    intros x Hx. right. exists {| vertex := x; depth := 0 |}. split; [|done].
    apply elem_of_at_depth. by exists x.
Qed.

End raw_reach.

Lemma Ancestors_keys (g : GraphBase) (v : Vertex) (t fuel : nat) :
  enough_fuel g (length (graph_values g)) ≤ fuel →
  ∃ s t', Ancestors fuel t g v = Some (inl s, t')
          ∧ ∀ w, Set_Include s w = true
                 ↔ ∃ x, tc (predecessor g) v x ∧ hashcode x = hashcode w.
Proof.
  intros Hfuel.
  unfold Ancestors, ReverseDepthFirstWalk. rewrite ReverseDepthFirstWalk_loop_walk.
  destruct (fixed_walk_terminates g id
              (expand_before (λ _, g) memoFunc upEdgesNoCopy id)
              upEdgesNoCopy id fuel
              (at_depth 0 (range t (upEdgesNoCopy g v))) (S t, ∅)) as [r Hr];
    [apply expand_before_targets|apply upEdgesNoCopy_of_graph|done
    |etrans; [apply Ancestors_fuel_bound|exact Hfuel]|].
  rewrite Hr.
  apply (raw_reach g upEdgesNoCopy id
           (expand_before (λ _, g) memoFunc upEdgesNoCopy id)
           (range t (upEdgesNoCopy g v))
           (λ seen s, ∀ k, is_Some (s !! k) ↔ ∃ x, x ∈ seen ∧ hashcode x = k))
    in Hr as (He & seen & HJ & Hseen).
  - destruct r as [[err|] [t' s]]; [done|]. simpl in *. exists s, t'.
    split; [done|]. intros w. rewrite Set_Include_true, HJ. split.
    + intros (x & (s0 & Hs0 & Hsx)%Hseen & Hx). exists x. split; [|done].
      eapply tc_rtc_r; [|done]. apply tc_once. by apply elem_of_range in Hs0.
    + intros (x & Hvx & Hx). exists x. split; [|done]. apply Hseen.
      apply tc_inv_l in Hvx as (s0 & Hvs & Hsx). exists s0. split; [|done].
      by apply elem_of_range.
  - done.
  - intros seen' c t' s HJ Hc. simpl. split; [done|]. split; [|by eexists].
    intros k. unfold Set_Add. rewrite lookup_insert. case_decide as Hk.
    + subst k. split; [|by eexists]. intros _. exists (vertex c). split; [|done].
      apply elem_of_union. left. by apply elem_of_singleton.
    + rewrite HJ. split.
      * intros (x & Hx & Hxk). exists x. split; [|done]. apply elem_of_union. by right.
      * intros (x & [Hx%elem_of_singleton|Hx]%elem_of_union & Hxk);
          [by subst|by exists x].
  - intros k. simpl. rewrite lookup_empty. split; [by intros [? ?]|].
    by intros (x & ?%not_elem_of_empty & _).
Qed.

(** On any graph, [Ancestors] of [v] returns the set of the identity keys
    of the vertices that a non-empty path up the graph leads to from [v]. *)
Theorem Ancestors_reachable (g : GraphBase) (v : Vertex) (t fuel : nat) :
  enough_fuel g (length (graph_values g)) ≤ fuel →
  ∃ s t', Ancestors fuel t g v = Some (inl s, t')
          ∧ ∀ w, Set_Include s w = true
                 ↔ ∃ x, tc (predecessor g) v x ∧ hashcode x = hashcode w.
Proof. apply Ancestors_keys. Qed.

Lemma raw_walk_visits {A : Type} (g : GraphBase)
    (step : @walk_step (A * list (Vertex * nat))) adj order starts fuel m r :
  fixed_targets g adj order step → logging step →
  (∀ c m, (step c m).1.1 = None) → (∀ l, order l ≡ₚ l) →
  log_of m = [] →
  walk_loop id step fuel ∅ (at_depth 0 starts) m = Some r →
  r.1 = None ∧ ∀ x, x ∈ visited r ↔ met g adj starts x.
Proof.
  intros Htargets Hlogging Hstep Horder Hlog Hr.
  apply (raw_reach g adj order step starts
           (λ seen s, ∀ x, x ∈ seen ↔ x ∈ s.2.*1) Horder) in Hr
    as (He & seen & HJ & Hseen).
  - split; [done|]. intros x. unfold visited, log_of. by rewrite <-HJ.
  - intros seen c t s HJ _. split; [apply Hstep|]. split; [|by apply Htargets].
    pose proof (Hlogging c (t, s)) as Hl. unfold log_of in Hl. simpl in Hl.
    intros x. rewrite Hl, fmap_app, elem_of_app, elem_of_union, HJ.
    simpl. rewrite list_elem_of_singleton, elem_of_singleton. tidy; tauto.
  - intros x. unfold log_of in Hlog. rewrite Hlog.
    split; [by intros ?%not_elem_of_empty|by intros ?%not_elem_of_nil].
Qed.

(** With a visitor that does not fail, each depth-first walk invokes the
    visitor on what the start vertices lead to and on nothing else:
    [DepthFirstWalk] on one vertex for each identity key that a path
    reaches, the other three on every vertex that the stored adjacency
    leads to. *)
Theorem walks_visit_reachable {A : Type} (f : DepthWalkFunc A)
    (g : GraphBase) (start : VertexSet) (starts : list Vertex)
    (t : nat) (a : A) (fuel : nat) :
  (∀ v d m, (f v d m).1 = None) →
  (∀ l, sort_Sort l ≡ₚ l) →
  adj_keyed (downEdges g) →
  enough_fuel g (size start) ≤ fuel →
  enough_fuel g (length starts) ≤ fuel →
  (∃ r, DepthFirstWalk (λ _, g) (traced f) fuel start (t, (a, [])) = Some r
        ∧ r.1 = None
        ∧ ∀ k, k ∈ hashcode <$> visited r
               ↔ ∃ x w, (∃ k0, start !! k0 = Some x) ∧ rtc (edge g) x w
                        ∧ hashcode w = k)
  ∧ (∃ r, ReverseDepthFirstWalk (λ _, g) (traced f) fuel start (t, (a, [])) = Some r
          ∧ r.1 = None
          ∧ ∀ x, x ∈ visited r
                 ↔ ∃ s, (∃ k0, start !! k0 = Some s) ∧ rtc (predecessor g) s x)
  ∧ (∃ r, SortedDepthFirstWalk (λ _, g) (traced f) fuel starts (t, (a, [])) = Some r
          ∧ r.1 = None
          ∧ ∀ x, x ∈ visited r ↔ ∃ s, s ∈ starts ∧ rtc (successor g) s x)
  ∧ (∃ r, SortedReverseDepthFirstWalk (λ _, g) (traced f) fuel starts (t, (a, []))
          = Some r
          ∧ r.1 = None
          ∧ ∀ x, x ∈ visited r ↔ ∃ s, s ∈ starts ∧ rtc (predecessor g) s x).
Proof.
  intros Hf Hsort Hg Hfuel Hfuels.
  assert (enough_fuel g (length (at_depth 0 (range t start))) ≤ fuel) as Hfuel'
    by (by rewrite length_at_depth, length_range).
  assert (enough_fuel g (length (at_depth 0 starts)) ≤ fuel) as Hfuels'
    by (by rewrite length_at_depth).
  assert (∀ v d m, (traced f v d m).1 = None) as Hf'
    by (intros; by apply traced_no_error).
  split; [|split; [|split]].
  - unfold DepthFirstWalk. rewrite DepthFirstWalk_loop_walk.
    destruct (fixed_walk_terminates g hashcode
                (expand_after (λ _, g) (traced f) downEdgesNoCopy id)
                downEdgesNoCopy id fuel (at_depth 0 (range t start)) (S t, (a, [])))
      as [r Hr];
      [apply expand_after_targets|apply downEdgesNoCopy_of_graph|done|done|].
    exists r. split; [done|].
    apply (dfs_reach (λ _, g) (traced f) g (range t start)
             (λ seen s, ∀ k, k ∈ seen ↔ k ∈ hashcode <$> s.2.*1) Hg) in Hr
      as (He & seen & HJ & Hseen).
    + split; [done|]. intros k. unfold visited, log_of. rewrite <-HJ, Hseen.
      unfold reached. by setoid_rewrite elem_of_range.
    + intros seen t' s v d HJ _ _ _. split; [apply Hf'|]. split; [|done].
      pose proof (traced_log f v d (t', s)) as Hl. unfold log_of in Hl.
      intros k.
      rewrite Hl, !fmap_app, elem_of_app, elem_of_union, HJ. simpl.
      rewrite list_elem_of_singleton, elem_of_singleton. tidy; tauto.
    + intros k. simpl.
      split; [by intros ?%not_elem_of_empty|by intros ?%not_elem_of_nil].
  - unfold ReverseDepthFirstWalk. rewrite ReverseDepthFirstWalk_loop_walk.
    destruct (fixed_walk_terminates g id
                (expand_before (λ _, g) (traced f) upEdgesNoCopy id)
                upEdgesNoCopy id fuel (at_depth 0 (range t start)) (S t, (a, [])))
      as [r Hr];
      [apply expand_before_targets|apply upEdgesNoCopy_of_graph|done|done|].
    exists r. split; [done|].
    apply (raw_walk_visits g _ upEdgesNoCopy id) in Hr as [He Hv];
      [|apply expand_before_targets|apply expand_before_logging
       |intros; by apply expand_before_no_error|done|done].
    split; [done|]. intros x. rewrite Hv. unfold met.
    by setoid_rewrite elem_of_range.
  - unfold SortedDepthFirstWalk. rewrite SortedDepthFirstWalk_loop_walk.
    destruct (fixed_walk_terminates g id
                (expand_after (λ _, g) (traced f) downEdgesNoCopy sort_Sort)
                downEdgesNoCopy sort_Sort fuel (at_depth 0 starts) (t, (a, [])))
      as [r Hr];
      [apply expand_after_targets|apply downEdgesNoCopy_of_graph|done|done|].
    exists r. split; [done|].
    apply (raw_walk_visits g _ downEdgesNoCopy sort_Sort) in Hr as [He Hv];
      [|apply expand_after_targets|apply expand_after_logging
       |intros; by apply expand_after_no_error|done|done].
    done.
  - unfold SortedReverseDepthFirstWalk. rewrite SortedReverseDepthFirstWalk_loop_walk.
    destruct (fixed_walk_terminates g id
                (expand_before (λ _, g) (traced f) upEdgesNoCopy sort_Sort)
                upEdgesNoCopy sort_Sort fuel (at_depth 0 starts) (t, (a, [])))
      as [r Hr];
      [apply expand_before_targets|apply upEdgesNoCopy_of_graph|done|done|].
    exists r. split; [done|].
    apply (raw_walk_visits g _ upEdgesNoCopy sort_Sort) in Hr as [He Hv];
      [|apply expand_before_targets|apply expand_before_logging
       |intros; by apply expand_before_no_error|done|done].
    done.
Qed.

(** ** The depth that the visitor is given *)

Section walk_depths.
Context {A : Type}.
Variable f : DepthWalkFunc A.
Variable g : GraphBase.
Variable adj : GraphBase → Vertex → VertexSet.
Variable starts : list Vertex.

(** A path of [d] stored edges leads from a start vertex to [v]. *)
Definition at_distance (d : nat) (v : Vertex) : Prop :=
  ∃ s, s ∈ starts ∧ nsteps (stored g adj) d s v.

Lemma at_distance_start c : c ∈ at_depth 0 starts → at_distance (depth c) (vertex c).
Proof. intros (x & -> & Hx)%elem_of_at_depth. exists x. split; [done|]. constructor. Qed.

Lemma at_distance_targets c t0 c' :
  at_distance (depth c) (vertex c) →
  c' ∈ at_depth (depth c + 1) (range t0 (adj g (vertex c))) →
  at_distance (depth c') (vertex c').
Proof.
  intros (s & Hs & Hsc) (w & -> & Hw%elem_of_range)%elem_of_at_depth.
  exists s. split; [done|]. simpl. rewrite Nat.add_1_r. by eapply nsteps_r.
Qed.

Lemma walk_loop_depths key (step : @walk_step (A * list (Vertex * nat)))
    order fuel seen m r :
  fixed_targets g adj order step → logging step → (∀ l, order l ≡ₚ l) →
  log_of m = [] →
  walk_loop key step fuel seen (at_depth 0 starts) m = Some r →
  ∀ v d, (v, d) ∈ log_of r.2 → at_distance d v.
Proof.
  intros Htargets Hlogging Horder Hlog Hr.
  set (sound := λ m : nat * (A * list (Vertex * nat)),
         ∀ v d, (v, d) ∈ log_of m → at_distance d v).
  refine (walk_loop_rule key step
    (λ _ fr m, (∀ c, c ∈ fr → at_distance (depth c) (vertex c)) ∧ sound m)
    (λ _ m, sound m) _ _ _ fuel seen (at_depth 0 starts) m r _ Hr).
  - by intros seen' m' [_ ?].
  - intros seen' fr c m' [Hfr Hm] _. split; [|done].
    intros c' Hc'. apply Hfr, elem_of_app. by left.
  - intros seen' fr c m' [Hfr Hm] _.
    assert (at_distance (depth c) (vertex c)) as Hc.
    { apply Hfr, elem_of_app. right. by apply list_elem_of_singleton. }
    assert (sound (step c m').2) as Hm'.
    { intros v d. rewrite Hlogging.
      intros [?|[= -> ->]%list_elem_of_singleton]%elem_of_app; [by apply Hm|done]. }
    pose proof (Htargets c m') as Ht.
    destruct (step c m') as [[[err|] targets] m'']; simpl in *; [done|].
    destruct (Ht eq_refl) as [t0 ->]. split; [|done].
    intros c' [Hc'|Hc']%elem_of_app.
    + apply Hfr, elem_of_app. by left.
    + apply (at_distance_targets c t0); [done|].
      apply elem_of_at_depth in Hc' as (w & -> & Hw). rewrite Horder in Hw.
      apply elem_of_at_depth. by exists w.
  - split; [apply at_distance_start|]. intros v d. rewrite Hlog.
    by intros ?%not_elem_of_nil.
Qed.

End walk_depths.

Lemma breadth_depths {A : Type} (f : DepthWalkFunc A) (g : GraphBase)
    (starts : list Vertex) fuel seen m r :
  log_of m = [] →
  BreadthFirstWalk_loop (λ _, g) (traced f) fuel seen (at_depth 0 starts) m = Some r →
  ∀ v d, (v, d) ∈ log_of r.2 → at_distance g downEdgesNoCopy starts d v.
Proof.
  intros Hlog Hr.
  set (near := λ c, at_distance g downEdgesNoCopy starts (depth c) (vertex c)).
  set (sound := λ m : nat * (A * list (Vertex * nat)),
         ∀ v d, (v, d) ∈ log_of m → at_distance g downEdgesNoCopy starts d v).
  refine (BreadthFirstWalk_loop_rule (λ _, g) (traced f)
    (λ _ fr m, (∀ c, c ∈ fr → near c) ∧ sound m)
    (λ _ m, sound m) _ _ fuel seen (at_depth 0 starts) m r _ Hr).
  - by intros seen' m' [_ ?].
  - intros seen' fr m' [Hfr Hm] _.
    pose proof (BreadthFirstWalk_level_rule (λ _, g) (traced f)
      (λ lv _ app m, (∀ c, c ∈ lv → near c) ∧ (∀ c, c ∈ app → near c) ∧ sound m)
      (λ _ _ app m, (∀ c, c ∈ app → near c) ∧ sound m)) as Hrule.
    lapply Hrule; [clear Hrule; intros Hrule|by intros ??? (_ & ? & ?)].
    lapply Hrule; [clear Hrule; intros Hrule|].
    lapply Hrule; [clear Hrule; intros Hrule|].
    + specialize (Hrule fr seen' [] m').
      lapply Hrule; [clear Hrule; intros Hrule|].
      * by destruct (BreadthFirstWalk_level _ _ fr seen' [] m')
          as [[[[err|] seen''] fr'] m'']; [apply Hrule|].
      * split; [done|]. split; [by intros c ?%not_elem_of_nil|done].
    + clear -shuffle_perm. intros c lv seen app m (Hlv & Happ & Hm) _.
      assert (near c) as Hc by (apply Hlv; left).
      assert (sound (traced f (vertex c) (depth c) m).2) as Hm'.
      { intros v d. rewrite traced_log.
        intros [?|[= -> ->]%list_elem_of_singleton]%elem_of_app; [by apply Hm|done]. }
      destruct (traced f (vertex c) (depth c) m) as [[err|] [t s]]; [done|].
      split; [intros c' Hc'; apply Hlv; by right|]. split; [|done].
      intros c' [Hc'|Hc']%elem_of_app; [by apply Happ|].
      by apply (at_distance_targets g downEdgesNoCopy starts c t).
    + clear -shuffle_perm. intros c lv seen app m (Hlv & Happ & Hm) _.
      split; [intros c' Hc'; apply Hlv; by right|done].
  - split; [apply at_distance_start|]. intros v d. rewrite Hlog.
    by intros ?%not_elem_of_nil.
Qed.


(** [BreadthFirstWalk] hands to the visitor, with a vertex, the length of
    a shortest path from the start set to the identity key of the vertex. *)
Theorem BreadthFirstWalk_shortest_depth {A : Type} (f : DepthWalkFunc A)
    (g : GraphBase) (start : VertexSet) (t : nat) (a : A) (fuel : nat) :
  enough_fuel g (size start) ≤ fuel →
  ∃ r, BreadthFirstWalk (λ _, g) (traced f) fuel start (t, (a, [])) = Some r
       ∧ ∀ v d, (v, d) ∈ log_of r.2 →
           (∃ s, (∃ k, start !! k = Some s) ∧ nsteps (successor g) d s v)
           ∧ ∀ n s w, n < d → (∃ k, start !! k = Some s) →
               nsteps (successor g) n s w → hashcode w ≠ hashcode v.
Proof.
  intros Hfuel.
  destruct (fixed_breadth_terminates g (traced f) (at_depth 0 (range t start))
              fuel (S t, (a, []))) as [r Hr].
  { by rewrite length_at_depth, length_range. }
  exists r. split; [exact Hr|]. intros v d Hvd. split.
  - destruct (breadth_depths f g (range t start) fuel ∅ (S t, (a, [])) r eq_refl Hr
                v d Hvd) as (s & Hs%elem_of_range & Hsv).
    by exists s.
  - intros n s w Hn Hs Hsw Hkey.
    apply list_elem_of_split in Hvd as (pre & post & Hlog).
    pose proof (breadth_level_ordered f g start fuel t a r Hr pre v d post Hlog
                  n (hashcode w) Hn) as Hin.
    pose proof (breadth_NoDup f _ _ _ (S t, (a, [])) r eq_refl Hr) as Hnd.
    rewrite Hlog, fmap_app, fmap_cons, fmap_app, fmap_cons in Hnd. simpl in Hnd.
    apply NoDup_app in Hnd as (_ & Hnd & _). apply (Hnd (hashcode v)).
    + rewrite <-Hkey. apply Hin. by exists s, w.
    + left.
Qed.

(** ** Root, read backwards *)

Lemma Root_answers (t : nat) (g : GraphBase) :
  (∀ r, (Root t g).1 = inl r → is_root g r ∧ ∀ v, is_root g v → v = r)
  ∧ ((Root t g).1 = inr NoRootsFound → ∀ v, ¬ is_root g v)
  ∧ (∀ roots, (Root t g).1 = inr (MultipleRoots roots) →
       1 < length roots ∧ ∀ x, x ∈ roots ↔ is_root g x)
  ∧ (∀ msg, (Root t g).1 ≠ inr (VisitorError msg))
  ∧ (Root t g).2 = S t.
Proof.
  destruct (Root_roots t g) as [_ Hin]. unfold Root. simpl in *.
  set (roots := filter _ _) in *. clearbody roots.
  destruct (decide (1 < length roots)) as [Hlen|Hlen].
  - split; [done|]. split; [done|]. split; [|done]. by intros ? [= <-].
  - destruct roots as [|r0 [|r1 roots]]; simpl in *; [| |lia].
    + split; [done|]. split; [|done]. intros _ v Hv%Hin. by apply not_elem_of_nil in Hv.
    + split; [|done]. intros r [= <-]. split; [apply Hin; left|].
      by intros v Hv%Hin%list_elem_of_singleton.
Qed.

(** What [Root] returns tells how many roots the graph has: a vertex is
    returned only when it is the one root, [NoRootsFound] only when there
    is none, and [MultipleRoots] only with a list of at least two entries
    that holds the roots and nothing else.  [Root] returns no other error,
    and it enumerates the vertices once. *)
Theorem Root_sound (t : nat) (g : GraphBase) :
  (∀ r, (Root t g).1 = inl r → is_root g r ∧ ∀ v, is_root g v → v = r)
  ∧ ((Root t g).1 = inr NoRootsFound → ∀ v, ¬ is_root g v)
  ∧ (∀ roots, (Root t g).1 = inr (MultipleRoots roots) →
       1 < length roots ∧ ∀ x, x ∈ roots ↔ is_root g x)
  ∧ (∀ msg, (Root t g).1 ≠ inr (VisitorError msg))
  ∧ (Root t g).2 = S t.
Proof. exact (Root_answers t g). Qed.

(** ** Marshal, on any graph *)

Lemma Marshal_edge_halted fuel opts h es :
  foldl (Marshal_edge fuel opts) (inl h) es = inl h.
Proof. by induction es. Qed.

(** [Marshal] leaves alone a graph in which no edge touches a vertex that
    the enabled options look at: the target of an edge for
    [ConnectSubgraphHeads], its source for [ConnectSubgraphTails].  With
    both options off this is every graph. *)
Theorem Marshal_plain (fuel t : nat) (ag : GraphBase) (opts : MarshalOpts) :
  (∀ e, e ∈ edges ag →
     (ConnectSubgraphHeads opts = true → Subgraph e.2 = None)
     ∧ (ConnectSubgraphTails opts = true → Subgraph e.1 = None)) →
  Marshal fuel t ag opts = inr (S t, ag).
Proof.
  intros Hplain. unfold Marshal, Edges.
  assert (∀ e, e ∈ shuffle _ t (elements (edges ag)) →
            Marshal_edge fuel opts (inr (S t, ag)) e = inr (S t, ag)) as Hes.
  { intros e He. rewrite shuffle_perm in He. apply elem_of_elements in He.
    destruct (Hplain e He) as [Hheads Htails]. unfold Marshal_edge.
    destruct (ConnectSubgraphHeads opts), (ConnectSubgraphTails opts);
      rewrite ?Marshal_heads_plain, ?Marshal_tails_plain by auto; done. }
  induction (shuffle _ t (elements (edges ag))) as [|e es IH]; [done|].
  cbn [foldl]. rewrite Hes by left. apply IH. intros e' He'. apply Hes. by right.
Qed.

(** [Marshal] does not return when an enabled option meets an edge at a
    vertex that wraps a graph without exactly one root: the run is
    halted, as by [log.Fatalf]. *)
Theorem Marshal_halts_without_root (fuel t : nat) (ag : GraphBase)
    (opts : MarshalOpts) (e : Vertex * Vertex) (sub : GraphBase) :
  e ∈ edges ag →
  (ConnectSubgraphHeads opts = true ∧ Subgraph e.2 = Some sub)
  ∨ (ConnectSubgraphTails opts = true ∧ Subgraph e.1 = Some sub) →
  (¬ ∃ r, is_root sub r ∧ ∀ v, is_root sub v → v = r) →
  ∃ h, Marshal fuel t ag opts = inl h.
Proof.
  intros He Hwraps Hnone. unfold Marshal, Edges.
  assert (∀ t', ∃ err, Root t' sub = (inr err, S t')) as Hroot.
  { intros t'. rewrite Root_tick.
    destruct (Root_answers t' sub) as (Hone & _).
    destruct (Root t' sub).1 as [r|err]; [|by eexists].
    exfalso. apply Hnone. exists r. by apply Hone. }
  assert (∀ m, ∃ h, Marshal_edge fuel opts m e = inl h) as Hedge.
  { intros [h|[t' ag']]; [by exists h|]. unfold Marshal_edge.
    destruct Hwraps as [[Hopt Hsub]|[Hopt Hsub]]; rewrite Hopt.
    - unfold Marshal_heads. rewrite Hsub. destruct (Hroot t') as [err ->].
      by eexists.
    - destruct (if ConnectSubgraphHeads opts then _ else _) as [h|[t'' ag'']];
        [by eexists|].
      unfold Marshal_tails. rewrite Hsub. destruct (Hroot t'') as [err ->].
      by eexists. }
  assert (e ∈ shuffle _ t (elements (edges ag))) as Hin.
  { rewrite shuffle_perm. by apply elem_of_elements. }
  generalize (inr (S t, ag) : halted + nat * GraphBase).
  induction (shuffle _ t (elements (edges ag))) as [|e' es IH]; intros m.
  - by apply not_elem_of_nil in Hin.
  - cbn [foldl]. apply elem_of_cons in Hin as [<-|Hin].
    + destruct (Hedge m) as [h ->]. exists h. apply Marshal_edge_halted.
    + by apply IH.
Qed.

(** ** TransitiveReduction, on any graph *)

(** [g'] is [g] with edges removed. *)
Definition pruned (g' g : GraphBase) : Prop :=
  vertices g' = vertices g ∧ edges g' ⊆ edges g ∧ sub_adj g' g.

Lemma pruned_refl g : pruned g g.
Proof. split; [done|]. split; [done|apply sub_adj_refl]. Qed.

Lemma pruned_trans g1 g2 g3 : pruned g1 g2 → pruned g2 g3 → pruned g1 g3.
Proof.
  intros (Hv12 & He12 & Ha12) (Hv23 & He23 & Ha23).
  split; [congruence|]. split; [by trans (edges g2)|by eapply sub_adj_trans].
Qed.

Lemma foldl_RemoveEdge_pruned g u ws :
  pruned (foldl (λ g vPrime, RemoveEdge g (BasicEdge u vPrime)) g ws) g.
Proof.
  split; [|split; [|apply foldl_RemoveEdge_sub_adj]].
  - revert g. induction ws as [|w ws IH]; intros g; [done|]. simpl. by rewrite IH.
  - revert g. induction ws as [|w ws IH]; intros g; [done|]. simpl.
    etrans; [apply IH|]. simpl. apply subseteq_difference_l. done.
Qed.

Lemma TransitiveReduction_walk_pruned (g0 g : GraphBase) (u : Vertex) fuel t :
  sub_adj g g0 →
  enough_fuel g0 (length (graph_values g0)) ≤ fuel →
  ∃ r, DepthFirstWalk id (TransitiveReduction_visit u) fuel
         (downEdgesNoCopy g u) (t, g) = Some r
       ∧ pruned r.2.2 g.
Proof.
  intros Hsub Hfuel. unfold DepthFirstWalk. rewrite DepthFirstWalk_loop_walk.
  apply (bounded_walk_terminates g0 hashcode _ (λ m, pruned m.2 g)).
  - intros c [t' g'] Hpr. unfold expand_after.
    rewrite TransitiveReduction_visit_eq. simpl in *.
    set (g'' := foldl _ g' _).
    assert (pruned g'' g) as Hpr''.
    { eapply pruned_trans; [apply foldl_RemoveEdge_pruned|done]. }
    assert (sub_adj g'' g0) as Hsub0.
    { eapply sub_adj_trans; [apply Hpr''|done]. }
    split; [done|]. intros _. split.
    + intros x [k Hk]%elem_of_range.
      eapply (downEdgesNoCopy_of_graph g0), sub_adj_lookup; done.
    + rewrite length_range. etrans; [by apply sub_adj_size|].
      apply downEdgesNoCopy_of_graph.
  - apply pruned_refl.
  - etrans; [|exact Hfuel]. apply enough_fuel_mono.
    rewrite length_at_depth, length_range.
    etrans; [by apply sub_adj_size|]. apply downEdgesNoCopy_of_graph.
Qed.

(** On every graph, with or without cycles, [TransitiveReduction] ends; it
    keeps the vertices and adds no edge: what it returns is the graph with
    some edges removed. *)
Theorem TransitiveReduction_only_removes (g : GraphBase) (t fuel : nat) :
  enough_fuel g (length (graph_values g)) ≤ fuel →
  ∃ t' g', TransitiveReduction fuel t g = Some (t', g')
           ∧ vertices g' = vertices g
           ∧ edges g' ⊆ edges g
           ∧ ∀ a b, edge g' a b → edge g a b.
Proof.
  intros Hfuel. rewrite TransitiveReduction_unfold.
  assert (∀ us t1 g1, pruned g1 g →
            ∃ t' g', foldl (TransitiveReduction_body fuel) (Some (t1, g1)) us
                     = Some (t', g') ∧ pruned g' g) as Hloop.
  { induction us as [|u us IH]; intros t1 g1 Hpr; [by exists t1, g1|].
    destruct (TransitiveReduction_walk_pruned g g1 u fuel t1)
      as ([e [t2 g2]] & Hwalk & Hpr2); [apply Hpr|done|].
    simpl in *. rewrite Hwalk. simpl. apply IH. by eapply pruned_trans. }
  destruct (Hloop (range t (vertices g)) (S t) g (pruned_refl g))
    as (t' & g' & Hfold & Hv & He & Hadj).
  exists t', g'. split; [done|]. split; [done|]. split; [done|].
  intros a b. by apply sub_adj_edge.
Qed.

(** ** Descendants and Ancestors, one against the other *)

(** [g] has an up-edge from [a] to [b]: the up-adjacency set of [a]
    includes [b]. *)
Definition up_edge (g : GraphBase) (a b : Vertex) : Prop :=
  is_Some (upEdgesNoCopy g a !! hashcode b).

(** The two adjacency maps hold the same edges, as [Connect] and
    [RemoveEdge] leave them. *)
Definition mirrored (g : GraphBase) : Prop :=
  ∀ a b, edge g a b ↔ up_edge g b a.

Lemma tc_converse {X : Type} (R R' : relation X) a b :
  (∀ x y, R x y → R' y x) → tc R a b → tc R' b a.
Proof.
  intros HR Hab. induction Hab as [a b Hab|a y b Hay _ IH].
  - apply tc_once. by apply HR.
  - eapply tc_r; [done|]. by apply HR.
Qed.

Lemma predecessor_up_edge g a b :
  adj_keyed (upEdges g) → predecessor g a b → up_edge g a b.
Proof.
  intros Hg [k Hk]. unfold up_edge.
  assert (keyed (upEdgesNoCopy g a)) as Hkeyed.
  { unfold upEdgesNoCopy. destruct (upEdges g !! hashcode a) as [s|] eqn:Hs; simpl.
    - by eapply Hg.
    - apply keyed_empty. }
  rewrite <-(Hkeyed _ _ Hk). by eexists.
Qed.

Lemma up_edge_predecessor g a b :
  adj_keyed (upEdges g) →
  up_edge g a b → ∃ x, predecessor g a x ∧ hashcode x = hashcode b.
Proof.
  intros Hg [x Hx]. exists x. split; [by eexists|].
  assert (keyed (upEdgesNoCopy g a)) as Hkeyed.
  { unfold upEdgesNoCopy. destruct (upEdges g !! hashcode a) as [s|] eqn:Hs; simpl.
    - by eapply Hg.
    - apply keyed_empty. }
  symmetry. exact (Hkeyed _ _ Hx).
Qed.

Lemma up_edge_key g a a' b b' :
  hashcode a = hashcode a' → hashcode b = hashcode b' →
  up_edge g a b → up_edge g a' b'.
Proof. unfold up_edge, upEdgesNoCopy. by intros -> ->. Qed.

Lemma tc_predecessor_up_edge g a v :
  adj_keyed (upEdges g) →
  (∃ x, tc (predecessor g) a x ∧ hashcode x = hashcode v) ↔ tc (up_edge g) a v.
Proof.
  intros Hg. split.
  - intros (x & Hax & Hx).
    assert (tc (up_edge g) a x) as Hup.
    { eapply tc_subrel; [|done]. intros ??. by apply predecessor_up_edge. }
    clear Hax. apply tc_inv_r in Hup as (y & Hay & Hyx).
    eapply tc_rtc_l; [done|]. apply tc_once. by apply (up_edge_key g y y x v).
  - intros Hav. induction Hav as [a v Hav|a y v Hay _ IH].
    + destruct (up_edge_predecessor g a v Hg Hav) as (x & Hx & Hkey).
      exists x. split; [by apply tc_once|done].
    + destruct IH as (x & Hyx & Hkey).
      destruct (up_edge_predecessor g a y Hg Hay) as (y' & Hy' & Hkey').
      exists x. split; [|done]. apply tc_inv_l in Hyx as (z & Hyz & Hzx).
      eapply tc_rtc_r; [|done]. apply (tc_l _ _ y'); [done|]. apply tc_once.
      destruct Hyz as [k Hk]. exists k. unfold upEdgesNoCopy in *.
      by rewrite Hkey'.
Qed.

(** On a graph whose two adjacency maps hold the same edges, [w] is among
    the descendants of [v] exactly when [v] is among the ancestors of [w]. *)
Theorem Descendants_Ancestors_converse (g : GraphBase) (v w : Vertex)
    (t1 t2 fuel : nat) :
  adj_keyed (downEdges g) → adj_keyed (upEdges g) → mirrored g →
  enough_fuel g (length (graph_values g)) ≤ fuel →
  ∃ sd t1' sa t2',
    Descendants fuel t1 g v = Some (inl sd, t1')
    ∧ Ancestors fuel t2 g w = Some (inl sa, t2')
    ∧ (Set_Include sd w = true ↔ Set_Include sa v = true).
Proof.
  intros Hdown Hup Hmirror Hfuel.
  destruct (Descendants_keys g v t1 fuel Hdown Hfuel) as (sd & t1' & Hd & Hsd).
  destruct (Ancestors_keys g w t2 fuel Hfuel) as (sa & t2' & Ha & Hsa).
  exists sd, t1', sa, t2'. split; [done|]. split; [done|].
  rewrite Set_Include_true, Hsd, reached_successors, Hsa,
    tc_predecessor_up_edge by done.
  split; apply tc_converse; intros x y; apply Hmirror.
Qed.

(** ** What a breadth-first walk reaches *)

Lemma breadth_complete {A : Type} (f : DepthWalkFunc A) (g : GraphBase)
    (start : VertexSet) fuel t a r :
  BreadthFirstWalk (λ _, g) (traced f) fuel start (t, (a, [])) = Some r →
  r.1 = None →
  ∀ n k, at_level g start n k → k ∈ hashcode <$> (log_of r.2).*1.
Proof.
  unfold BreadthFirstWalk. intros Hr.
  refine (BreadthFirstWalk_loop_rule (λ _, g) (traced f)
    (λ seen fr m, ∃ L, level_inv g start L fr seen [] m)
    (λ e m, e = None →
            ∀ n k, at_level g start n k → k ∈ hashcode <$> (log_of m).*1)
    _ _ fuel ∅ _ _ r _ Hr).
  - intros seen m [L (_ & _ & Hlog & Hbelow & Hhere & Hclosed & _)] _ n k Hk.
    apply Hlog. revert k Hk. induction n as [|n IH]; intros k Hk.
    + destruct (decide (0 < L)) as [HL|HL]; [by apply (Hbelow 0)|].
      assert (L = 0) as -> by lia.
      destruct (Hhere k Hk) as [?|(c & ?%not_elem_of_nil & _)]; done.
    + destruct Hk as (x & w & Hx & Hxw & <-).
      apply nsteps_inv_r in Hxw as (w' & Hxw' & Hw'w).
      destruct (Hclosed w' w) as [?|[(c & ?%not_elem_of_nil & _)
                                    |(c & ?%not_elem_of_nil & _)]]; try done.
      apply IH. by exists x, w'.
  - intros seen fr m [L Hinv] _.
    destruct (level_inv_level f g start L fr seen [] m Hinv) as [Hord Hnext].
    destruct (BreadthFirstWalk_level _ _ fr seen [] m)
      as [[[[err|] seen'] fr'] m']; simpl in *; [done|].
    destruct (Hnext eq_refl) as (_ & Happ & Hlog & Hbelow & Hhere & Hclosed & _).
    assert (∀ k, at_level g start L k → k ∈ seen') as HL.
    { intros k Hk.
      destruct (Hhere k Hk) as [?|(c & ?%not_elem_of_nil & _)]; done. }
    exists (L + 1). split; [done|]. split; [by intros c ?%not_elem_of_nil|].
    split; [done|]. split.
    { intros n k Hn Hk. destruct (decide (n = L)) as [->|]; [by apply HL|].
      apply (Hbelow n); [lia|done]. }
    split.
    { intros k (x & w & Hx & Hxw & <-). rewrite Nat.add_1_r in Hxw.
      apply nsteps_inv_r in Hxw as (w' & Hxw' & Hw'w).
      destruct (Hclosed w' w) as [?|[(c & ?%not_elem_of_nil & _)|?]];
        [|done|by left|done|by right].
      apply HL. by exists x, w'. }
    split; [|done]. intros a0 b Ha Hab.
    destruct (Hclosed a0 b Ha Hab) as [?|[(c & ?%not_elem_of_nil & _)|?]];
      [by left|done|by right; left].
  - exists 0. split.
    { by intros c (w & -> & _)%elem_of_at_depth. }
    split; [by intros c ?%not_elem_of_nil|].
    split; [by intros k ?%not_elem_of_empty|].
    split; [intros n k Hn; lia|]. split.
    { intros k (x & w & [k0 Hx] & Hxw & <-). inversion Hxw; subst. right.
      exists {| vertex := w; depth := 0 |}. split; [|done].
      apply elem_of_at_depth. exists w. split; [done|].
      apply elem_of_range. by exists k0. }
    split; [by intros a0 b ?%not_elem_of_empty|].
    intros pre v d post Heq. by destruct pre.
Qed.

(** With a visitor that does not fail, [BreadthFirstWalk] invokes the
    visitor on one vertex for each identity key that the start set leads
    to, and on nothing else. *)
Theorem BreadthFirstWalk_visits_reachable {A : Type} (f : DepthWalkFunc A)
    (g : GraphBase) (start : VertexSet) (t : nat) (a : A) (fuel : nat) :
  (∀ v d m, (f v d m).1 = None) →
  enough_fuel g (size start) ≤ fuel →
  ∃ r, BreadthFirstWalk (λ _, g) (traced f) fuel start (t, (a, [])) = Some r
       ∧ r.1 = None
       ∧ ∀ k, k ∈ hashcode <$> visited r
              ↔ ∃ s w, (∃ k0, start !! k0 = Some s) ∧ rtc (successor g) s w
                       ∧ hashcode w = k.
Proof.
  intros Hf Hfuel.
  destruct (fixed_breadth_terminates g (traced f) (at_depth 0 (range t start))
              fuel (S t, (a, []))) as [r Hr].
  { by rewrite length_at_depth, length_range. }
  assert (r.1 = None) as He.
  { eapply breadth_no_error; [|exact Hr]. intros. by apply traced_no_error. }
  exists r. split; [exact Hr|]. split; [done|]. intros k. split.
  - intros (v & -> & Hv)%list_elem_of_fmap.
    apply list_elem_of_fmap in Hv as ([v' d] & -> & Hvd). simpl.
    destruct (breadth_depths f g (range t start) fuel ∅ (S t, (a, [])) r eq_refl Hr
                v' d Hvd) as (s & Hs%elem_of_range & Hsv).
    exists s, v'. split; [done|]. split; [|done]. by eapply rtc_nsteps_2.
  - intros (s & w & Hs & Hsw & <-). apply rtc_nsteps in Hsw as [n Hn].
    apply (breadth_complete f g start fuel t a r Hr He n). by exists s, w.
Qed.

(** ** Nothing to start from *)

Lemma range_empty t : range t ∅ = [].
Proof.
  unfold range. rewrite map_to_list_empty. simpl.
  apply Permutation_nil_r. apply shuffle_perm.
Qed.

(** From an empty start set or start sequence, a walk with fuel for one
    turn of its loop returns at once, without an error and without having
    invoked the visitor: the state is the one it was given, after the one
    enumeration of the start set for the walks that take a set. *)
Theorem walks_empty_start {Heap : Type} (g : Heap → GraphBase)
    (f : DepthWalkFunc Heap) (fuel t : nat) (s : Heap) :
  DepthFirstWalk g f (S fuel) ∅ (t, s) = Some (None, (S t, s))
  ∧ BreadthFirstWalk g f (S fuel) ∅ (t, s) = Some (None, (S t, s))
  ∧ ReverseDepthFirstWalk g f (S fuel) ∅ (t, s) = Some (None, (S t, s))
  ∧ SortedDepthFirstWalk g f (S fuel) [] (t, s) = Some (None, (t, s))
  ∧ SortedReverseDepthFirstWalk g f (S fuel) [] (t, s) = Some (None, (t, s)).
Proof.
  unfold DepthFirstWalk, BreadthFirstWalk, ReverseDepthFirstWalk.
  rewrite range_empty. done.
Qed.

(** ** The two dedup keys *)

(** The vertices that a start vertex leads to along [R], the start
    vertices themselves included. *)
Definition led_from (starts : Vertex → Prop) (R : relation Vertex) (x : Vertex)
    : Prop :=
  ∃ s, starts s ∧ rtc R s x.

(** The members of a set. *)
Definition member (s : VertexSet) (v : Vertex) : Prop := ∃ k, s !! k = Some v.

(** The visited vertices [vis] of a walk that dedups by identity key: each
    of them is reached, every reached vertex has its identity key
    visited, and no identity key is visited twice. *)
Definition one_per_key (reach : Vertex → Prop) (vis : list Vertex) : Prop :=
  (∀ u, u ∈ vis → reach u)
  ∧ (∀ w, reach w → ∃ u, u ∈ vis ∧ hashcode u = hashcode w)
  ∧ (∀ u u', u ∈ vis → u' ∈ vis → hashcode u = hashcode u' → u = u').

(** One of [v1] and [v2] has been visited, and the other has not. *)
Definition only_one_of (v1 v2 : Vertex) (vis : list Vertex) : Prop :=
  (v1 ∈ vis ∧ v2 ∉ vis) ∨ (v2 ∈ vis ∧ v1 ∉ vis).

Lemma one_per_key_only_one reach vis v1 v2 :
  one_per_key reach vis → v1 ≠ v2 → hashcode v1 = hashcode v2 →
  ¬ (v1 ∈ vis ∧ v2 ∈ vis)
  ∧ (reach v1 ∨ reach v2 →
     (∀ u, reach u → hashcode u = hashcode v1 → u = v1 ∨ u = v2) →
     only_one_of v1 v2 vis).
Proof.
  intros (Hsound & Hcomplete & Hinj) Hne Hkey.
  assert (¬ (v1 ∈ vis ∧ v2 ∈ vis)) as Hboth.
  { intros [Hv1 Hv2]. by apply Hne, Hinj. }
  split; [done|]. intros Hreach Honly.
  assert (∃ u, u ∈ vis ∧ hashcode u = hashcode v1) as (u & Hu & Hukey).
  { destruct Hreach as [Hr|Hr]; destruct (Hcomplete _ Hr) as (u & Hu & Hukey);
      exists u; split; [done|done|done|congruence]. }
  destruct (Honly u (Hsound u Hu) Hukey) as [->| ->]; [left|right];
    (split; [done|]); intros Hother; apply Hboth; by split.
Qed.

Lemma successor_edge g a b :
  adj_keyed (downEdges g) → successor g a b → edge g a b.
Proof.
  intros Hg [k Hk]. unfold edge.
  rewrite <-(keyed_downEdgesNoCopy g a Hg _ _ Hk). by eexists.
Qed.

Lemma visited_logged {A : Type}
    (r : option error * (nat * (A * list (Vertex * nat)))) u :
  u ∈ visited r ↔ ∃ d, (u, d) ∈ log_of r.2.
Proof.
  unfold visited. rewrite list_elem_of_fmap. split.
  - intros ([u' d] & -> & Hud). by exists d.
  - intros [d Hud]. by exists (u, d).
Qed.

Section dedup.
Context {A : Type}.
Variable f : DepthWalkFunc A.
Variable g : GraphBase.
Hypothesis f_total : ∀ v d m, (f v d m).1 = None.

Lemma DepthFirstWalk_one_per_key (start : VertexSet) t a fuel :
  adj_keyed (downEdges g) →
  enough_fuel g (size start) ≤ fuel →
  ∃ r, DepthFirstWalk (λ _, g) (traced f) fuel start (t, (a, [])) = Some r
       ∧ one_per_key (led_from (member start) (successor g)) (visited r).
Proof.
  intros Hg Hfuel. unfold DepthFirstWalk. rewrite DepthFirstWalk_loop_walk.
  destruct (fixed_walk_terminates g hashcode
              (expand_after (λ _, g) (traced f) downEdgesNoCopy id)
              downEdgesNoCopy id fuel (at_depth 0 (range t start)) (S t, (a, [])))
    as [r Hr];
    [apply expand_after_targets|apply downEdgesNoCopy_of_graph|done
    |by rewrite length_at_depth, length_range|].
  exists r. split; [done|]. split; [|split].
  - intros u [d Hud]%visited_logged.
    destruct (walk_loop_depths g downEdgesNoCopy (range t start) hashcode
                (expand_after (λ _, g) (traced f) downEdgesNoCopy id) id
                fuel ∅ (S t, (a, [])) r) with (v := u) (d := d)
      as (s & Hs%elem_of_range & Hsu);
      [apply expand_after_targets|apply expand_after_logging|done|done|done|done|].
    exists s. split; [done|]. by eapply rtc_nsteps_2.
  - intros w (s & Hs & Hsw).
    pose proof Hr as Hr'.
    apply (dfs_reach (λ _, g) (traced f) g (range t start)
             (λ seen s, ∀ k, k ∈ seen ↔ k ∈ hashcode <$> s.2.*1) Hg) in Hr'
      as (_ & seen & HJ & Hseen).
    + assert (hashcode w ∈ hashcode <$> visited r) as Hw.
      { unfold visited, log_of. apply HJ, Hseen. exists s, w.
        split; [by apply elem_of_range|]. split; [|done].
        eapply rtc_subrel; [|done]. intros ??. by apply successor_edge. }
      apply list_elem_of_fmap in Hw as (u & Hkey & Hu). by exists u.
    + intros seen t' s' v d HJ _ _ _.
      split; [by apply traced_no_error|]. split; [|done].
      pose proof (traced_log f v d (t', s')) as Hl. unfold log_of in Hl.
      intros k.
      rewrite Hl, !fmap_app, elem_of_app, elem_of_union, HJ. simpl.
      rewrite list_elem_of_singleton, elem_of_singleton. tidy; tauto.
    + intros k. simpl.
      split; [by intros ?%not_elem_of_empty|by intros ?%not_elem_of_nil].
  - intros u u'. apply NoDup_fmap_eq.
    exact (fixed_walk_NoDup hashcode _ (expand_after_logging f _ _ _)
             fuel _ (S t, (a, [])) r eq_refl Hr).
Qed.

Lemma BreadthFirstWalk_one_per_key (start : VertexSet) t a fuel :
  enough_fuel g (size start) ≤ fuel →
  ∃ r, BreadthFirstWalk (λ _, g) (traced f) fuel start (t, (a, [])) = Some r
       ∧ one_per_key (led_from (member start) (successor g)) (visited r).
Proof.
  intros Hfuel.
  destruct (fixed_breadth_terminates g (traced f) (at_depth 0 (range t start))
              fuel (S t, (a, []))) as [r Hr].
  { by rewrite length_at_depth, length_range. }
  assert (r.1 = None) as He.
  { eapply breadth_no_error; [|exact Hr]. intros. by apply traced_no_error. }
  exists r. split; [exact Hr|]. split; [|split].
  - intros u [d Hud]%visited_logged.
    destruct (breadth_depths f g (range t start) fuel ∅ (S t, (a, [])) r eq_refl Hr
                u d Hud) as (s & Hs%elem_of_range & Hsu).
    exists s. split; [done|]. by eapply rtc_nsteps_2.
  - intros w (s & Hs & [n Hn]%rtc_nsteps_1).
    assert (hashcode w ∈ hashcode <$> visited r) as Hw.
    { apply (breadth_complete f g start fuel t a r Hr He n). by exists s, w. }
    apply list_elem_of_fmap in Hw as (u & Hkey & Hu). by exists u.
  - intros u u'. apply NoDup_fmap_eq.
    exact (breadth_NoDup f _ _ _ (S t, (a, [])) r eq_refl Hr).
Qed.

Lemma raw_walk_each_value (step : @walk_step (A * list (Vertex * nat)))
    adj order starts fuel m :
  fixed_targets g adj order step → adj_of_graph g adj → logging step →
  (∀ c m, (step c m).1.1 = None) → (∀ l, order l ≡ₚ l) →
  log_of m = [] →
  enough_fuel g (length starts) ≤ fuel →
  ∃ r, walk_loop id step fuel ∅ (at_depth 0 starts) m = Some r
       ∧ ∀ x, x ∈ visited r ↔ led_from (.∈ starts) (stored g adj) x.
Proof.
  intros Htargets Hadj Hlogging Hstep Horder Hlog Hfuel.
  destruct (fixed_walk_terminates g id step adj order fuel (at_depth 0 starts) m)
    as [r Hr]; [done|done|done|by rewrite length_at_depth|].
  exists r. split; [done|].
  by apply (raw_walk_visits g step adj order starts fuel m r).
Qed.

End dedup.

(** C8, as amended. [DepthFirstWalk] and [BreadthFirstWalk] dedup by the
    identity key; [ReverseDepthFirstWalk] and the two sorted walks dedup by
    the vertex itself.  With a visitor that does not fail, the former
    visit one vertex for each identity key that the start set leads to, so
    of two distinct vertices with one identity key they never visit both,
    and they visit exactly one of the two when one of them is reached and
    no third reached vertex has their key; the latter visit every vertex
    that the start leads to, so they visit both whenever both are
    reached. *)
Theorem dedup_keys {A : Type} (f : DepthWalkFunc A) (g : GraphBase)
    (start : VertexSet) (starts : list Vertex) (v1 v2 : Vertex)
    (t : nat) (a : A) (fuel : nat) :
  (∀ v d m, (f v d m).1 = None) →
  (∀ l, sort_Sort l ≡ₚ l) →
  adj_keyed (downEdges g) →
  v1 ≠ v2 → hashcode v1 = hashcode v2 →
  enough_fuel g (size start) ≤ fuel →
  enough_fuel g (length starts) ≤ fuel →
  let down := led_from (member start) (successor g) in
  let up := led_from (member start) (predecessor g) in
  let sorted_down := led_from (.∈ starts) (successor g) in
  let sorted_up := led_from (.∈ starts) (predecessor g) in
  (∃ r, DepthFirstWalk (λ _, g) (traced f) fuel start (t, (a, [])) = Some r
        ∧ one_per_key down (visited r)
        ∧ ¬ (v1 ∈ visited r ∧ v2 ∈ visited r)
        ∧ (down v1 ∨ down v2 →
           (∀ u, down u → hashcode u = hashcode v1 → u = v1 ∨ u = v2) →
           only_one_of v1 v2 (visited r)))
  ∧ (∃ r, BreadthFirstWalk (λ _, g) (traced f) fuel start (t, (a, [])) = Some r
          ∧ one_per_key down (visited r)
          ∧ ¬ (v1 ∈ visited r ∧ v2 ∈ visited r)
          ∧ (down v1 ∨ down v2 →
             (∀ u, down u → hashcode u = hashcode v1 → u = v1 ∨ u = v2) →
             only_one_of v1 v2 (visited r)))
  ∧ (∃ r, ReverseDepthFirstWalk (λ _, g) (traced f) fuel start (t, (a, [])) = Some r
          ∧ (∀ x, x ∈ visited r ↔ up x)
          ∧ (up v1 → up v2 → v1 ∈ visited r ∧ v2 ∈ visited r))
  ∧ (∃ r, SortedDepthFirstWalk (λ _, g) (traced f) fuel starts (t, (a, [])) = Some r
          ∧ (∀ x, x ∈ visited r ↔ sorted_down x)
          ∧ (sorted_down v1 → sorted_down v2 → v1 ∈ visited r ∧ v2 ∈ visited r))
  ∧ (∃ r, SortedReverseDepthFirstWalk (λ _, g) (traced f) fuel starts (t, (a, []))
          = Some r
          ∧ (∀ x, x ∈ visited r ↔ sorted_up x)
          ∧ (sorted_up v1 → sorted_up v2 → v1 ∈ visited r ∧ v2 ∈ visited r)).
Proof.
  intros Hf Hsort Hg Hne Hkey Hfuel Hfuels down up sorted_down sorted_up.
  assert (∀ v d m, (traced f v d m).1 = None) as Hf'
    by (intros; by apply traced_no_error).
  split; [|split; [|split; [|split]]].
  - destruct (DepthFirstWalk_one_per_key f g Hf start t a fuel Hg Hfuel)
      as (r & Hr & Hone).
    exists r. split; [done|]. split; [done|].
    by apply one_per_key_only_one.
  - destruct (BreadthFirstWalk_one_per_key f g Hf start t a fuel Hfuel)
      as (r & Hr & Hone).
    exists r. split; [done|]. split; [done|].
    by apply one_per_key_only_one.
  - unfold ReverseDepthFirstWalk. rewrite ReverseDepthFirstWalk_loop_walk.
    destruct (raw_walk_each_value g
                (expand_before (λ _, g) (traced f) upEdgesNoCopy id)
                upEdgesNoCopy id (range t start) fuel (S t, (a, [])))
      as (r & Hr & Hv);
      [apply expand_before_targets|apply upEdgesNoCopy_of_graph
      |apply expand_before_logging|intros; by apply expand_before_no_error
      |done|done|by rewrite length_range|].
    assert (∀ x, x ∈ visited r ↔ up x) as Hv'.
    { intros x. rewrite Hv. unfold up, led_from, member.
      by setoid_rewrite elem_of_range. }
    exists r. split; [done|]. split; [done|]. intros H1 H2. by split; apply Hv'.
  - unfold SortedDepthFirstWalk. rewrite SortedDepthFirstWalk_loop_walk.
    destruct (raw_walk_each_value g
                (expand_after (λ _, g) (traced f) downEdgesNoCopy sort_Sort)
                downEdgesNoCopy sort_Sort starts fuel (t, (a, [])))
      as (r & Hr & Hv);
      [apply expand_after_targets|apply downEdgesNoCopy_of_graph
      |apply expand_after_logging|intros; by apply expand_after_no_error
      |done|done|done|].
    exists r. split; [done|]. split; [done|]. intros H1 H2. by split; apply Hv.
  - unfold SortedReverseDepthFirstWalk. rewrite SortedReverseDepthFirstWalk_loop_walk.
    destruct (raw_walk_each_value g
                (expand_before (λ _, g) (traced f) upEdgesNoCopy sort_Sort)
                upEdgesNoCopy sort_Sort starts fuel (t, (a, [])))
      as (r & Hr & Hv);
      [apply expand_before_targets|apply upEdgesNoCopy_of_graph
      |apply expand_before_logging|intros; by apply expand_before_no_error
      |done|done|done|].
    exists r. split; [done|]. split; [done|]. intros H1 H2. by split; apply Hv.
Qed.

End dag.

Arguments GraphBase Vertex {_ _}.
Arguments error Vertex : clear implicits.
Arguments vertexAtDepth Vertex : clear implicits.

(** * The sort of the Go library on a short slice *)

(** [insertionSort] of package [sort], which [sort.Sort] runs on a slice of
    at most twelve elements: each element in turn moves left past the
    elements that it is less than.  [bubble] is the inner loop, on the
    sorted prefix in reverse. *)
Fixpoint bubble {A : Type} (less : A → A → bool) (x : A) (prefix : list A)
    : list A :=
  match prefix with
  | [] => [x]
  | y :: prefix' =>
      if less x y then y :: bubble less x prefix' else x :: y :: prefix'
  end.

Definition insertionSort {A : Type} (less : A → A → bool) (l : list A) : list A :=
  reverse (foldl (λ prefix x, bubble less x prefix) [] l).

Section insertion_sort.
Context {A : Type}.
Variable less : A → A → bool.
Hypothesis less_asym : ∀ x y, less x y = true → less y x = false.
Hypothesis not_less_trans :
  ∀ x y z, less y x = false → less z y = false → less z x = false.

Lemma bubble_perm x prefix : bubble less x prefix ≡ₚ x :: prefix.
Proof.
  induction prefix as [|y prefix IH]; simpl; [done|].
  destruct (less x y); [|done]. rewrite IH. apply Permutation_swap.
Qed.

Lemma insertionSort_perm l : insertionSort less l ≡ₚ l.
Proof.
  unfold insertionSort. rewrite reverse_Permutation.
  assert (∀ prefix, foldl (λ prefix x, bubble less x prefix) prefix l
                    ≡ₚ prefix ++ l) as Hfold; [|apply (Hfold [])].
  induction l as [|x l IH]; intros prefix; simpl.
  - by rewrite app_nil_r.
  - rewrite IH, bubble_perm. simpl. apply Permutation_middle.
Qed.

(** The prefix in reverse: no element is less than a later one. *)
Lemma bubble_sorted x prefix :
  StronglySorted (λ a b, less a b = false) prefix →
  StronglySorted (λ a b, less a b = false) (bubble less x prefix).
Proof.
  induction prefix as [|y prefix IH]; simpl; intros Hsorted.
  - repeat constructor.
  - apply StronglySorted_cons in Hsorted as [Hy Hsorted].
    destruct (less x y) eqn:Hxy.
    + constructor; [by apply IH|]. apply Forall_forall. intros z Hz.
      rewrite bubble_perm in Hz. apply elem_of_cons in Hz as [->|Hz].
      * by apply less_asym.
      * rewrite Forall_forall in Hy. by apply Hy.
    + constructor; [by constructor|]. constructor; [done|].
      apply Forall_forall. intros z Hz. rewrite Forall_forall in Hy.
      eapply not_less_trans; [|done]. by apply Hy.
Qed.

Lemma StronglySorted_reverse (R : relation A) l :
  StronglySorted R l → StronglySorted (flip R) (reverse l).
Proof.
  induction 1 as [|x l Hl IH Hx]; [constructor|]. rewrite reverse_cons.
  apply StronglySorted_app_2; [|done|repeat constructor].
  intros y z Hy ->%list_elem_of_singleton. rewrite Forall_forall in Hx.
  apply Hx. by apply elem_of_reverse.
Qed.

Lemma insertionSort_sorted l :
  StronglySorted (λ a b, less b a = false) (insertionSort less l).
Proof.
  unfold insertionSort.
  apply (StronglySorted_reverse (λ a b, less a b = false)).
  assert (∀ prefix, StronglySorted (λ a b, less a b = false) prefix →
            StronglySorted (λ a b, less a b = false)
              (foldl (λ prefix x, bubble less x prefix) prefix l)) as Hfold.
  { induction l as [|x l IH]; intros prefix Hprefix; simpl; [done|].
    by apply IH, bubble_sorted. }
  apply Hfold. constructor.
Qed.

End insertion_sort.

(** ** The order of strings *)

Lemma ascii_compare_Lt_trans (a b c : Ascii.ascii) :
  Ascii.compare a b = Lt → Ascii.compare b c = Lt → Ascii.compare a c = Lt.
Proof.
  unfold Ascii.compare. rewrite !N.compare_lt_iff. apply N.lt_trans.
Qed.

Lemma ascii_compare_refl (a : Ascii.ascii) : Ascii.compare a a = Eq.
Proof. unfold Ascii.compare. apply N.compare_refl. Qed.

Lemma string_compare_not_Gt_trans (s1 s2 s3 : string) :
  String.compare s1 s2 ≠ Gt → String.compare s2 s3 ≠ Gt →
  String.compare s1 s3 ≠ Gt.
Proof.
  revert s2 s3. induction s1 as [|c1 s1 IH]; intros [|c2 s2] [|c3 s3]; simpl;
    try done.
  destruct (Ascii.compare c1 c2) eqn:H12; [| |done].
  - apply Ascii.compare_eq_iff in H12 as ->.
    destruct (Ascii.compare c2 c3); [apply IH|done..].
  - destruct (Ascii.compare c2 c3) eqn:H23; [| |done].
    + apply Ascii.compare_eq_iff in H23 as ->. by rewrite H12.
    + by rewrite (ascii_compare_Lt_trans c1 c2 c3).
Qed.

Lemma string_ltb_asym (s1 s2 : string) :
  String.ltb s1 s2 = true → String.ltb s2 s1 = false.
Proof.
  unfold String.ltb. rewrite (String.compare_antisym s2 s1).
  by destruct (String.compare s1 s2).
Qed.

Lemma string_not_ltb_trans (s1 s2 s3 : string) :
  String.ltb s2 s1 = false → String.ltb s3 s2 = false → String.ltb s3 s1 = false.
Proof.
  unfold String.ltb.
  rewrite (String.compare_antisym s2 s1), (String.compare_antisym s3 s2),
    (String.compare_antisym s3 s1).
  pose proof (string_compare_not_Gt_trans s1 s2 s3) as Htrans.
  destruct (String.compare s1 s2), (String.compare s2 s3),
    (String.compare s1 s3); simpl; try done; intros; exfalso; by apply Htrans.
Qed.

Lemma string_not_ltb_antisym (s1 s2 : string) :
  String.ltb s1 s2 = false → String.ltb s2 s1 = false → s1 = s2.
Proof.
  unfold String.ltb. rewrite (String.compare_antisym s2 s1).
  destruct (String.compare s1 s2) eqn:Hc; simpl; try done.
  intros _ _. by apply String.compare_eq_iff.
Qed.

Lemma insertionSort_sorts_by_name `{Countable Vertex} (VertexName : Vertex → string) :
  sorts_by_name VertexName (insertionSort (byVertexName_Less VertexName)).
Proof.
  intros l. split; [apply insertionSort_perm|]. apply insertionSort_sorted.
  - intros x y. apply string_ltb_asym.
  - intros x y z. apply string_not_ltb_trans.
Qed.

(** [byVertexName.Less] is a strict order in which two vertices tie,
    neither being less than the other, exactly when they have the same
    display name. *)
Theorem byVertexName_Less_order `{Countable Vertex} (VertexName : Vertex → string) :
  (∀ a, byVertexName_Less VertexName a a = false)
  ∧ (∀ a b c, byVertexName_Less VertexName a b = true →
              byVertexName_Less VertexName b c = true →
              byVertexName_Less VertexName a c = true)
  ∧ (∀ a b, byVertexName_Less VertexName a b = false
            ∧ byVertexName_Less VertexName b a = false
            ↔ VertexName a = VertexName b).
Proof.
  unfold byVertexName_Less.
  assert (∀ s, String.ltb s s = false) as Hirr.
  { intros s. destruct (String.ltb s s) eqn:Hs; [|done].
    by rewrite (string_ltb_asym s s Hs) in Hs. }
  split; [by intros a|]. split.
  - intros a b c Hab Hbc.
    destruct (String.ltb (VertexName a) (VertexName c)) eqn:Hac; [done|].
    rewrite (string_not_ltb_trans (VertexName b) (VertexName c) (VertexName a))
      in Hab; [done| |done].
    by apply string_ltb_asym.
  - intros a b. split.
    + intros [Hab Hba]. by apply string_not_ltb_antisym.
    + intros ->. by rewrite Hirr.
Qed.

(** * The order of a sorted walk *)

(** A result without the tick of the enumeration oracle: the error, the
    heap of the visitor and the record of its invocations. *)
Definition forget_tick {E X : Type} (r : option (E * (nat * X))) : option (E * X) :=
  (λ r, (r.1, r.2.2)) <$> r.

Section sorted_order.
Context `{Countable Vertex}.
Variable hashcode : Vertex → Vertex.
Variable VertexName : Vertex → string.
Variable shuffle1 shuffle2 : ∀ A : Type, nat → list A → list A.
Variable sort_Sort : list Vertex → list Vertex.
Hypothesis shuffle1_perm : ∀ (A : Type) (t : nat) (l : list A), shuffle1 A t l ≡ₚ l.
Hypothesis shuffle2_perm : ∀ (A : Type) (t : nat) (l : list A), shuffle2 A t l ≡ₚ l.
Hypothesis sort_contract : sorts_by_name VertexName sort_Sort.

Lemma sorted_targets_eq (g : GraphBase Vertex) t1 t2 v :
  distinct_names VertexName (downEdges g) →
  sorted_targets shuffle1 sort_Sort t1 (downEdgesNoCopy hashcode g v)
  = sorted_targets shuffle2 sort_Sort t2 (downEdgesNoCopy hashcode g v).
Proof.
  intros Hnames. unfold sorted_targets.
  destruct (sort_contract (range shuffle1 t1 (downEdgesNoCopy hashcode g v)))
    as [Hperm1 Hsorted1].
  destruct (sort_contract (range shuffle2 t2 (downEdgesNoCopy hashcode g v)))
    as [Hperm2 Hsorted2].
  eapply StronglySorted_unique_strong; [|done|done|].
  - intros x1 x2 Hx1 Hx2 H12 H21.
    rewrite Hperm1 in Hx1. rewrite Hperm2 in Hx2.
    apply (elem_of_range shuffle1 shuffle1_perm) in Hx1 as [k1 Hk1].
    apply (elem_of_range shuffle2 shuffle2_perm) in Hx2 as [k2 Hk2].
    unfold downEdgesNoCopy in *.
    destruct (downEdges g !! hashcode v) as [s|] eqn:Hs; simpl in *;
      [|by rewrite lookup_empty in Hk1].
    eapply Hnames; [done..|]. by apply string_not_ltb_antisym.
  - rewrite Hperm1, Hperm2. unfold range.
    by rewrite shuffle1_perm, shuffle2_perm.
Qed.

Lemma SortedDepthFirstWalk_loop_order {A : Type}
    (f : Vertex → nat → A → option (error Vertex) * A) (g : GraphBase Vertex)
    fuel seen frontier t1 t2 h :
  distinct_names VertexName (downEdges g) →
  forget_tick (SortedDepthFirstWalk_loop hashcode shuffle1 sort_Sort (λ _, g)
                 (traced (untimed f)) fuel seen frontier (t1, h))
  = forget_tick (SortedDepthFirstWalk_loop hashcode shuffle2 sort_Sort (λ _, g)
                   (traced (untimed f)) fuel seen frontier (t2, h)).
Proof.
  intros Hnames. revert seen frontier t1 t2 h.
  induction fuel as [|fuel IH]; intros seen frontier t1 t2 [a log]; [done|].
  simpl. destruct (unsnoc frontier) as [[frontier' current]|]; [|done].
  case_decide; [apply IH|].
  destruct (f (vertex current) (depth current) a) as [[err|] a']; [done|].
  rewrite (sorted_targets_eq g t1 t2 (vertex current) Hnames). apply IH.
Qed.

(** On a graph in which no two vertices of one adjacency set share a
    display name, [SortedDepthFirstWalk] ends with the same error, the same
    visitor heap and the same record of invocations whatever the order in
    which the adjacency sets are enumerated. *)
Theorem SortedDepthFirstWalk_deterministic {A : Type}
    (f : Vertex → nat → A → option (error Vertex) * A) (g : GraphBase Vertex)
    (starts : list Vertex) (t1 t2 : nat) (a : A) (fuel : nat) :
  distinct_names VertexName (downEdges g) →
  enough_fuel g (length starts) ≤ fuel →
  ∃ r1 r2,
    SortedDepthFirstWalk hashcode shuffle1 sort_Sort (λ _, g)
      (traced (untimed f)) fuel starts (t1, (a, [])) = Some r1
    ∧ SortedDepthFirstWalk hashcode shuffle2 sort_Sort (λ _, g)
        (traced (untimed f)) fuel starts (t2, (a, [])) = Some r2
    ∧ r1.1 = r2.1 ∧ r1.2.2 = r2.2.2.
Proof.
  intros Hnames Hfuel.
  destruct (SortedDepthFirstWalk_outcome hashcode shuffle1 sort_Sort shuffle1_perm
              (untimed f) g t1 a fuel starts) as (r1 & Hr1 & _);
    [intros l; apply sort_contract|done|].
  pose proof (SortedDepthFirstWalk_loop_order f g fuel ∅ (at_depth 0 starts)
                t1 t2 (a, []) Hnames) as Heq.
  unfold SortedDepthFirstWalk in *. rewrite Hr1 in Heq.
  destruct (SortedDepthFirstWalk_loop hashcode shuffle2 sort_Sort _ _ fuel ∅ _ _)
    as [r2|]; [|done].
  exists r1, r2. split; [done|]. split; [done|]. by simplify_eq/=.
Qed.

End sorted_order.

(** * The order of a sorted reverse walk *)

Section sorted_reverse_order.
Context `{Countable Vertex}.
Variable hashcode : Vertex → Vertex.
Variable VertexName : Vertex → string.
Variable shuffle1 shuffle2 : ∀ A : Type, nat → list A → list A.
Variable sort_Sort : list Vertex → list Vertex.
Hypothesis shuffle1_perm : ∀ (A : Type) (t : nat) (l : list A), shuffle1 A t l ≡ₚ l.
Hypothesis shuffle2_perm : ∀ (A : Type) (t : nat) (l : list A), shuffle2 A t l ≡ₚ l.
Hypothesis sort_contract : sorts_by_name VertexName sort_Sort.

Lemma sorted_sources_eq (g : GraphBase Vertex) t1 t2 v :
  distinct_names VertexName (upEdges g) →
  sorted_targets shuffle1 sort_Sort t1 (upEdgesNoCopy hashcode g v)
  = sorted_targets shuffle2 sort_Sort t2 (upEdgesNoCopy hashcode g v).
Proof.
  intros Hnames. unfold sorted_targets.
  destruct (sort_contract (range shuffle1 t1 (upEdgesNoCopy hashcode g v)))
    as [Hperm1 Hsorted1].
  destruct (sort_contract (range shuffle2 t2 (upEdgesNoCopy hashcode g v)))
    as [Hperm2 Hsorted2].
  eapply StronglySorted_unique_strong; [|done|done|].
  - intros x1 x2 Hx1 Hx2 H12 H21.
    rewrite Hperm1 in Hx1. rewrite Hperm2 in Hx2.
    apply (elem_of_range shuffle1 shuffle1_perm) in Hx1 as [k1 Hk1].
    apply (elem_of_range shuffle2 shuffle2_perm) in Hx2 as [k2 Hk2].
    unfold upEdgesNoCopy in *.
    destruct (upEdges g !! hashcode v) as [s|] eqn:Hs; simpl in *;
      [|by rewrite lookup_empty in Hk1].
    eapply Hnames; [done..|]. by apply string_not_ltb_antisym.
  - rewrite Hperm1, Hperm2. unfold range.
    by rewrite shuffle1_perm, shuffle2_perm.
Qed.

Lemma SortedReverseDepthFirstWalk_loop_order {A : Type}
    (f : Vertex → nat → A → option (error Vertex) * A) (g : GraphBase Vertex)
    fuel seen frontier t1 t2 h :
  distinct_names VertexName (upEdges g) →
  forget_tick (SortedReverseDepthFirstWalk_loop hashcode shuffle1 sort_Sort (λ _, g)
                 (traced (untimed f)) fuel seen frontier (t1, h))
  = forget_tick (SortedReverseDepthFirstWalk_loop hashcode shuffle2 sort_Sort
                   (λ _, g) (traced (untimed f)) fuel seen frontier (t2, h)).
Proof.
  intros Hnames. revert seen frontier t1 t2 h.
  induction fuel as [|fuel IH]; intros seen frontier t1 t2 [a log]; [done|].
  simpl. destruct (unsnoc frontier) as [[frontier' current]|]; [|done].
  case_decide; [apply IH|].
  rewrite (sorted_sources_eq g t1 t2 (vertex current) Hnames).
  destruct (f (vertex current) (depth current) a) as [[err|] a']; [done|]. apply IH.
Qed.

(** On a graph in which no two vertices of one up-adjacency set share a
    display name, [SortedReverseDepthFirstWalk] ends with the same error,
    the same visitor heap and the same record of invocations whatever the
    order in which the adjacency sets are enumerated. *)
Theorem SortedReverseDepthFirstWalk_deterministic {A : Type}
    (f : Vertex → nat → A → option (error Vertex) * A) (g : GraphBase Vertex)
    (starts : list Vertex) (t1 t2 : nat) (a : A) (fuel : nat) :
  distinct_names VertexName (upEdges g) →
  enough_fuel g (length starts) ≤ fuel →
  ∃ r1 r2,
    SortedReverseDepthFirstWalk hashcode shuffle1 sort_Sort (λ _, g)
      (traced (untimed f)) fuel starts (t1, (a, [])) = Some r1
    ∧ SortedReverseDepthFirstWalk hashcode shuffle2 sort_Sort (λ _, g)
        (traced (untimed f)) fuel starts (t2, (a, [])) = Some r2
    ∧ r1.1 = r2.1 ∧ r1.2.2 = r2.2.2.
Proof.
  intros Hnames Hfuel.
  destruct (SortedReverseDepthFirstWalk_outcome hashcode shuffle1 sort_Sort
              shuffle1_perm (untimed f) g t1 a fuel starts) as (r1 & Hr1 & _);
    [intros l; apply sort_contract|done|].
  pose proof (SortedReverseDepthFirstWalk_loop_order f g fuel ∅ (at_depth 0 starts)
                t1 t2 (a, []) Hnames) as Heq.
  unfold SortedReverseDepthFirstWalk in *. rewrite Hr1 in Heq.
  destruct (SortedReverseDepthFirstWalk_loop hashcode shuffle2 sort_Sort _ _ fuel ∅ _ _)
    as [r2|]; [|done].
  exists r1, r2. split; [done|]. split; [done|]. by simplify_eq/=.
Qed.

End sorted_reverse_order.

(** * Checking the hypotheses on a given graph *)

Section checks.
Context `{Countable Vertex}.
Variable hashcode : Vertex → Vertex.

Lemma keyed_check (s : gmap Vertex Vertex) :
  map_Forall (λ k v, k = hashcode v) s → keyed hashcode s.
Proof. done. Qed.

Lemma adj_keyed_check (adj : gmap Vertex (gmap Vertex Vertex)) :
  map_Forall (λ _ s, map_Forall (λ k v, k = hashcode v) s) adj →
  adj_keyed hashcode adj.
Proof. done. Qed.

(** A graph whose edges all go up a rank has no cycle. *)
Lemma acyclic_check (rank : Vertex → nat) (g : GraphBase Vertex) :
  map_Forall (λ k s, map_Forall (λ k' _, rank k < rank k') s) (downEdges g) →
  acyclic hashcode g.
Proof.
  intros Hrank.
  assert (∀ a b, edge hashcode g a b → rank (hashcode a) < rank (hashcode b))
    as Hedge.
  { intros a b [w Hw]. unfold downEdgesNoCopy in Hw.
    destruct (downEdges g !! hashcode a) as [s|] eqn:Hs; simpl in Hw;
      [|by rewrite lookup_empty in Hw].
    exact (Hrank _ _ Hs _ _ Hw). }
  assert (∀ a b, tc (edge hashcode g) a b
                 → rank (hashcode a) < rank (hashcode b)) as Hpath.
  { intros a b Hab. induction Hab as [a b Hab|a b c Hab _ IH].
    - by apply Hedge.
    - apply Hedge in Hab. lia. }
  intros v Hv%Hpath. lia.
Qed.

Lemma sources_are_vertices_check (g : GraphBase Vertex) :
  map_Forall (λ k v, k = hashcode v) (vertices g) →
  map_Forall (λ k _, is_Some (vertices g !! k)) (downEdges g) →
  sources_are_vertices hashcode g.
Proof.
  intros Hkeyed Hsources a b [w Hw]. unfold downEdgesNoCopy in Hw.
  destruct (downEdges g !! hashcode a) as [s|] eqn:Hs; simpl in Hw;
    [|by rewrite lookup_empty in Hw].
  destruct (Hsources _ _ Hs) as [u Hu]. exists (hashcode a), u.
  split; [done|]. symmetry. exact (Hkeyed _ _ Hu).
Qed.

(** A property of the edges is checked on the adjacency map. *)
Lemma edge_check (P : Vertex → Vertex → Prop) (g : GraphBase Vertex) :
  map_Forall (λ a s, map_Forall (λ b _, P a b) s) (downEdges g) →
  ∀ a b, edge hashcode g a b → P (hashcode a) (hashcode b).
Proof.
  intros HP a b [w Hw]. unfold downEdgesNoCopy in Hw.
  destruct (downEdges g !! hashcode a) as [s|] eqn:Hs; simpl in Hw;
    [|by rewrite lookup_empty in Hw].
  exact (HP _ _ Hs _ _ Hw).
Qed.

(** A property of the roots is checked on the vertex set. *)
Lemma is_root_check (P : Vertex → Prop) (g : GraphBase Vertex) :
  map_Forall (λ _ v, Set_Len (upEdgesNoCopy hashcode g v) = 0 → P v) (vertices g) →
  ∀ v, is_root hashcode g v → P v.
Proof. intros HP v [[k Hk] Hlen]. exact (HP _ _ Hk Hlen). Qed.

(** That the two adjacency maps hold the same edges is checked on both. *)
Lemma mirrored_check (g : GraphBase Vertex) :
  map_Forall (λ ka s,
    map_Forall (λ kb _, is_Some (default ∅ (upEdges g !! kb) !! ka)) s)
    (downEdges g) →
  map_Forall (λ kb s,
    map_Forall (λ ka _, is_Some (default ∅ (downEdges g !! ka) !! kb)) s)
    (upEdges g) →
  mirrored hashcode g.
Proof.
  intros Hdown Hup a b. unfold edge, up_edge, downEdgesNoCopy, upEdgesNoCopy. split.
  - intros [w Hw].
    destruct (downEdges g !! hashcode a) as [s|] eqn:Hs; simpl in Hw;
      [|by rewrite lookup_empty in Hw].
    exact (Hdown _ _ Hs _ _ Hw).
  - intros [w Hw].
    destruct (upEdges g !! hashcode b) as [s|] eqn:Hs; simpl in Hw;
      [|by rewrite lookup_empty in Hw].
    exact (Hup _ _ Hs _ _ Hw).
Qed.

Lemma distinct_names_check (VertexName : Vertex → string)
    (adj : gmap Vertex (gmap Vertex Vertex)) :
  map_Forall (λ _ s,
    map_Forall (λ _ v,
      map_Forall (λ _ w, VertexName v = VertexName w → v = w) s) s) adj →
  distinct_names VertexName adj.
Proof. intros Hadj k s k1 k2 v w Hs Hv Hw. exact (Hadj _ _ Hs _ _ Hv _ _ Hw). Qed.

End checks.

(** * Examples *)

(** An enumeration in the order of the map, and one in the reverse order. *)
Definition in_order : ∀ A : Type, nat → list A → list A := λ _ _ l, l.
Definition in_reverse : ∀ A : Type, nat → list A → list A := λ _ _ l, reverse l.

Lemma in_order_perm (A : Type) (t : nat) (l : list A) : in_order A t l ≡ₚ l.
Proof. done. Qed.

Lemma in_reverse_perm (A : Type) (t : nat) (l : list A) : in_reverse A t l ≡ₚ l.
Proof. apply reverse_Permutation. Qed.

(** The graph that [Add] and [Connect] build from vertices and edges. *)
Definition graph_of `{Countable Vertex} (hashcode : Vertex → Vertex)
    (vs : list Vertex) (es : list (Vertex * Vertex)) : GraphBase Vertex :=
  foldl (Connect hashcode)
    (foldl (Add hashcode)
       {| vertices := ∅; edges := ∅; downEdges := ∅; upEdges := ∅ |} vs)
    es.

(** Vertices that are their own identity key and their own name. *)
Definition chain : GraphBase string :=
  graph_of id ["A"; "B"; "C"] [("A", "B"); ("B", "C")].

Definition two_edges : GraphBase string :=
  graph_of id ["A"; "B"; "C"; "D"] [("A", "B"); ("C", "D")].

Definition triangle : GraphBase string :=
  graph_of id ["A"; "B"; "C"] [("A", "B"); ("B", "C"); ("A", "C")].

(** A rank for graphs whose vertices have one-letter names and whose edges
    go up the alphabet. *)
Definition letter_rank (s : string) : nat :=
  match s with
  | String c _ => Ascii.nat_of_ascii c
  | EmptyString => 0
  end.

(** A hypothesis that is a [map_Forall] over a given map is decided by
    evaluation. *)
Ltac check_map := refine (bool_decide_unpack _ _); vm_compute; exact I.

(** ** Root *)

Example Root_chain : (Root id in_order 0 chain).1 = inl "A".
Proof. vm_compute. reflexivity. Qed.

Example Root_two_edges :
  (Root id in_order 0 two_edges).1 = inr (MultipleRoots ["C"; "A"]).
Proof. vm_compute. reflexivity. Qed.

Example Root_empty :
  (Root id in_order 0 (graph_of id [] [])).1 = inr (NoRootsFound (Vertex:=string)).
Proof. vm_compute. reflexivity. Qed.

Lemma Root_contract_witness :
  (∀ r, is_root id chain r → (∀ v, is_root id chain v → v = r) →
        (Root id in_order 0 chain).1 = inl r)
  ∧ ((∀ v, ¬ is_root id chain v) → (Root id in_order 0 chain).1 = inr NoRootsFound)
  ∧ (∀ v w, is_root id chain v → is_root id chain w → v ≠ w →
       ∃ roots, (Root id in_order 0 chain).1 = inr (MultipleRoots roots)
                ∧ NoDup roots ∧ ∀ x, x ∈ roots ↔ is_root id chain x).
Proof.
  apply (Root_contract id in_order in_order_perm 0 chain).
  apply keyed_check. check_map.
Defined.

(** ** Descendants and Ancestors *)

Example Descendants_chain :
  match Descendants id in_order 100 0 chain "A" with
  | Some (inl s, _) => (map_to_list s).*2
  | _ => []
  end = ["C"; "B"].
Proof. vm_compute. reflexivity. Qed.

Lemma Descendants_reachable_witness :
  ∃ s t', Descendants id in_order 200 0 chain "A" = Some (inl s, t')
          ∧ Set_Include id s "A" = false
          ∧ ∀ w, Set_Include id s w = true ↔ tc (edge id chain) "A" w.
Proof.
  apply (Descendants_reachable id in_order in_order_perm chain "A" 0 200).
  - apply adj_keyed_check. check_map.
  - apply (acyclic_check id letter_rank). check_map.
  - vm_compute. lia.
Defined.

Lemma Descendants_Ancestors_nil_error_witness :
  (∃ s t', Descendants id in_order 200 0 triangle "B" = Some (inl s, t'))
  ∧ (∃ s t', Ancestors id in_order 200 0 triangle "B" = Some (inl s, t')).
Proof.
  apply (Descendants_Ancestors_nil_error id in_order in_order_perm
           triangle "B" 0 200).
  vm_compute. lia.
Defined.

(** ** TransitiveReduction *)

Example TransitiveReduction_triangle :
  (λ r, elements (edges r.2)) <$> TransitiveReduction id in_order 200 0 triangle
  = Some [("A", "B"); ("B", "C")].
Proof. vm_compute. reflexivity. Qed.

Lemma TransitiveReduction_correct_witness :
  ∃ t' g',
    TransitiveReduction id in_order 200 0 triangle = Some (t', g')
    ∧ (∀ u w, edge id g' u w → ¬ tc (other_edge id g' u w) u w)
    ∧ (∀ u w, rtc (edge id g') u w ↔ rtc (edge id triangle) u w).
Proof.
  apply (TransitiveReduction_correct id in_order in_order_perm triangle 0 200).
  - apply adj_keyed_check. check_map.
  - apply sources_are_vertices_check; check_map.
  - apply (acyclic_check id letter_rank). check_map.
  - vm_compute. lia.
Defined.

Lemma TransitiveReduction_idempotent_witness :
  ∃ t1 g1 t2,
    TransitiveReduction id in_reverse 200 0 triangle = Some (t1, g1)
    ∧ TransitiveReduction id in_reverse 200 t1 g1 = Some (t2, g1).
Proof.
  apply (TransitiveReduction_idempotent id in_reverse in_reverse_perm triangle 0 200).
  - apply adj_keyed_check. check_map.
  - apply sources_are_vertices_check; check_map.
  - apply (acyclic_check id letter_rank). check_map.
  - vm_compute. lia.
Defined.

(** ** The walks *)

(** A visitor that fails at ["C"] and counts its invocations. *)
Definition stop_at_C : DepthWalkFunc (Vertex:=string) nat :=
  λ v _ m, (if decide (v = "C") then Some (VisitorError "stop") else None,
            (m.1, S m.2)).

(** A visitor that never fails and keeps no state. *)
Definition silent : DepthWalkFunc (Vertex:=string) unit := λ _ _ m, (None, m).

Example BreadthFirstWalk_triangle :
  visited <$> BreadthFirstWalk id in_order (λ _, triangle) (traced silent) 200
                (downEdgesNoCopy id triangle "A") (0, ((), []))
  = Some ["C"; "B"].
Proof. vm_compute. reflexivity. Qed.

Lemma BreadthFirstWalk_level_order_witness :
  ∃ r, BreadthFirstWalk id in_order (λ _, chain) (traced silent) 200
         (downEdgesNoCopy id chain "A") (0, ((), [])) = Some r
       ∧ ∀ pre v d post, log_of r.2 = pre ++ (v, d) :: post →
           ∀ n x w, n < d → (∃ k, downEdgesNoCopy id chain "A" !! k = Some x) →
             nsteps (successor id chain) n x w →
             ∃ v', v' ∈ pre.*1 ∧ id v' = id w.
Proof.
  apply (BreadthFirstWalk_level_order id in_order in_order_perm silent chain
           (downEdgesNoCopy id chain "A") 0 () 200).
  vm_compute. lia.
Defined.

Lemma walks_terminate_visit_once_witness :
  (∃ r, DepthFirstWalk id in_order (λ _, triangle) (traced stop_at_C) 200
          (vertices triangle) (0, (0, [])) = Some r
        ∧ NoDup (id <$> visited r))
  ∧ (∃ r, BreadthFirstWalk id in_order (λ _, triangle) (traced stop_at_C) 200
            (vertices triangle) (0, (0, [])) = Some r
          ∧ NoDup (id <$> visited r))
  ∧ (∃ r, ReverseDepthFirstWalk id in_order (λ _, triangle) (traced stop_at_C) 200
            (vertices triangle) (0, (0, [])) = Some r
          ∧ NoDup (visited r))
  ∧ (∃ r, SortedDepthFirstWalk id in_order id (λ _, triangle) (traced stop_at_C)
            200 ["A"; "B"] (0, (0, [])) = Some r
          ∧ NoDup (visited r))
  ∧ (∃ r, SortedReverseDepthFirstWalk id in_order id (λ _, triangle)
            (traced stop_at_C) 200 ["A"; "B"] (0, (0, [])) = Some r
          ∧ NoDup (visited r)).
Proof.
  apply (walks_terminate_visit_once id in_order id in_order_perm stop_at_C
           triangle (vertices triangle) ["A"; "B"] 0 0 200).
  - intros l. reflexivity.
  - vm_compute. lia.
  - vm_compute. lia.
Defined.

(** *** Two vertices with one identity key *)

(** The identity key of a name is its first letter. *)
Definition first_letter (s : string) : string :=
  match s with
  | String c _ => String c EmptyString
  | EmptyString => EmptyString
  end.

(** ["a1"] and ["a2"] share the key ["a"]; each has its own successor, and
    both successors lead to ["r"]. *)
Definition same_key : GraphBase string :=
  graph_of first_letter ["a1"; "a2"; "p"; "q"; "r"]
    [("a1", "p"); ("a2", "q"); ("p", "r"); ("q", "r")].

(** A start set in the manner of [Set{"x": v1, "y": v2}]. *)
Definition both_starts : gmap string string := {["x" := "a1"; "y" := "a2"]}.

(** C8, as stated, fails: [ReverseDepthFirstWalk] belongs to the plain
    family, yet walking up from the predecessors of ["r"] it invokes the
    visitor on ["a1"] and on ["a2"], two distinct vertices with the same
    identity key. *)
Lemma ReverseDepthFirstWalk_visits_both :
  "a1" ≠ "a2" ∧ first_letter "a1" = first_letter "a2"
  ∧ (visited <$> ReverseDepthFirstWalk first_letter in_order (λ _, same_key)
                   (traced silent) 200
                   (upEdgesNoCopy first_letter same_key "r") (0, ((), []))
     = Some ["p"; "a1"; "q"; "a2"])
  ∧ (visited <$> DepthFirstWalk first_letter in_order (λ _, same_key)
                   (traced silent) 200 both_starts (0, ((), []))
     = Some ["a1"; "p"; "r"; "q"]).
Proof. vm_compute. repeat split; discriminate. Qed.

(** ["a1"] and ["a2"] share the key ["a"]; ["p"] leads to ["a1"] and back,
    ["q"] leads to ["a2"] and back. *)
Definition two_way : GraphBase string :=
  graph_of first_letter ["a1"; "a2"; "p"; "q"]
    [("p", "a1"); ("q", "a2"); ("a1", "p"); ("a2", "q")].

Definition p_and_q : gmap string string := {["p" := "p"; "q" := "q"]}.

Example walks_of_two_way :
  (visited <$> DepthFirstWalk first_letter in_order (λ _, two_way) (traced silent)
                 200 p_and_q (0, ((), [])),
   visited <$> BreadthFirstWalk first_letter in_order (λ _, two_way) (traced silent)
                 200 p_and_q (0, ((), [])),
   visited <$> ReverseDepthFirstWalk first_letter in_order (λ _, two_way)
                 (traced silent) 200 p_and_q (0, ((), [])),
   visited <$> SortedDepthFirstWalk first_letter in_order id (λ _, two_way)
                 (traced silent) 200 ["p"; "q"] (0, ((), [])),
   visited <$> SortedReverseDepthFirstWalk first_letter in_order id (λ _, two_way)
                 (traced silent) 200 ["p"; "q"] (0, ((), [])))
  = (Some ["p"; "a1"; "q"], Some ["q"; "p"; "a2"],
     Some ["p"; "a1"; "q"; "a2"], Some ["q"; "a2"; "p"; "a1"],
     Some ["q"; "a2"; "p"; "a1"]).
Proof. vm_compute. reflexivity. Qed.

Lemma dedup_keys_witness :
  let down := led_from (member p_and_q) (successor first_letter two_way) in
  let up := led_from (member p_and_q) (predecessor first_letter two_way) in
  let sorted_down := led_from (.∈ ["p"; "q"]) (successor first_letter two_way) in
  let sorted_up := led_from (.∈ ["p"; "q"]) (predecessor first_letter two_way) in
  (∃ r, DepthFirstWalk first_letter in_order (λ _, two_way) (traced silent) 200
          p_and_q (0, ((), [])) = Some r
        ∧ one_per_key first_letter down (visited r)
        ∧ ¬ ("a1" ∈ visited r ∧ "a2" ∈ visited r)
        ∧ (down "a1" ∨ down "a2" →
           (∀ u, down u → first_letter u = first_letter "a1" → u = "a1" ∨ u = "a2") →
           only_one_of "a1" "a2" (visited r)))
  ∧ (∃ r, BreadthFirstWalk first_letter in_order (λ _, two_way) (traced silent)
            200 p_and_q (0, ((), [])) = Some r
          ∧ one_per_key first_letter down (visited r)
          ∧ ¬ ("a1" ∈ visited r ∧ "a2" ∈ visited r)
          ∧ (down "a1" ∨ down "a2" →
             (∀ u, down u → first_letter u = first_letter "a1" →
                   u = "a1" ∨ u = "a2") →
             only_one_of "a1" "a2" (visited r)))
  ∧ (∃ r, ReverseDepthFirstWalk first_letter in_order (λ _, two_way)
            (traced silent) 200 p_and_q (0, ((), [])) = Some r
          ∧ (∀ x, x ∈ visited r ↔ up x)
          ∧ (up "a1" → up "a2" → "a1" ∈ visited r ∧ "a2" ∈ visited r))
  ∧ (∃ r, SortedDepthFirstWalk first_letter in_order id (λ _, two_way)
            (traced silent) 200 ["p"; "q"] (0, ((), [])) = Some r
          ∧ (∀ x, x ∈ visited r ↔ sorted_down x)
          ∧ (sorted_down "a1" → sorted_down "a2" →
             "a1" ∈ visited r ∧ "a2" ∈ visited r))
  ∧ (∃ r, SortedReverseDepthFirstWalk first_letter in_order id (λ _, two_way)
            (traced silent) 200 ["p"; "q"] (0, ((), [])) = Some r
          ∧ (∀ x, x ∈ visited r ↔ sorted_up x)
          ∧ (sorted_up "a1" → sorted_up "a2" →
             "a1" ∈ visited r ∧ "a2" ∈ visited r)).
Proof.
  apply (dedup_keys first_letter in_order id in_order_perm silent two_way
           p_and_q ["p"; "q"] "a1" "a2" 0 () 200).
  - intros v d m. reflexivity.
  - intros l. reflexivity.
  - apply adj_keyed_check. check_map.
  - discriminate.
  - reflexivity.
  - vm_compute. lia.
  - vm_compute. lia.
Defined.

(** ** Sorted walks *)

(** [sort.Sort] as an insertion sort by display name. *)
Definition sort_by (VertexName : string → string) : list string → list string :=
  insertionSort (byVertexName_Less VertexName).

(** A root with three successors whose names are the vertices themselves. *)
Definition fan : GraphBase string :=
  graph_of id ["r"; "a"; "b"; "c"; "d"]
    [("r", "c"); ("r", "a"); ("r", "b"); ("a", "d"); ("c", "d")].

Definition quiet : string → nat → unit → option (error string) * unit :=
  λ _ _ a, (None, a).

Example SortedDepthFirstWalk_fan :
  visited <$> SortedDepthFirstWalk id in_reverse (sort_by id) (λ _, fan)
                (traced (untimed quiet)) 200 ["r"] (0, ((), []))
  = Some ["r"; "c"; "d"; "b"; "a"].
Proof. vm_compute. reflexivity. Qed.

Lemma SortedDepthFirstWalk_deterministic_witness :
  ∃ r1 r2,
    SortedDepthFirstWalk id in_order (sort_by id) (λ _, fan)
      (traced (untimed quiet)) 200 ["r"] (0, ((), [])) = Some r1
    ∧ SortedDepthFirstWalk id in_reverse (sort_by id) (λ _, fan)
        (traced (untimed quiet)) 200 ["r"] (7, ((), [])) = Some r2
    ∧ r1.1 = r2.1 ∧ r1.2.2 = r2.2.2.
Proof.
  apply (SortedDepthFirstWalk_deterministic id id in_order in_reverse (sort_by id)
           in_order_perm in_reverse_perm (insertionSort_sorts_by_name id)
           quiet fan ["r"] 0 7 () 200).
  - apply distinct_names_check. check_map.
  - vm_compute. lia.
Defined.

(** Two successors of ["r"] with the display name ["b"]. *)
Definition twins : GraphBase string :=
  graph_of id ["r"; "b1"; "b2"] [("r", "b1"); ("r", "b2")].

(** C5. [SortedDepthFirstWalk] does not keep what its comment promises, to
    iterate always in a consistent order.  When two successors of a vertex
    have the same display name, [Less] holds in neither direction, the sort
    leaves them in the order of the enumeration of the adjacency set, and
    two runs on the same graph and the same start sequence invoke the
    visitor in different orders: here on ["b2"] before ["b1"] in one run,
    on ["b1"] before ["b2"] in the other. *)
Lemma SortedDepthFirstWalk_same_name_order :
  sorts_by_name first_letter (sort_by first_letter)
  ∧ (visited <$> SortedDepthFirstWalk id in_order (sort_by first_letter)
                   (λ _, twins) (traced (untimed quiet)) 200 ["r"] (0, ((), []))
     = Some ["r"; "b2"; "b1"])
  ∧ (visited <$> SortedDepthFirstWalk id in_reverse (sort_by first_letter)
                   (λ _, twins) (traced (untimed quiet)) 200 ["r"] (0, ((), []))
     = Some ["r"; "b1"; "b2"]).
Proof.
  split; [apply insertionSort_sorts_by_name|]. vm_compute. split; reflexivity.
Qed.

(** ** Marshal: a nested graph between two vertices *)

(** The graph that the vertex ["subgraphOne"] wraps. *)
Definition inner : GraphBase string :=
  graph_of id ["itemThree"; "itemFour"] [("itemThree", "itemFour")].

Definition outer : GraphBase string :=
  graph_of id ["itemOne"; "itemTwo"; "subgraphOne"; "itemFive"]
    [("itemOne", "itemTwo"); ("itemTwo", "subgraphOne");
     ("subgraphOne", "itemFive")].

Definition wraps (v : string) : option (GraphBase string) :=
  if decide (v = "subgraphOne") then Some inner else None.

Definition heads_and_tails : MarshalOpts :=
  {| ConnectSubgraphHeads := true; ConnectSubgraphTails := true |}.

(** What the loop body of [Marshal] does to the outer graph at each of its
    three edges. *)
Definition rewire (ag : GraphBase string) (e : string * string) : GraphBase string :=
  if decide (e = ("itemTwo", "subgraphOne"))
  then RemoveEdge id (Connect id ag ("itemTwo", "itemThree")) e
  else if decide (e = ("subgraphOne", "itemFive"))
  then RemoveEdge id (Connect id ag ("itemFour", "itemFive")) e
  else ag.

Lemma inner_root :
  is_root id inner "itemThree" ∧ ∀ v, is_root id inner v → v = "itemThree".
Proof.
  split.
  - split; [by exists "itemThree"|]. vm_compute. reflexivity.
  - apply (is_root_check id (λ v, v = "itemThree")). check_map.
Qed.

Lemma inner_reach w :
  rtc (edge id inner) "itemThree" w → w = "itemThree" ∨ w = "itemFour".
Proof.
  revert w. apply rtc_ind_r; [by left|]. intros y z _ Hyz _. right.
  revert y z Hyz. apply (edge_check id (λ _ b, b = "itemFour")). check_map.
Qed.

Section multi_graph.
Variable shuffle : ∀ A : Type, nat → list A → list A.
Hypothesis shuffle_perm : ∀ (A : Type) (t : nat) (l : list A), shuffle A t l ≡ₚ l.
Variable fuel : nat.
Hypothesis fuel_enough : enough_fuel inner (S (length (graph_values inner))) ≤ fuel.

Lemma Marshal_edge_rewire t ag e :
  e ∈ elements (edges outer) →
  ∃ t', Marshal_edge id shuffle wraps "root" fuel heads_and_tails (inr (t, ag)) e
        = inr (t', rewire ag e).
Proof.
  destruct inner_root as [Hroot Huniq].
  assert (keyed id (vertices inner)) as Hk by (apply keyed_check; check_map).
  assert (adj_keyed id (downEdges inner)) as Hadj
    by (apply adj_keyed_check; check_map).
  intros He. vm_compute in He.
  apply elem_of_cons in He as [->|He]; [|apply elem_of_cons in He as [->|He];
    [|apply elem_of_cons in He as [->|He]; [|by apply not_elem_of_nil in He]]].
  - (* the edge out of the wrapping vertex *)
    unfold Marshal_edge, heads_and_tails.
    cbn [ConnectSubgraphHeads ConnectSubgraphTails].
    rewrite Marshal_heads_plain by done.
    destruct (Marshal_tails_wrapped id shuffle wraps "root" shuffle_perm fuel t ag
                ("subgraphOne", "itemFive") inner "itemThree")
      as (t' & tails & -> & Hnd & Hin & Hcov); [done..|].
    exists t'. rewrite list_fmap_id in Hnd.
    rewrite (singleton_of_NoDup tails "itemFour" Hnd); [done|].
    intros x. split.
    + intros [(w & [->| ->]%inner_reach & Hw) Htail]%Hin; simpl in Hw; subst x.
      * by vm_compute in Htail.
      * done.
    + intros ->. destruct (Hcov "itemFour") as (l & Hl & Hlw);
        [| |by simpl in Hlw; subst l].
      * apply rtc_once. by exists "itemFour".
      * vm_compute. reflexivity.
  - (* the edge into the wrapping vertex *)
    unfold Marshal_edge, heads_and_tails.
    cbn [ConnectSubgraphHeads ConnectSubgraphTails].
    rewrite (Marshal_heads_wrapped id shuffle wraps shuffle_perm t ag
               ("itemTwo", "subgraphOne") inner "itemThree") by done.
    rewrite Marshal_tails_plain by done. by eexists.
  - unfold Marshal_edge, heads_and_tails.
    cbn [ConnectSubgraphHeads ConnectSubgraphTails].
    rewrite Marshal_heads_plain by done.
    rewrite Marshal_tails_plain by done. by eexists.
Qed.

Lemma Marshal_rewire es t ag :
  (∀ e, e ∈ es → e ∈ elements (edges outer)) →
  ∃ t', foldl (Marshal_edge id shuffle wraps "root" fuel heads_and_tails)
          (inr (t, ag)) es
        = inr (t', foldl rewire ag es).
Proof.
  revert t ag. induction es as [|e es IH]; intros t ag Hes; [by eexists|].
  cbn [foldl]. destruct (Marshal_edge_rewire t ag e) as [t' ->].
  { apply Hes. left. }
  apply IH. intros e' He'. apply Hes. by right.
Qed.

End multi_graph.

(** C4. On the outer graph itemOne → itemTwo → subgraphOne → itemFive,
    where subgraphOne wraps the graph itemThree → itemFour, [Marshal] with
    both options on hands to the rendering a graph whose edges are
    itemOne → itemTwo, itemTwo → itemThree and itemFour → itemFive; the
    wrapped graph keeps its edge itemThree → itemFour, and subgraphOne has
    neither a successor nor a predecessor left.  This holds whatever the
    order in which the edges and the adjacency sets are enumerated. *)
Theorem Marshal_connects_subgraph
    (shuffle : ∀ A : Type, nat → list A → list A) (t fuel : nat) :
  (∀ (A : Type) (t : nat) (l : list A), shuffle A t l ≡ₚ l) →
  enough_fuel inner (S (length (graph_values inner))) ≤ fuel →
  ∃ t' ag',
    Marshal id shuffle wraps "root" fuel t outer heads_and_tails = inr (t', ag')
    ∧ edges ag' = {[ ("itemOne", "itemTwo"); ("itemTwo", "itemThree");
                     ("itemFour", "itemFive") ]}
    ∧ wraps "subgraphOne" = Some inner
    ∧ edges inner = {[ ("itemThree", "itemFour") ]}
    ∧ downEdgesNoCopy id ag' "subgraphOne" = ∅
    ∧ upEdgesNoCopy id ag' "subgraphOne" = ∅.
Proof.
  intros shuffle_perm Hfuel. unfold Marshal, Edges.
  pose proof (shuffle_perm _ t (elements (edges outer))) as Hperm.
  set (es := shuffle _ t (elements (edges outer))) in *.
  destruct (Marshal_rewire shuffle shuffle_perm fuel Hfuel es (S t) outer)
    as [t' ->].
  { intros e He. by rewrite <-Hperm. }
  exists t', (foldl rewire outer es). split; [done|].
  clearbody es. symmetry in Hperm. apply permutations_Permutation in Hperm.
  vm_compute in Hperm.
  repeat (apply elem_of_cons in Hperm as [->|Hperm]);
    [..|by apply not_elem_of_nil in Hperm];
    (split; [check_map|]; split; [reflexivity|]; split; [check_map|];
     split; check_map).
Qed.

Lemma Marshal_connects_subgraph_witness :
  ∃ t' ag',
    Marshal id in_order wraps "root" 100 0 outer heads_and_tails = inr (t', ag')
    ∧ edges ag' = {[ ("itemOne", "itemTwo"); ("itemTwo", "itemThree");
                     ("itemFour", "itemFive") ]}
    ∧ wraps "subgraphOne" = Some inner
    ∧ edges inner = {[ ("itemThree", "itemFour") ]}
    ∧ downEdgesNoCopy id ag' "subgraphOne" = ∅
    ∧ upEdgesNoCopy id ag' "subgraphOne" = ∅.
Proof.
  apply (Marshal_connects_subgraph in_order 0 100).
  - apply in_order_perm.
  - vm_compute. lia.
Defined.

(** ** More on the walks *)

Lemma walks_stop_at_first_error_witness :
  (∃ r, DepthFirstWalk id in_order (λ _, triangle) (audited stop_at_C) 200
          (vertices triangle) (0, (0, [])) = Some r
        ∧ first_error r.1 (outcomes r.2))
  ∧ (∃ r, BreadthFirstWalk id in_order (λ _, triangle) (audited stop_at_C) 200
            (vertices triangle) (0, (0, [])) = Some r
          ∧ first_error r.1 (outcomes r.2))
  ∧ (∃ r, ReverseDepthFirstWalk id in_order (λ _, triangle) (audited stop_at_C) 200
            (vertices triangle) (0, (0, [])) = Some r
          ∧ first_error r.1 (outcomes r.2))
  ∧ (∃ r, SortedDepthFirstWalk id in_order id (λ _, triangle) (audited stop_at_C)
            200 ["A"; "B"] (0, (0, [])) = Some r
          ∧ first_error r.1 (outcomes r.2))
  ∧ (∃ r, SortedReverseDepthFirstWalk id in_order id (λ _, triangle)
            (audited stop_at_C) 200 ["A"; "B"] (0, (0, [])) = Some r
          ∧ first_error r.1 (outcomes r.2)).
Proof.
  apply (walks_stop_at_first_error id in_order id in_order_perm stop_at_C
           triangle (vertices triangle) ["A"; "B"] 0 0 200).
  - intros l. reflexivity.
  - vm_compute. lia.
  - vm_compute. lia.
Defined.

Example DepthFirstWalk_stops_at_C :
  (λ r, (r.1, outcomes r.2)) <$>
    DepthFirstWalk id in_order (λ _, chain) (audited stop_at_C) 200
      (vertices chain) (0, (0, []))
  = Some (Some (VisitorError "stop"),
          [("B", 0, None); ("C", 1, Some (VisitorError "stop"))]).
Proof. vm_compute. reflexivity. Qed.

Lemma walks_visit_reachable_witness :
  (∃ r, DepthFirstWalk id in_order (λ _, triangle) (traced silent) 200
          (downEdgesNoCopy id triangle "B") (0, ((), [])) = Some r
        ∧ r.1 = None
        ∧ ∀ k, k ∈ id <$> visited r
               ↔ ∃ x w, (∃ k0, downEdgesNoCopy id triangle "B" !! k0 = Some x)
                        ∧ rtc (edge id triangle) x w ∧ id w = k)
  ∧ (∃ r, ReverseDepthFirstWalk id in_order (λ _, triangle) (traced silent) 200
            (downEdgesNoCopy id triangle "B") (0, ((), [])) = Some r
          ∧ r.1 = None
          ∧ ∀ x, x ∈ visited r
                 ↔ ∃ s, (∃ k0, downEdgesNoCopy id triangle "B" !! k0 = Some s)
                        ∧ rtc (predecessor id triangle) s x)
  ∧ (∃ r, SortedDepthFirstWalk id in_order id (λ _, triangle) (traced silent)
            200 ["B"] (0, ((), [])) = Some r
          ∧ r.1 = None
          ∧ ∀ x, x ∈ visited r ↔ ∃ s, s ∈ ["B"] ∧ rtc (successor id triangle) s x)
  ∧ (∃ r, SortedReverseDepthFirstWalk id in_order id (λ _, triangle)
            (traced silent) 200 ["B"] (0, ((), [])) = Some r
          ∧ r.1 = None
          ∧ ∀ x, x ∈ visited r ↔ ∃ s, s ∈ ["B"] ∧ rtc (predecessor id triangle) s x).
Proof.
  apply (walks_visit_reachable id in_order id in_order_perm silent triangle
           (downEdgesNoCopy id triangle "B") ["B"] 0 () 200).
  - intros v d m. reflexivity.
  - intros l. reflexivity.
  - apply adj_keyed_check. check_map.
  - vm_compute. lia.
  - vm_compute. lia.
Defined.

Lemma BreadthFirstWalk_visits_reachable_witness :
  ∃ r, BreadthFirstWalk id in_order (λ _, triangle) (traced silent) 200
         (downEdgesNoCopy id triangle "A") (0, ((), [])) = Some r
       ∧ r.1 = None
       ∧ ∀ k, k ∈ id <$> visited r
              ↔ ∃ s w, (∃ k0, downEdgesNoCopy id triangle "A" !! k0 = Some s)
                       ∧ rtc (successor id triangle) s w ∧ id w = k.
Proof.
  apply (BreadthFirstWalk_visits_reachable id in_order in_order_perm silent
           triangle (downEdgesNoCopy id triangle "A") 0 () 200).
  - intros v d m. reflexivity.
  - vm_compute. lia.
Defined.


Example BreadthFirstWalk_triangle_depths :
  (λ r, log_of r.2) <$>
    BreadthFirstWalk id in_order (λ _, triangle) (traced silent) 200
      {["A" := "A"]} (0, ((), []))
  = Some [("A", 0); ("C", 1); ("B", 1)].
Proof. vm_compute. reflexivity. Qed.

Lemma BreadthFirstWalk_shortest_depth_witness :
  ∃ r, BreadthFirstWalk id in_order (λ _, triangle) (traced silent) 200
         {["A" := "A"]} (0, ((), [])) = Some r
       ∧ ∀ v d, (v, d) ∈ log_of r.2 →
           (∃ s, (∃ k, ({["A" := "A"]} : gmap string string) !! k = Some s)
                 ∧ nsteps (successor id triangle) d s v)
           ∧ ∀ n s w, n < d →
               (∃ k, ({["A" := "A"]} : gmap string string) !! k = Some s) →
               nsteps (successor id triangle) n s w → id w ≠ id v.
Proof.
  apply (BreadthFirstWalk_shortest_depth id in_order in_order_perm silent
           triangle {["A" := "A"]} 0 () 200).
  vm_compute. lia.
Defined.

Lemma walks_empty_start_witness :
  DepthFirstWalk id in_order (λ _, chain) silent 1 ∅ (0, ()) = Some (None, (1, ()))
  ∧ BreadthFirstWalk id in_order (λ _, chain) silent 1 ∅ (0, ())
    = Some (None, (1, ()))
  ∧ ReverseDepthFirstWalk id in_order (λ _, chain) silent 1 ∅ (0, ())
    = Some (None, (1, ()))
  ∧ SortedDepthFirstWalk id in_order id (λ _, chain) silent 1 [] (0, ())
    = Some (None, (0, ()))
  ∧ SortedReverseDepthFirstWalk id in_order id (λ _, chain) silent 1 [] (0, ())
    = Some (None, (0, ())).
Proof.
  apply (walks_empty_start id in_order id in_order_perm (λ _, chain) silent 0 0 ()).
Defined.

Lemma SortedReverseDepthFirstWalk_deterministic_witness :
  ∃ r1 r2,
    SortedReverseDepthFirstWalk id in_order (sort_by id) (λ _, fan)
      (traced (untimed quiet)) 200 ["d"] (0, ((), [])) = Some r1
    ∧ SortedReverseDepthFirstWalk id in_reverse (sort_by id) (λ _, fan)
        (traced (untimed quiet)) 200 ["d"] (7, ((), [])) = Some r2
    ∧ r1.1 = r2.1 ∧ r1.2.2 = r2.2.2.
Proof.
  apply (SortedReverseDepthFirstWalk_deterministic id id in_order in_reverse
           (sort_by id) in_order_perm in_reverse_perm
           (insertionSort_sorts_by_name id) quiet fan ["d"] 0 7 () 200).
  - apply distinct_names_check. check_map.
  - vm_compute. lia.
Defined.

(** ** More on Root, Descendants and Ancestors *)

Lemma Root_sound_witness :
  (∀ r, (Root id in_order 0 chain).1 = inl r →
        is_root id chain r ∧ ∀ v, is_root id chain v → v = r)
  ∧ ((Root id in_order 0 chain).1 = inr NoRootsFound → ∀ v, ¬ is_root id chain v)
  ∧ (∀ roots, (Root id in_order 0 chain).1 = inr (MultipleRoots roots) →
       1 < length roots ∧ ∀ x, x ∈ roots ↔ is_root id chain x)
  ∧ (∀ msg, (Root id in_order 0 chain).1 ≠ inr (VisitorError msg))
  ∧ (Root id in_order 0 chain).2 = 1.
Proof. apply (Root_sound id in_order in_order_perm 0 chain). Defined.

Lemma Ancestors_reachable_witness :
  ∃ s t', Ancestors id in_order 200 0 chain "C" = Some (inl s, t')
          ∧ ∀ w, Set_Include id s w = true
                 ↔ ∃ x, tc (predecessor id chain) "C" x ∧ id x = id w.
Proof.
  apply (Ancestors_reachable id in_order in_order_perm chain "C" 0 200).
  vm_compute. lia.
Defined.

Lemma Descendants_empty_iff_tail_witness :
  ∃ s t', Descendants id in_order 200 0 chain "C" = Some (inl s, t')
          ∧ (Set_Len s = 0 ↔ is_tail id chain "C").
Proof.
  apply (Descendants_empty_iff_tail id in_order in_order_perm chain "C" 0 200).
  - apply adj_keyed_check. check_map.
  - vm_compute. lia.
Defined.

Lemma Descendants_Ancestors_converse_witness :
  ∃ sd t1' sa t2',
    Descendants id in_order 200 0 chain "A" = Some (inl sd, t1')
    ∧ Ancestors id in_order 200 5 chain "C" = Some (inl sa, t2')
    ∧ (Set_Include id sd "C" = true ↔ Set_Include id sa "A" = true).
Proof.
  apply (Descendants_Ancestors_converse id in_order in_order_perm chain "A" "C"
           0 5 200).
  - apply adj_keyed_check. check_map.
  - apply adj_keyed_check. check_map.
  - apply mirrored_check; check_map.
  - vm_compute. lia.
Defined.

(** ** More on TransitiveReduction *)

(** A graph with a cycle. *)
Definition loop : GraphBase string :=
  graph_of id ["A"; "B"; "C"] [("A", "B"); ("B", "A"); ("B", "C")].

Lemma TransitiveReduction_only_removes_witness :
  ∃ t' g', TransitiveReduction id in_order 200 0 loop = Some (t', g')
           ∧ vertices g' = vertices loop
           ∧ edges g' ⊆ edges loop
           ∧ ∀ a b, edge id g' a b → edge id loop a b.
Proof.
  apply (TransitiveReduction_only_removes id in_order in_order_perm loop 0 200).
  vm_compute. lia.
Defined.

(** ** More on Marshal *)

Definition no_options : MarshalOpts :=
  {| ConnectSubgraphHeads := false; ConnectSubgraphTails := false |}.

Lemma Marshal_plain_witness :
  Marshal id in_order wraps "root" 0 0 outer no_options = inr (1, outer).
Proof.
  apply (Marshal_plain id in_order wraps "root" in_order_perm 0 0 outer no_options).
  intros e _. split; discriminate.
Defined.

(** A vertex that wraps the empty graph, which has no root. *)
Definition wraps_nothing (v : string) : option (GraphBase string) :=
  if decide (v = "hollow") then Some (graph_of id [] []) else None.

Definition around_nothing : GraphBase string :=
  graph_of id ["itemOne"; "hollow"] [("itemOne", "hollow")].

Lemma Marshal_halts_without_root_witness :
  ∃ h, Marshal id in_order wraps_nothing "root" 100 0 around_nothing heads_and_tails
       = inl h.
Proof.
  apply (Marshal_halts_without_root id in_order wraps_nothing "root" in_order_perm
           100 0 around_nothing heads_and_tails ("itemOne", "hollow")
           (graph_of id [] [])).
  - check_map.
  - left. split; reflexivity.
  - intros (r & [[k Hk] _] & _). exact (lookup_empty_Some k r Hk).
Defined.

Lemma Marshal_heads_connects_root_witness :
  Marshal_heads id in_order wraps 0 outer ("itemTwo", "subgraphOne")
  = inr (1, RemoveEdge id
              (Connect id outer (BasicEdge ("itemTwo", "subgraphOne").1 "itemThree"))
              ("itemTwo", "subgraphOne")).
Proof.
  apply (Marshal_heads_connects_root id in_order wraps in_order_perm 0 outer
           ("itemTwo", "subgraphOne") inner "itemThree").
  - reflexivity.
  - apply keyed_check. check_map.
  - apply inner_root.
  - apply inner_root.
Defined.

Lemma Marshal_tails_connects_tails_witness :
  ∃ t' tails,
    Marshal_tails id in_order wraps "root" 100 0 outer ("subgraphOne", "itemFive")
    = inr (t', foldl (connect_tail id ("subgraphOne", "itemFive")) outer tails)
    ∧ NoDup (id <$> tails)
    ∧ (∀ l, l ∈ tails →
         (∃ w, rtc (edge id inner) "itemThree" w ∧ id w = id l) ∧ is_tail id inner l)
    ∧ (∀ w, rtc (edge id inner) "itemThree" w → is_tail id inner w →
         ∃ l, l ∈ tails ∧ id l = id w).
Proof.
  apply (Marshal_tails_connects_tails id in_order wraps "root" in_order_perm 100 0
           outer ("subgraphOne", "itemFive") inner "itemThree").
  - reflexivity.
  - apply keyed_check. check_map.
  - apply inner_root.
  - apply inner_root.
  - apply adj_keyed_check. check_map.
  - vm_compute. lia.
Defined.
